(** * create-nx-turbob: the scaffolding generator and its file utilities

    A shallow embedding of [src/index.ts] (the [init] and [app] commands)
    and of [src/utils/index.ts] (template copy, JSON files, version
    detection), with the Node.js interfaces they call modelled as far as
    the verified properties need them:

    - text is a [string] of bytes (UTF-8);
    - a JSON value is a tree; an object is the list of its properties in
      enumeration order, numbers are integers printed in decimal;
    - a path is the list of its components, absolute or relative to the
      working directory ([..] components and symbolic links are outside
      the model);
    - the file system is a finite map from absolute paths to nodes;
    - code with effects runs in a state-and-exception monad over a
      [World] (file system, working directory, trace of issued calls);
    - external processes and the formatter are parameters of the model. *)

Set Warnings "-register-all".

From Stdlib Require Import ZArith Ascii String DecimalString DecimalZ DecimalPos.
From stdpp Require Import base option list strings gmap sorting.


(** ** Text *)

Module Text.

Definition nl : string := String "010"%char EmptyString.
Definition dq : string := String "034"%char EmptyString.

Definition code (c : ascii) : N := N_of_ascii c.

(** White space of [String.prototype.trim], on UTF-8 bytes: the ASCII
    blanks and line terminators, U+00A0, U+1680, U+2000..U+200A, U+2028,
    U+2029, U+202F, U+205F, U+3000 and U+FEFF. *)
Definition blank (c : ascii) : bool :=
  let n := code c in ((9 <=? n) && (n <=? 13) || (n =? 32))%N%bool.

(** [ws2 a b]: the bytes [a b] encode U+00A0; [ws3 a b c]: the bytes
    [a b c] encode one of the three-byte white-space characters. *)
Definition ws2 (a b : ascii) : bool :=
  ((code a =? 0xC2) && (code b =? 0xA0))%N%bool.

Definition ws3 (a b c : ascii) : bool :=
  let x := code a in let y := code b in let z := code c in
  ((x =? 0xE1) && (y =? 0x9A) && (z =? 0x80)
   || (x =? 0xE2) && (y =? 0x80)
      && ((0x80 <=? z) && (z <=? 0x8A) || (z =? 0xA8) || (z =? 0xA9)
          || (z =? 0xAF))
   || (x =? 0xE2) && (y =? 0x81) && (z =? 0x9F)
   || (x =? 0xE3) && (y =? 0x80) && (z =? 0x80)
   || (x =? 0xEF) && (y =? 0xBB) && (z =? 0xBF))%N%bool.

Fixpoint drop_n (n : nat) (s : string) : string :=
  match n, s with
  | S k, String _ r => drop_n k r
  | _, _ => s
  end.

(** Number of bytes of the white-space character that starts [s]
    (0 when [s] does not start with one). *)
Definition ws_width (s : string) : nat :=
  match s with
  | String a r =>
      if blank a then 1
      else match r with
           | String b r2 =>
               if ws2 a b then 2
               else match r2 with
                    | String c _ => if ws3 a b c then 3 else 0
                    | EmptyString => 0
                    end
           | EmptyString => 0
           end
  | EmptyString => 0
  end%nat.

Fixpoint trimStart_go (fuel : nat) (s : string) : string :=
  match fuel with
  | O => s
  | S f =>
      match ws_width s with
      | O => s
      | w => trimStart_go f (drop_n w s)
      end
  end.

Definition trimStart (s : string) : string := trimStart_go (String.length s) s.

(** The same from the end, on the reversed text [r]: number of bytes of
    the white-space character that ends the text. *)
Definition ws_suffix_width (r : string) : nat :=
  match r with
  | String c r1 =>
      if blank c then 1
      else match r1 with
           | String b r2 =>
               if ws2 b c then 2
               else match r2 with
                    | String a _ => if ws3 a b c then 3 else 0
                    | EmptyString => 0
                    end
           | EmptyString => 0
           end
  | EmptyString => 0
  end%nat.

Fixpoint trimEnd_go (fuel : nat) (r : string) : string :=
  match fuel with
  | O => r
  | S f =>
      match ws_suffix_width r with
      | O => r
      | w => trimEnd_go f (drop_n w r)
      end
  end.

Definition trimEnd (s : string) : string :=
  String.rev (trimEnd_go (String.length s) (String.rev s)).

Definition trim (s : string) : string := trimEnd (trimStart s).

(** [s.replace(/a/g, b)] for single characters [a] and [b]. *)
Fixpoint replace_all (a b : ascii) (s : string) : string :=
  match s with
  | EmptyString => EmptyString
  | String c r =>
      String (if decide (c = a) then b else c) (replace_all a b r)
  end.

(** A printable ASCII character that is not a blank. *)
Definition visible (c : ascii) : bool :=
  let n := code c in ((33 <=? n) && (n <=? 126))%N%bool.

Definition first_char (s : string) : option ascii :=
  match s with EmptyString => None | String c _ => Some c end.

Fixpoint last_char (s : string) : option ascii :=
  match s with
  | EmptyString => None
  | String c r => match last_char r with Some d => Some d | None => Some c end
  end.

End Text.

(** ** JSON values, [JSON.stringify] and [JSON.parse] *)

Module Json.
Import Text.

Inductive json :=
| JNull
| JBool (b : bool)
| JNum (n : Z)
| JStr (s : string)
| JArr (items : list json)
| JObj (props : list (string * json)).

(** *** Objects: property lookup, assignment and spread *)

Fixpoint obj_get (k : string) (o : list (string * json)) : option json :=
  match o with
  | [] => None
  | (k', v) :: r => if decide (k = k') then Some v else obj_get k r
  end.

(** [o[k] = v]: an existing property keeps its place, a new one is
    appended. *)
Fixpoint obj_set (k : string) (v : json) (o : list (string * json))
  : list (string * json) :=
  match o with
  | [] => [(k, v)]
  | (k', v') :: r =>
      if decide (k = k') then (k', v) :: r else (k', v') :: obj_set k v r
  end.

Definition show_Z (n : Z) : string := NilZero.string_of_int (Z.to_int n).

Fixpoint index_from {A} (i : Z) (l : list A) : list (string * A) :=
  match l with
  | [] => []
  | x :: r => (show_Z i, x) :: index_from (i + 1) r
  end.

(** The own enumerable properties that [{...v}] copies. *)
Definition own_props (v : json) : list (string * json) :=
  match v with
  | JObj o => o
  | JArr l => index_from 0 l
  | JStr s =>
      index_from 0 ((fun c => JStr (String c EmptyString))
                      <$> list_ascii_of_string s)
  | _ => []
  end.

(** [{...a, ...b}] *)
Definition spread (a b : json) : json :=
  JObj (foldl (fun acc kv => obj_set kv.1 kv.2 acc) (own_props a) (own_props b)).

Definition field (k : string) (v : json) : option json :=
  match v with JObj o => obj_get k o | _ => None end.

(** *** [JSON.stringify(value, null, space)] *)

Definition hex_digit (n : N) : ascii :=
  ascii_of_N (if (n <? 10)%N then 48 + n else 87 + n)%N.

Definition esc_char (c : ascii) : string :=
  let n := code c in
  if (n =? 8)%N then "\b"
  else if (n =? 9)%N then "\t"
  else if (n =? 10)%N then "\n"
  else if (n =? 12)%N then "\f"
  else if (n =? 13)%N then "\r"
  else if (n =? 34)%N then "\" +:+ dq
  else if (n =? 92)%N then "\\"
  else if (n <? 32)%N then
    "\u00" +:+ String (hex_digit (n / 16)) (String (hex_digit (n mod 16)) EmptyString)
  else String c EmptyString.

Fixpoint escape (s : string) : string :=
  match s with
  | EmptyString => EmptyString
  | String c r => esc_char c +:+ escape r
  end.

Definition quote (s : string) : string := dq +:+ escape s +:+ dq.

Fixpoint join (sep : string) (l : list string) : string :=
  match l with
  | [] => EmptyString
  | [x] => x
  | x :: r => x +:+ sep +:+ join sep r
  end.

Definition bracket (opening closing gap stepback : string)
    (partial : list string) : string :=
  match partial with
  | [] => opening +:+ closing
  | _ =>
      match gap with
      | EmptyString => opening +:+ join "," partial +:+ closing
      | _ =>
          let indent := stepback +:+ gap in
          opening +:+ nl +:+ indent
          +:+ join ("," +:+ nl +:+ indent) partial
          +:+ nl +:+ stepback +:+ closing
      end
  end.

Definition colon (gap : string) : string :=
  match gap with EmptyString => ":" | _ => ": " end.

Fixpoint serialize (gap indent : string) (v : json) : string :=
  match v with
  | JNull => "null"
  | JBool true => "true"
  | JBool false => "false"
  | JNum n => show_Z n
  | JStr s => quote s
  | JArr l =>
      bracket "[" "]" gap indent (map (serialize gap (indent +:+ gap)) l)
  | JObj l =>
      bracket "{" "}" gap indent
        (map (fun kv => quote kv.1 +:+ colon gap
                        +:+ serialize gap (indent +:+ gap) kv.2) l)
  end.

Fixpoint spaces (n : nat) : string :=
  match n with O => EmptyString | S k => String " " (spaces k) end.

Definition JSON_stringify (v : json) (space : nat) : string :=
  serialize (spaces (Nat.min space 10)) EmptyString v.

(** *** [JSON.parse] *)

Definition json_ws (c : ascii) : bool :=
  let n := code c in ((n =? 32) || (n =? 9) || (n =? 10) || (n =? 13))%N.

Fixpoint skip_ws (s : string) : string :=
  match s with
  | String c r => if json_ws c then skip_ws r else s
  | EmptyString => EmptyString
  end.

Definition hex_val (c : ascii) : option N :=
  let n := code c in
  if ((48 <=? n) && (n <=? 57))%N then Some (n - 48)%N
  else if ((97 <=? n) && (n <=? 102))%N then Some (n - 87)%N
  else if ((65 <=? n) && (n <=? 70))%N then Some (n - 55)%N
  else None.

Definition hex4 (a b c d : ascii) : option N :=
  x ← hex_val a; y ← hex_val b; z ← hex_val c; w ← hex_val d;
  Some (((x * 16 + y) * 16 + z) * 16 + w)%N.

(** UTF-8 bytes of a code unit of the Basic Multilingual Plane. *)
Definition utf8 (n : N) : string :=
  if (n <? 0x80)%N then String (ascii_of_N n) EmptyString
  else if (n <? 0x800)%N then
    String (ascii_of_N (0xC0 + n / 64))
      (String (ascii_of_N (0x80 + n mod 64)) EmptyString)
  else
    String (ascii_of_N (0xE0 + n / 4096))
      (String (ascii_of_N (0x80 + (n / 64) mod 64))
         (String (ascii_of_N (0x80 + n mod 64)) EmptyString)).

Definition prepend (p : string) (r : option (string * string))
  : option (string * string) :=
  match r with
  | Some (s, rest) => Some (p +:+ s, rest)
  | None => None
  end.

Definition unescape (e : ascii) : option string :=
  let n := code e in
  if (n =? 34)%N then Some dq
  else if (n =? 92)%N then Some "\"
  else if (n =? 47)%N then Some "/"
  else if (n =? 98)%N then Some (String "008" EmptyString)
  else if (n =? 102)%N then Some (String "012" EmptyString)
  else if (n =? 110)%N then Some nl
  else if (n =? 114)%N then Some (String "013" EmptyString)
  else if (n =? 116)%N then Some (String "009" EmptyString)
  else None.

(** The text of a string literal after its opening quote, up to and
    including the closing quote. *)
Fixpoint parse_chars (s : string) : option (string * string) :=
  match s with
  | EmptyString => None
  | String c r =>
      if (code c =? 34)%N then Some (EmptyString, r)
      else if (code c =? 92)%N then
        match r with
        | String e r1 =>
            if (code e =? 117)%N then
              match r1 with
              | String h1 (String h2 (String h3 (String h4 r2))) =>
                  match hex4 h1 h2 h3 h4 with
                  | Some n => prepend (utf8 n) (parse_chars r2)
                  | None => None
                  end
              | _ => None
              end
            else
              match unescape e with
              | Some p => prepend p (parse_chars r1)
              | None => None
              end
        | EmptyString => None
        end
      else if (code c <? 32)%N then None
      else prepend (String c EmptyString) (parse_chars r)
  end.

Definition num_char (c : ascii) : bool :=
  let n := code c in
  ((48 <=? n) && (n <=? 57) || (n =? 45) || (n =? 43) || (n =? 46)
   || (n =? 101) || (n =? 69))%N.

(** The longest prefix of number characters, and the rest. *)
Fixpoint span_num (s : string) : string * string :=
  match s with
  | String c r =>
      if num_char c then let '(t, rest) := span_num r in (String c t, rest)
      else (EmptyString, s)
  | EmptyString => (EmptyString, EmptyString)
  end.

(** An integer literal in canonical form; fractions and exponents are
    outside the model. *)
Definition parse_int (tok : string) : option Z :=
  match NilZero.int_of_string tok with
  | Some d =>
      let z := Z.of_int d in
      if decide (show_Z z = tok) then Some z else None
  | None => None
  end.

Fixpoint strip_prefix (p s : string) : option string :=
  match p, s with
  | EmptyString, _ => Some s
  | String a p', String b s' =>
      if decide (a = b) then strip_prefix p' s' else None
  | _, _ => None
  end.

Definition literal (p : string) (v : json) (s : string)
  : option (json * string) :=
  match strip_prefix p s with
  | Some r => Some (v, r)
  | None => None
  end.

Fixpoint parse_value (fuel : nat) (s : string) : option (json * string) :=
  match fuel with
  | O => None
  | S f =>
      match skip_ws s with
      | EmptyString => None
      | String c r =>
          if num_char c then
            let '(tok, rest) := span_num (String c r) in
            match parse_int tok with
            | Some z => Some (JNum z, rest)
            | None => None
            end
          else if (code c =? 34)%N then
            match parse_chars r with
            | Some (str, rest) => Some (JStr str, rest)
            | None => None
            end
          else if (code c =? 91)%N then
            match skip_ws r with
            | String c' r' =>
                if (code c' =? 93)%N then Some (JArr [], r')
                else parse_elems f [] r
            | EmptyString => None
            end
          else if (code c =? 123)%N then
            match skip_ws r with
            | String c' r' =>
                if (code c' =? 125)%N then Some (JObj [], r')
                else parse_members f [] r
            | EmptyString => None
            end
          else if (code c =? 116)%N then literal "rue" (JBool true) r
          else if (code c =? 102)%N then literal "alse" (JBool false) r
          else if (code c =? 110)%N then literal "ull" JNull r
          else None
      end
  end
with parse_elems (fuel : nat) (acc : list json) (s : string)
  : option (json * string) :=
  match fuel with
  | O => None
  | S f =>
      match parse_value f s with
      | Some (v, r) =>
          match skip_ws r with
          | String c r' =>
              if (code c =? 44)%N then parse_elems f (acc ++ [v]) r'
              else if (code c =? 93)%N then Some (JArr (acc ++ [v]), r')
              else None
          | EmptyString => None
          end
      | None => None
      end
  end
with parse_members (fuel : nat) (acc : list (string * json)) (s : string)
  : option (json * string) :=
  match fuel with
  | O => None
  | S f =>
      match skip_ws s with
      | String q r =>
          if (code q =? 34)%N then
            match parse_chars r with
            | Some (k, r1) =>
                match skip_ws r1 with
                | String c r2 =>
                    if (code c =? 58)%N then
                      match parse_value f r2 with
                      | Some (v, r3) =>
                          match skip_ws r3 with
                          | String d r4 =>
                              if (code d =? 44)%N
                              then parse_members f (obj_set k v acc) r4
                              else if (code d =? 125)%N
                              then Some (JObj (obj_set k v acc), r4)
                              else None
                          | EmptyString => None
                          end
                      | None => None
                      end
                    else None
                | EmptyString => None
                end
            | None => None
            end
          else None
      | EmptyString => None
      end
  end.

Definition JSON_parse (s : string) : option json :=
  match parse_value (S (String.length s)) s with
  | Some (v, rest) =>
      match skip_ws rest with
      | EmptyString => Some v
      | _ => None
      end
  | None => None
  end.

(** *** The values [JSON.stringify] and [JSON.parse] exchange faithfully *)

(** Property names are distinct, and numbers are integers that a double
    represents exactly and prints in decimal. *)
Definition safe_integer (n : Z) : bool :=
  (Z.abs n <=? 2 ^ 53 - 1)%Z.

Fixpoint serializable (v : json) : bool :=
  match v with
  | JNum n => safe_integer n
  | JArr l => forallb serializable l
  | JObj l =>
      bool_decide (NoDup l.*1) && forallb (fun kv => serializable kv.2) l
  | _ => true
  end.

(** Number of values in [v], counting each element of an array or
    object twice: enough fuel for [parse_value] on the text of [v]. *)
Fixpoint nodes (v : json) : nat :=
  match v with
  | JArr l => S (list_sum (map (fun e => S (nodes e)) l))
  | JObj l => S (list_sum (map (fun kv => S (nodes kv.2)) l))
  | _ => 1
  end.

(** *** Vocabulary of the round-trip proof *)

Definition ws_only (w : string) : Prop := skip_ws w = EmptyString.

Definition all_num (t : string) : Prop :=
  Forall (fun c => num_char c = true) (list_ascii_of_string t).

(** What may follow a value: not a character that would extend a number. *)
Definition delim (rest : string) : Prop :=
  match rest with
  | String c _ => num_char c = false
  | EmptyString => True
  end.

Definition lead (gap stepback : string) : string :=
  match gap with
  | EmptyString => EmptyString
  | _ => nl +:+ stepback +:+ gap
  end.

Definition trail (gap stepback : string) : string :=
  match gap with
  | EmptyString => EmptyString
  | _ => nl +:+ stepback
  end.

(** The first character of a printed value starts no white space and
    closes no bracket. *)
Definition opens (s : string) : Prop :=
  ∃ c r, s = String c r ∧ json_ws c = false
         ∧ (code c =? 93)%N = false ∧ (code c =? 125)%N = false.

Definition colon_ws (gap : string) : string :=
  match gap with EmptyString => EmptyString | _ => " " end.

(** The text of [e] printed with [gap] at [ind] is read back as [e],
    whatever follows it. *)
Definition reads_back (gap ind : string) (e : json) : Prop :=
  ∀ rest fuel, (nodes e ≤ fuel)%nat → delim rest →
    parse_value fuel (serialize gap ind e +:+ rest) = Some (e, rest).

End Json.

(** ** The Node.js interfaces the generator calls *)

Module Node.
Import Text Json.

(** *** Paths ([path.join], [path.dirname]) *)

Record path := Path { absolute : bool; comps : list string }.

Definition flush (cur : string) : list string :=
  if decide (cur = EmptyString) then []
  else if decide (cur = ".") then [] else [cur].

Fixpoint split_go (cur s : string) : list string :=
  match s with
  | EmptyString => flush cur
  | String c r =>
      if decide (c = "/"%char) then flush cur ++ split_go EmptyString r
      else split_go (cur +:+ String c EmptyString) r
  end.

(** A path written as text: its components, empty ones and [.] dropped. *)
Definition path_of (s : string) : path :=
  {| absolute := bool_decide (first_char s = Some "/"%char);
     comps := split_go EmptyString s |}.

Coercion path_of : string >-> path.

Definition join_paths (l : list path) : path :=
  {| absolute := match l with p :: _ => absolute p | [] => false end;
     comps := concat (comps <$> l) |}.

(** [path.join(a, ..., b)] *)
Notation "'path_join' ( x , .. , y )" :=
  (join_paths (@cons path x .. (@cons path y (@nil path)) ..))
  (at level 0, x at level 200, y at level 200).

Definition path_dirname (p : path) : path :=
  {| absolute := absolute p; comps := removelast (comps p) |}.

(** The text of a path, as a template literal interpolates it. *)
Definition show_path (p : path) : string :=
  match absolute p, comps p with
  | false, [] => "."
  | false, l => join "/" l
  | true, l => "/" +:+ join "/" l
  end.

Definition resolve (cwd : list string) (p : path) : list string :=
  if absolute p then comps p else cwd ++ comps p.

(** *** The file system *)

Inductive node := File (content : string) | Dir.

#[global] Instance node_eq_dec : EqDecision node.
Proof. solve_decision. Defined.

Abbreviation FS :=
  (@gmap (list string) (@list_eq_dec string String.eq_dec)
     (@list_countable string String.eq_dec String.countable) node).

(** The root is a directory. *)
Definition stat (fs : FS) (q : list string) : option node :=
  match q with
  | [] => Some Dir
  | _ => fs !! q
  end.

(** [mkdir -p]: every missing directory on the way to [base ++ todo] is
    created; a file on the way is an error. *)
Fixpoint mkdirp_go (base todo : list string) (fs : FS) : option FS :=
  match todo with
  | [] => Some fs
  | c :: r =>
      let q := base ++ [c] in
      match fs !! q with
      | Some (File _) => None
      | Some Dir => mkdirp_go q r fs
      | None => mkdirp_go q r (<[q := Dir]> fs)
      end
  end.

Definition mkdirp (fs : FS) (q : list string) : option FS := mkdirp_go [] q fs.

Fixpoint relative_to (d q : list string) : option (list string) :=
  match d, q with
  | [], _ => Some q
  | a :: d', b :: q' => if decide (a = b) then relative_to d' q' else None
  | _ :: _, [] => None
  end.

(** The entries below directory [d], by their path relative to [d],
    parents before children. *)
Definition shorter (a b : list string * node) : Prop :=
  (length a.1 ≤ length b.1)%nat.

#[global] Instance shorter_dec : RelDecision shorter.
Proof. intros a b. unfold shorter. apply _. Defined.

Definition below (d : list string) (fs : FS) : list (list string * node) :=
  merge_sort shorter
    (omap (fun qn => match relative_to d qn.1 with
                     | Some [] => None
                     | Some rel => Some (rel, qn.2)
                     | None => None
                     end) (map_to_list fs)).

(** *** Worlds, calls and the monad of effects *)

Inductive event :=
| Mkdir (p : list string)
| WriteFile (p : list string) (content : string)
| Copy (src dst : list string)
| Chdir (p : list string)
| Exec (cmd : string) (dir : list string)
| Prompt (message : string)
| Log (msg : string)
| Warn (msg : string)
| Error (msg : string).

Record World := { fs : FS; cwd : list string; trace : list event }.

Definition set_fs (w : World) (f : FS) : World :=
  {| fs := f; cwd := cwd w; trace := trace w |}.

Definition set_cwd (w : World) (d : list string) : World :=
  {| fs := fs w; cwd := d; trace := trace w |}.

Definition emit (e : event) (w : World) : World :=
  {| fs := fs w; cwd := cwd w; trace := trace w ++ [e] |}.

(** A call returns a value or throws; the world it leaves is kept in
    both cases. *)
Inductive outcome (A : Type) := Ok (a : A) | Throw (e : string).
Arguments Ok {A} a.
Arguments Throw {A} e.

Definition M (A : Type) : Type := World → outcome A * World.

Definition ret {A} (a : A) : M A := fun w => (Ok a, w).

Definition bind {A B} (c : M A) (k : A → M B) : M B :=
  fun w =>
    match c w with
    | (Ok a, w') => k a w'
    | (Throw e, w') => (Throw e, w')
    end.

Definition throw {A} (e : string) : M A := fun w => (Throw e, w).

(** [try { c } catch { h }] *)
Definition try_catch {A} (c : M A) (h : M A) : M A :=
  fun w =>
    match c w with
    | (Ok a, w') => (Ok a, w')
    | (Throw _, w') => h w'
    end.

Declare Scope js_scope.
Delimit Scope js_scope with js.
Notation "x <- c ;; k" := (bind c (fun x => k))
  (at level 100, c at next level, right associativity) : js_scope.
Notation "c ;; k" := (bind c (fun _ => k))
  (at level 100, right associativity) : js_scope.
Local Open Scope js_scope.

Fixpoint forEach {A} (l : list A) (f : A → M unit) : M unit :=
  match l with
  | [] => ret tt
  | x :: r => f x;; forEach r f
  end.

(** *** [console] *)

Definition console_log (msg : string) : M unit :=
  fun w => (Ok tt, emit (Log msg) w).
Definition console_warn (msg : string) : M unit :=
  fun w => (Ok tt, emit (Warn msg) w).
Definition console_error (msg : string) : M unit :=
  fun w => (Ok tt, emit (Error msg) w).

(** *** [fs] and [fs-extra] *)

Definition existsSync (p : path) : M bool :=
  fun w => (Ok (bool_decide (is_Some (stat (fs w) (resolve (cwd w) p)))), w).

Definition readFileSync (p : path) : M string :=
  fun w =>
    match stat (fs w) (resolve (cwd w) p) with
    | Some (File c) => (Ok c, w)
    | Some Dir => (Throw "EISDIR", w)
    | None => (Throw "ENOENT", w)
    end.

Definition writeFileSync (p : path) (content : string) : M unit :=
  fun w =>
    let q := resolve (cwd w) p in
    let w1 := emit (WriteFile q content) w in
    match stat (fs w) q with
    | Some Dir => (Throw "EISDIR", w1)
    | _ =>
        match stat (fs w) (removelast q) with
        | Some Dir => (Ok tt, set_fs w1 (<[q := File content]> (fs w)))
        | Some (File _) => (Throw "ENOTDIR", w1)
        | None => (Throw "ENOENT", w1)
        end
    end.

Definition mkdirSync (p : path) (recursive : bool) : M unit :=
  fun w =>
    let q := resolve (cwd w) p in
    let w1 := emit (Mkdir q) w in
    if recursive then
      match mkdirp (fs w) q with
      | Some f => (Ok tt, set_fs w1 f)
      | None => (Throw "EEXIST", w1)
      end
    else
      match stat (fs w) q with
      | Some _ => (Throw "EEXIST", w1)
      | None =>
          match stat (fs w) (removelast q) with
          | Some Dir => (Ok tt, set_fs w1 (<[q := Dir]> (fs w)))
          | Some (File _) => (Throw "ENOTDIR", w1)
          | None => (Throw "ENOENT", w1)
          end
      end.

Definition ensureDirSync (p : path) : M unit := mkdirSync p true.

(** One entry of a tree copy with [overwrite: true]: a file replaces a
    file, a directory is kept or created, a file and a directory where
    the other is expected is an error. *)
Fixpoint copy_entries (d : list string) (l : list (list string * node))
    (f : FS) : outcome unit * FS :=
  match l with
  | [] => (Ok tt, f)
  | (rel, n) :: r =>
      let t := d ++ rel in
      match n, stat f t with
      | Dir, Some (File _) =>
          (Throw "Cannot overwrite non-directory with directory", f)
      | File _, Some Dir =>
          (Throw "Cannot overwrite directory with non-directory", f)
      | _, _ => copy_entries d r (<[t := n]> f)
      end
  end.

(** [copySync(src, dest, { overwrite: true })]. The source tree is read
    before it is written to the destination. *)
Definition copySync (src dst : path) : M unit :=
  fun w =>
    let s := resolve (cwd w) src in
    let d := resolve (cwd w) dst in
    let w1 := emit (Copy s d) w in
    match stat (fs w) s with
    | None => (Throw "ENOENT", w1)
    | Some (File c) =>
        if decide (s = d) then
          (Throw "Source and destination must not be the same.", w1)
        else
          match stat (fs w) d with
          | Some Dir =>
              (Throw "Cannot overwrite directory with non-directory", w1)
          | _ =>
              match mkdirp (fs w) (removelast d) with
              | Some f => (Ok tt, set_fs w1 (<[d := File c]> f))
              | None => (Throw "EEXIST", w1)
              end
          end
    | Some Dir =>
        if decide (s `prefix_of` d) then
          (Throw "Cannot copy to a subdirectory of itself", w1)
        else
          match stat (fs w) d with
          | Some (File _) =>
              (Throw "Cannot overwrite non-directory with directory", w1)
          | _ =>
              match mkdirp (fs w) (removelast d) with
              | Some f =>
                  let '(r, f') :=
                    copy_entries d (([], Dir) :: below s (fs w)) f in
                  (r, set_fs w1 f')
              | None => (Throw "EEXIST", w1)
              end
          end
    end.

(** [removeSync(p)] of [fs-extra], that is [rm -rf]: what is at [p] goes
    with everything below it, and nothing at [p] is no error. The root
    itself cannot be removed. The trace records how a workspace is built
    and has no event for a removal. *)
Definition removeSync (p : path) : M unit :=
  fun w =>
    let q := resolve (cwd w) p in
    let f := filter (fun e : list string * node => ¬ q `prefix_of` e.1)
               (fs w) in
    match q with
    | [] => (Throw "EBUSY", set_fs w f)
    | _ => (Ok tt, set_fs w f)
    end.

(** [emptyDirSync(p)] of [fs-extra]: the entries of a directory are
    removed and the directory stays; a path that cannot be listed is
    created as a directory, which fails when a file is there. *)
Definition emptyDirSync (p : path) : M unit :=
  fun w =>
    let q := resolve (cwd w) p in
    match stat (fs w) q with
    | Some Dir =>
        (Ok tt,
         set_fs w (filter (fun e : list string * node =>
                             ¬ (q `prefix_of` e.1 ∧ e.1 ≠ q)) (fs w)))
    | _ =>
        match mkdirp (fs w) q with
        | Some f => (Ok tt, set_fs w f)
        | None => (Throw "EEXIST", w)
        end
    end.

(** *** [process] and [child_process] *)

Definition process_chdir (p : path) : M unit :=
  fun w =>
    let q := resolve (cwd w) p in
    let w1 := emit (Chdir q) w in
    match stat (fs w) q with
    | Some Dir => (Ok tt, set_cwd w1 q)
    | Some (File _) => (Throw "ENOTDIR", w1)
    | None => (Throw "ENOENT", w1)
    end.

(** [process.cwd()]: the text of the working directory; it fails when
    the directory is gone. *)
Definition process_cwd : M string :=
  fun w =>
    match stat (fs w) (cwd w) with
    | Some Dir => (Ok (show_path {| absolute := true; comps := cwd w |}), w)
    | _ => (Throw "ENOENT", w)
    end.

Section external.
(** What running a command in a directory does to the file system and
    prints on its standard output; [None] when it cannot be started or
    exits with a nonzero status. *)
Variable sh : string → list string → FS → option (string * FS).

(** [execSync(cmd, { cwd })] *)
Definition execSync (cmd : string) (dir : option path) : M string :=
  fun w =>
    let d := match dir with
             | Some p => resolve (cwd w) p
             | None => cwd w
             end in
    let w1 := emit (Exec cmd d) w in
    match stat (fs w) d with
    | Some Dir =>
        match sh cmd d (fs w) with
        | Some (out, f) => (Ok out, set_fs w1 f)
        | None => (Throw "Command failed", w1)
        end
    | _ => (Throw "ENOENT", w1)
    end.

(** The answer to a prompt: the index of the chosen entry; an index
    that is out of range stands for an aborted prompt. *)
Variable pick : string → nat.

(** [select({ message, choices })] of [@inquirer/prompts] *)
Definition select (message : string) (choices : list (string * string))
  : M string :=
  fun w =>
    let w1 := emit (Prompt message) w in
    match choices !! pick message with
    | Some (_, v) => (Ok v, w1)
    | None => (Throw "ExitPromptError", w1)
    end.
End external.

End Node.

(** ** [src/utils/index.ts] *)

Module Utils.
Import Text Json Node.
Local Open Scope js_scope.

Inductive Repo := apps | packages.

Definition repo_dir (r : Repo) : string :=
  match r with apps => "apps" | packages => "packages" end.

Definition copyCliPackageTemplate
    (templateType packageName monorepoRoot : string) (repo : Repo)
    (cliRoot : string) : M unit :=
  let templateDir := path_join (cliRoot, "templates", templateType) in
  let targetDir := path_join (monorepoRoot, repo_dir repo, packageName) in
  console_log ("📂 Template Source (CLI Program): " +:+ show_path templateDir);;
  console_log ("📂 Target Destination (Monorepo): " +:+ show_path targetDir);;
  found <- existsSync templateDir;;
  if negb found then
    console_error ("❌ Template directory not found: " +:+ show_path templateDir)
  else
    ensureDirSync targetDir;;
    copySync templateDir targetDir;;
    console_log ("✅ CLI package '" +:+ packageName +:+ "' created from '"
                 +:+ templateType +:+ "' template.").

Definition removeGitDirectory (appDir name : string) : M unit :=
  let gitDir := path_join (appDir, ".git") in
  found <- existsSync gitDir;;
  if found then
    console_log ("Removing .git directory from " +:+ name +:+ " app...");;
    removeSync gitDir
  else ret tt.

Definition writeFile (filePath : path) (content : string) : M unit :=
  mkdirSync (path_dirname filePath) true;;
  writeFileSync filePath (trim content).

Definition writeJsonFile (filePath : path) (data : json) : M unit :=
  writeFile filePath (JSON_stringify data 2).

Definition createDirIfNotExists (dirPath : path) : M unit :=
  found <- existsSync dirPath;;
  if negb found then mkdirSync dirPath true else ret tt.

Definition fileExists (filePath : path) : M bool := existsSync filePath.

Definition clearDirectory (dirPath : path) : M unit :=
  found <- existsSync dirPath;;
  if found then emptyDirSync dirPath else ret tt.

Definition readJsonFile (filePath : path) : M json :=
  found <- existsSync filePath;;
  if negb found then throw ("File not found: " +:+ show_path filePath)
  else
    text <- readFileSync filePath;;
    match JSON_parse text with
    | Some v => ret v
    | None => throw "SyntaxError"
    end.

Definition updateJsonFile (filePath : path) (newData : json) : M unit :=
  found <- fileExists filePath;;
  currentData <- (if found then readJsonFile filePath else ret (JObj []));;
  let mergedData := spread currentData newData in
  writeJsonFile filePath mergedData.

Definition logWithColor (message : string) (color : string → string)
  : M unit :=
  console_log (color message).

Section external.
Variable sh : string → list string → FS → option (string * FS).

Definition getPnpmVersion : M string :=
  try_catch
    (out <- execSync sh "pnpm --version" None;; ret (trim out))
    (console_warn "Could not determine pnpm version. Using default.";;
     ret "9.15.4").

(** [runCommand(command, { cwd })]. The directory is announced as
    [options.cwd || process.cwd()]: a missing or empty [cwd] gives the
    working directory. *)
Definition runCommand (command : string) (dir : option string) : M unit :=
  place <- match dir with
           | Some d => if decide (d = EmptyString) then process_cwd else ret d
           | None => process_cwd
           end;;
  console_log ("Executing: " +:+ command +:+ " in " +:+ place);;
  _ <- execSync sh command (path_of <$> dir);;
  ret tt.

(** [runCommandWithResult(command, { cwd })] *)
Definition runCommandWithResult (command : string) (dir : option string)
  : M string :=
  out <- execSync sh command (path_of <$> dir);;
  ret (trim out).
End external.

End Utils.

(** ** [src/index.ts] *)

Module Cli.
Import Text Json Node.
Local Open Scope js_scope.

(** *** The files the generator writes *)

Definition workspaceYaml : string :=
  "packages:
  - "
  +:+ dq
  +:+ "apps/*"
  +:+ dq
  +:+ "
  - "
  +:+ dq
  +:+ "packages/*"
  +:+ dq
  +:+ "
".

Definition packageTsupConfig : string :=
  "
import { defineConfig } from "
  +:+ dq
  +:+ "tsup"
  +:+ dq
  +:+ ";

export default defineConfig({
  entry: ["
  +:+ dq
  +:+ "src/index.ts"
  +:+ dq
  +:+ "],
  format: ["
  +:+ dq
  +:+ "esm"
  +:+ dq
  +:+ "],
  splitting: false,
  sourcemap: true,
  clean: true,
});
".

Definition dockerComposeConfig (appName : string) : string :=
  "
services:
  postgres:
    image: postgres:16
    environment:
      POSTGRES_USER: postgres
      POSTGRES_PASSWORD: postgres
      POSTGRES_DB: "
  +:+ replace_all "-" "_" appName
  +:+ "_dev
    ports:
      - "
  +:+ dq
  +:+ "5432:5432"
  +:+ dq
  +:+ "
    volumes:
      - /var/lib/postgresql/data

  redis:
    image: redis:6.2-alpine
    ports:
      - "
  +:+ dq
  +:+ "6379:6379"
  +:+ dq
  +:+ "
".

Definition gitignoreContent : string :=
  "
# Dependencies
node_modules

# Builds
.next/
dist/

# Misc
.DS_Store
*.pem

# Debug
npm-debug.log*
yarn-debug.log*
yarn-error.log*

# Local env files
.env*.local

# Turbo
.turbo
".

Definition schemaPrisma : string :=
  "
// This is your Prisma schema file,
// learn more about it in the docs: https://pris.ly/d/prisma-schema

generator client {
  provider = "
  +:+ dq
  +:+ "prisma-client-js"
  +:+ dq
  +:+ "
}

datasource db {
  provider = "
  +:+ dq
  +:+ "postgresql"
  +:+ dq
  +:+ "
  url      = env("
  +:+ dq
  +:+ "DATABASE_URL"
  +:+ dq
  +:+ ")
}

model Post {
  id        String   @id @db.VarChar(12)
  userId    String   @db.VarChar(12)
  user      User     @relation(fields: [userId], references: [id])
  content   String   @db.VarChar(240)
  createdAt DateTime @default(now()) @map("
  +:+ dq
  +:+ "created_at"
  +:+ dq
  +:+ ")
  updatedAt DateTime @default(now()) @updatedAt @map("
  +:+ dq
  +:+ "updated_at"
  +:+ dq
  +:+ ")

  @@map("
  +:+ dq
  +:+ "posts"
  +:+ dq
  +:+ ")
}

model User {
  id        String   @id @db.VarChar(12)
  username  String   @unique @db.VarChar(32)
  name      String   @db.VarChar(32)
  createdAt DateTime @default(now()) @map("
  +:+ dq
  +:+ "created_at"
  +:+ dq
  +:+ ")
  updatedAt DateTime @default(now()) @updatedAt @map("
  +:+ dq
  +:+ "updated_at"
  +:+ dq
  +:+ ")

  posts Post[]

  @@map("
  +:+ dq
  +:+ "users"
  +:+ dq
  +:+ ")
}
".

Definition dbUtilTs : string :=
  "
import { customAlphabet } from "
  +:+ dq
  +:+ "nanoid"
  +:+ dq
  +:+ ";

export const genId = customAlphabet(
  "
  +:+ dq
  +:+ "0123456789ABCDEFGHIJKLMNOPQRSTUVWXYZabcdefghijklmnopqrstuvwxyz"
  +:+ dq
  +:+ ",
  12
);
".

Definition dbIndexTs : string :=
  "
export { Prisma, PrismaClient } from "
  +:+ dq
  +:+ "@prisma/client"
  +:+ dq
  +:+ ";
export type { Post as PostEntity, User as UserEntity } from "
  +:+ dq
  +:+ "@prisma/client"
  +:+ dq
  +:+ ";
export { db } from "
  +:+ dq
  +:+ "./db"
  +:+ dq
  +:+ ";
export { genId } from "
  +:+ dq
  +:+ "./util"
  +:+ dq
  +:+ ";
".

Definition dbDbTs : string :=
  "
import { PrismaClient } from "
  +:+ dq
  +:+ "@prisma/client"
  +:+ dq
  +:+ ";

declare global {
  var prisma: PrismaClient | undefined;
}

let db: PrismaClient;

const isServer =
  typeof process !== "
  +:+ dq
  +:+ "undefined"
  +:+ dq
  +:+ " && process.versions && process.versions.node;
if (isServer) {
  if (process.env.NODE_ENV === "
  +:+ dq
  +:+ "production"
  +:+ dq
  +:+ ") {
    db = new PrismaClient();
  } else {
    if (!global.prisma) {
      global.prisma = new PrismaClient({
        log: ["
  +:+ dq
  +:+ "query"
  +:+ dq
  +:+ ", "
  +:+ dq
  +:+ "info"
  +:+ dq
  +:+ ", "
  +:+ dq
  +:+ "warn"
  +:+ dq
  +:+ ", "
  +:+ dq
  +:+ "error"
  +:+ dq
  +:+ "],
      });
    }
    db = global.prisma;
  }
}

export { db };
".

Definition queueIndexTs : string :=
  "
import { Queue, QueueEvents } from "
  +:+ dq
  +:+ "bullmq"
  +:+ dq
  +:+ ";
import Redis from "
  +:+ dq
  +:+ "ioredis"
  +:+ dq
  +:+ ";

const REDIS_URL = process.env.REDIS_URL || "
  +:+ dq
  +:+ "redis://localhost:6379"
  +:+ dq
  +:+ ";
export const redis = new Redis(REDIS_URL, { maxRetriesPerRequest: null });

export const QUEUE_NAME = "
  +:+ dq
  +:+ "queue"
  +:+ dq
  +:+ ";
export const queue = new Queue(QUEUE_NAME, { connection: redis });

export enum JobType {
  GeneratePosts = "
  +:+ dq
  +:+ "generate-posts"
  +:+ dq
  +:+ ",
}

export type JobData = {
  [JobType.GeneratePosts]: { count: number };
};

export async function enqueue<T extends JobType>(type: T, data: JobData[T]) {
  return queue.add(type, data);
}

const queueEvents = new QueueEvents(QUEUE_NAME);
export async function enqueueAndWait<T extends JobType>(
  type: T,
  data: JobData[T]
) {
  const job = await enqueue(type, data);
  await job.waitUntilFinished(queueEvents);
  return job;
}
".

Definition appTsupConfig : string :=
  "
import { defineConfig } from "
  +:+ dq
  +:+ "tsup"
  +:+ dq
  +:+ ";

export default defineConfig({
  entry: ["
  +:+ dq
  +:+ "src/index.ts"
  +:+ dq
  +:+ "],
  format: ["
  +:+ dq
  +:+ "esm"
  +:+ dq
  +:+ "],
  splitting: false,
  sourcemap: true,
});
".

Definition appIndexTs : string :=
  "console.log("
  +:+ dq
  +:+ "Hello, World!"
  +:+ dq
  +:+ ");".


Definition str_props (l : list (string * string)) : list (string * json) :=
  (fun kv => (kv.1, JStr kv.2)) <$> l.

(** [{ ...base, ...extra }] where [extra] may be [undefined]. *)
Definition spread_optional (base : json) (extra : option json) : json :=
  match extra with
  | Some o => spread base o
  | None => spread base (JObj [])
  end.

Record PackageOptions := { scripts : option (list (string * json)) }.

Section external.
Variable sh : string → list string → FS → option (string * FS).
(** [prettier.format(text, { parser: "json" })] *)
Variable prettier_json : string → string.
Variable pick : string → nat.

Definition getPnpmVersion : M string :=
  try_catch
    (out <- execSync sh "pnpm --version" None;; ret (trim out))
    (console_warn "Could not determine pnpm version. Using default.";;
     ret "9.7.0").

Definition createPackage (packageName : string)
    (files : list (string * string)) (options : option PackageOptions)
  : M unit :=
  let packageDir := path_join ("packages", packageName) in
  mkdirSync packageDir true;;
  mkdirSync (path_join (packageDir, "src")) false;;
  let packageJson := JObj [
    ("name", JStr ("@repo/" +:+ packageName));
    ("private", JBool true);
    ("type", JStr "module");
    ("exports", JObj [
      (".", JObj [
        ("types", JStr "./src/index.ts");
        ("default", JStr "./dist/index.js")])]);
    ("scripts",
      spread_optional
        (JObj [
          ("build", JStr "tsup --clean");
          ("check-types", JStr "tsc --noEmit");
          ("dev", JStr "tsup --watch")])
        (JObj <$> (options ≫= scripts)))] in
  writeFileSync (path_join (packageDir, "package.json"))
    (JSON_stringify packageJson 2);;
  let tsConfig := JObj [
    ("extends", JStr "@repo/typescript-config/base.json");
    ("compilerOptions", JObj [("outDir", JStr "./dist")]);
    ("include", JArr [JStr "src/**/*"]);
    ("exclude", JArr [JStr "node_modules"])] in
  writeFileSync (path_join (packageDir, "tsconfig.json"))
    (JSON_stringify tsConfig 2);;
  writeFileSync (path_join (packageDir, "tsup.config.ts")) packageTsupConfig;;
  forEach files (fun entry =>
    let fullPath := path_join (packageDir, path_of entry.1) in
    mkdirSync (path_dirname fullPath) true;;
    writeFileSync fullPath entry.2);;
  console_log ("Installing dependencies for " +:+ packageName
               +:+ " package...");;
  _ <- execSync sh
         "pnpm add -D tsup typescript @repo/typescript-config@workspace:*"
         (Some packageDir);;
  ret tt.

Definition dbFiles : list (string * string) :=
  [("prisma/schema.prisma", schemaPrisma);
   ("src/util.ts", dbUtilTs);
   ("src/index.ts", dbIndexTs);
   ("src/db.ts", dbDbTs)].

Definition dbOptions : PackageOptions :=
  {| scripts := Some (str_props [
       ("build", "pnpm build:prisma && tsup --clean");
       ("build:prisma", "prisma generate");
       ("check-types", "tsc --noEmit");
       ("dev", "tsup --watch");
       ("migrate", "prisma migrate");
       ("push", "prisma db push")]) |}.

Definition queueFiles : list (string * string) :=
  [("src/index.ts", queueIndexTs)].

Definition turboConfig : json := JObj [
  ("$schema", JStr "https://turbo.build/schema.json");
  ("ui", JStr "tui");
  ("tasks", JObj [
    ("build", JObj [
      ("dependsOn", JArr [JStr "^build"]);
      ("inputs", JArr [JStr "$TURBO_DEFAULT$"; JStr ".env*"]);
      ("outputs", JArr [JStr ".next/**"; JStr "!.next/cache/**";
                        JStr "dist/**"])]);
    ("check-types", JObj [("dependsOn", JArr [JStr "^check-types"])]);
    ("dev", JObj [("cache", JBool false); ("persistent", JBool true)]);
    ("test", JObj [("cache", JBool false); ("persistent", JBool true)])])].

Definition rootPackageJson (appName pnpmVersion : string) : json := JObj [
  ("name", JStr appName);
  ("private", JBool true);
  ("packageManager", JStr ("pnpm@" +:+ pnpmVersion));
  ("scripts", JObj (str_props [
    ("build", "turbo run build");
    ("dev", "turbo run dev");
    ("lint", "turbo run lint");
    ("check-types", "turbo run check-types");
    ("test", "turbo run test")]));
  ("devDependencies", JObj [("turbo", JStr "latest")])].

Definition initializeMonorepo (appName : string) : M unit :=
  (* Create root directory *)
  mkdirSync appName false;;
  process_chdir appName;;
  (* Initialize pnpm workspace *)
  writeFileSync "pnpm-workspace.yaml" workspaceYaml;;
  (* Create apps and packages directories *)
  mkdirSync "apps" false;;
  mkdirSync "packages" false;;
  (* Initialize package.json *)
  pnpmVersion <- getPnpmVersion;;
  let packageJson := rootPackageJson appName pnpmVersion in
  writeFileSync "package.json" (JSON_stringify packageJson 2);;
  (* Install @types/node *)
  console_log "Installing @types/node...";;
  _ <- execSync sh "pnpm add -w -D @types/node" None;;
  (* Create turbo.json *)
  let formattedTurboConfig :=
    prettier_json (JSON_stringify turboConfig 0) in
  writeFileSync "turbo.json" formattedTurboConfig;;
  (* Initialize TypeScript config *)
  mkdirSync "packages/typescript-config" true;;
  let tsConfigPackageJson := JObj [
    ("name", JStr "@repo/typescript-config");
    ("version", JStr "1.0.0");
    ("private", JBool true);
    ("license", JStr "MIT");
    ("publishConfig", JObj [("access", JStr "public")])] in
  writeFileSync "packages/typescript-config/package.json"
    (JSON_stringify tsConfigPackageJson 2);;
  console_log "Installing latest @tsconfig/node20...";;
  _ <- execSync sh "pnpm add -D @tsconfig/node20"
         (Some (path_of "packages/typescript-config"));;
  let tsConfigBase := JObj [
    ("$schema", JStr "https://json.schemastore.org/tsconfig");
    ("extends", JStr "@tsconfig/node20/tsconfig.json");
    ("compilerOptions", JObj [
      ("module", JStr "ESNext");
      ("moduleResolution", JStr "Bundler")])] in
  writeFileSync "packages/typescript-config/base.json"
    (JSON_stringify tsConfigBase 2);;
  (* Initialize Docker Compose config *)
  mkdirSync "packages/docker-dev" false;;
  writeFileSync "packages/docker-dev/compose.yml"
    (dockerComposeConfig appName);;
  let dockerDevPackageJson := JObj [
    ("name", JStr "@repo/docker-dev");
    ("private", JBool true);
    ("scripts", JObj (str_props [
      ("dev", "docker compose up");
      ("db:reset",
       "docker compose rm --force --stop postgres && docker compose up -d")]));
    ("devDependencies", JObj [("typescript", JStr "^5.5.4")])] in
  writeFileSync "packages/docker-dev/package.json"
    (JSON_stringify dockerDevPackageJson 2);;
  (* Create .gitignore file *)
  writeFileSync ".gitignore" (trim gitignoreContent);;
  (* Install dependencies *)
  console_log "Installing dependencies...";;
  _ <- execSync sh "pnpm install" None;;
  (* Initialize db package *)
  createPackage "db" dbFiles (Some dbOptions);;
  console_log "Installing additional dependencies for db package...";;
  let dbDir := path_join ("packages", "db") in
  _ <- execSync sh "pnpm add @prisma/client nanoid" (Some dbDir);;
  _ <- execSync sh "pnpm add -D prisma" (Some dbDir);;
  createPackage "queue" queueFiles None;;
  console_log "Installing additional dependencies for queue package...";;
  _ <- execSync sh "pnpm add bullmq ioredis"
         (Some (path_join ("packages", "queue")));;
  console_log ("Monorepo " +:+ appName +:+ " initialized successfully!").

(** [!type] *)
Definition missing (type : option string) : bool :=
  match type with
  | None => true
  | Some t => bool_decide (t = EmptyString)
  end.

Definition initializeApp (name : string) (type : option string) : M unit :=
  type <- (if missing type then
             select pick "What type of app do you want to create?"
               [("Next.js", "next"); ("Node.js", "node")]
           else ret (default EmptyString type));;
  let appDir := path_join ("apps", name) in
  mkdirSync appDir true;;
  (if decide (type = "next") then
     _ <- execSync sh
            ("npx create-next-app@latest " +:+ show_path appDir
             +:+ " --typescript --eslint --use-pnpm") None;;
     (* Install db package for Next.js apps *)
     console_log "Installing @repo/db package...";;
     _ <- execSync sh "pnpm add @repo/db@workspace:*" (Some appDir);;
     ret tt
   else if decide (type = "node") then
     (* Initialize Node.js app *)
     let packageJson := JObj [
       ("name", JStr ("@repo/" +:+ name));
       ("private", JBool true);
       ("type", JStr "module");
       ("scripts", JObj (str_props [
         ("build", "tsup --clean");
         ("check-types", "tsc --noEmit");
         ("dev", "tsup --watch --onSuccess 'pnpm start'");
         ("start", "node dist/index.js")]))] in
     writeFileSync (path_join (appDir, "package.json"))
       (JSON_stringify packageJson 2);;
     (* Create tsup.config.ts *)
     writeFileSync (path_join (appDir, "tsup.config.ts")) appTsupConfig;;
     (* Create tsconfig.json *)
     let tsConfig :=
       JObj [("extends", JStr "@repo/typescript-config/base.json")] in
     writeFileSync (path_join (appDir, "tsconfig.json"))
       (JSON_stringify tsConfig 2);;
     (* Create src/index.ts *)
     mkdirSync (path_join (appDir, "src")) false;;
     writeFileSync (path_join (appDir, "src", "index.ts")) appIndexTs;;
     (* Install dependencies including latest tsup and typescript *)
     console_log "Installing dependencies for the Node.js app...";;
     _ <- execSync sh "pnpm add @repo/typescript-config@workspace:*"
            (Some appDir);;
     _ <- execSync sh "pnpm add -D tsup typescript" (Some appDir);;
     ret tt
   else ret tt);;
  console_log ("App " +:+ name +:+ " initialized successfully!").

(** The options [commander] passes to the action of [app <name>]. *)
Record AppOptions := { next : bool; node : bool }.

(** [--next --node] and [--node]. *)
Definition both_flags : AppOptions := {| next := true; node := true |}.
Definition node_flag : AppOptions := {| next := false; node := true |}.

Definition app_action (name : string) (options : AppOptions) : M unit :=
  let type := if next options then Some "next"
              else if node options then Some "node" else None in
  initializeApp name type.
End external.

End Cli.

(** ** Vocabulary of the specification *)

Module Spec.
Import Text Json Node.

(** The events a run adds to the trace. *)
Definition new_events (w w' : World) : list event :=
  drop (length (trace w)) (trace w').

(** *** Writing a file *)

(** [writeFile] can write [p]: [p] names something, no file is on the
    way to it, and it is not a directory. *)
Definition writable (w : World) (p : path) : Prop :=
  comps p ≠ []
  ∧ is_Some (mkdirp (fs w) (removelast (resolve (cwd w) p)))
  ∧ fs w !! resolve (cwd w) p ≠ Some Dir.

(** No file or directory is at [p]. *)
Definition absent (w : World) (p : path) : Prop :=
  fs w !! resolve (cwd w) p = None.

(** The JSON value stored in the file at [q]. *)
Definition read_json (f : FS) (q : list string) : option json :=
  match f !! q with
  | Some (File c) => JSON_parse c
  | _ => None
  end.

(** What [updateJsonFile] takes as the current data at [p]: the value
    stored there, or the empty object when nothing is at [p]. *)
Definition current_data (w : World) (p : path) (cur : json) : Prop :=
  (absent w p ∧ cur = JObj [])
  ∨ read_json (fs w) (resolve (cwd w) p) = Some cur.

(** *** The version command *)

(** What [pnpm --version] gives when started in the working directory. *)
Definition version_command
    (sh : string → list string → FS → option (string * FS)) (w : World)
  : option (string * FS) :=
  match stat (fs w) (cwd w) with
  | Some Dir => sh "pnpm --version" (cwd w) (fs w)
  | _ => None
  end.

(** The file system in which [init <name>] asks for the version: the
    one it was started in, with the new directory [root], the workspace
    file and the two directories [apps] and [packages]. *)
Definition at_detection (f : FS) (root : list string) : FS :=
  <[root ++ ["packages"] := Dir]>
    (<[root ++ ["apps"] := Dir]>
       (<[root ++ ["pnpm-workspace.yaml"] := File Cli.workspaceYaml]>
          (<[root := Dir]> f))).

(** The version [init <name>] detects, started on the file system [f]:
    what [pnpm --version] prints in the new directory [root] at that
    moment, without the white space around it, or the fallback of
    [src/index.ts] when the command fails. *)
Definition detected_version
    (sh : string → list string → FS → option (string * FS))
    (root : list string) (f : FS) : string :=
  match sh "pnpm --version" root (at_detection f root) with
  | Some (out, _) => trim out
  | None => "9.7.0"
  end.

(** *** External tools *)

(** The sections of a manifest the package manager edits. *)
Definition dependency_fields : list string :=
  ["dependencies"; "devDependencies"; "peerDependencies";
   "optionalDependencies"].

(** [c'] is the manifest [c] with only dependency sections changed. *)
Definition manifest_update (c c' : string) : Prop :=
  ∀ o, JSON_parse c = Some (JObj o) →
    ∃ o', JSON_parse c' = Some (JObj o')
          ∧ ∀ k, k ∉ dependency_fields → obj_get k o' = obj_get k o.

Definition is_manifest (q : list string) : Prop :=
  last q = Some "package.json".

(** The file at [q] survives from [f] to [f']: with its content, or, for
    a manifest, with its dependency sections edited. *)
Definition kept (q : list string) (f f' : FS) : Prop :=
  ∀ c, f !! q = Some (File c) →
    ∃ c', f' !! q = Some (File c')
          ∧ (c' = c ∨ (is_manifest q ∧ manifest_update c c')).

(** The formatter keeps the value its input denotes. *)
Definition formatter_ok (prettier_json : string → string) : Prop :=
  ∀ s v, JSON_parse s = Some v → JSON_parse (prettier_json s) = Some v.

(** *** The steps of a run *)

(** A call that changes the file system, starts a process or asks the
    user: an event without its text. *)
Inductive step :=
| SMkdir (p : list string)
| SWrite (p : list string)
| SCopy (src dst : list string)
| SChdir (p : list string)
| SExec (cmd : string) (dir : list string)
| SPrompt.

Definition step_of (e : event) : option step :=
  match e with
  | Mkdir p => Some (SMkdir p)
  | WriteFile p _ => Some (SWrite p)
  | Copy s d => Some (SCopy s d)
  | Chdir p => Some (SChdir p)
  | Exec cmd d => Some (SExec cmd d)
  | Prompt _ => Some SPrompt
  | Log _ | Warn _ | Error _ => None
  end.

Definition steps (tr : list event) : list step := omap step_of tr.

(** The directory a step works in or on. *)
Definition step_place (s : step) : option (list string) :=
  match s with
  | SMkdir p | SWrite p | SChdir p => Some p
  | SCopy _ d => Some d
  | SExec _ d => Some d
  | SPrompt => None
  end.

(** [s] is a step of the package unit [unit] of the workspace at [root]:
    it works inside [root/packages/unit]. *)
Definition unit_step (root : list string) (unit : string) (s : step) : Prop :=
  ∃ p, step_place s = Some p ∧ (root ++ ["packages"; unit]) `prefix_of` p.

(** The realization of a package unit by [createPackage]: directories,
    manifest, configuration, source files and the dependency install. *)
Definition package_steps (root : list string) (unit : string)
    (files : list (list string)) : list step :=
  let at_ := fun rel => root ++ ["packages"; unit] ++ rel in
  [SMkdir (at_ []); SMkdir (at_ ["src"]);
   SWrite (at_ ["package.json"]); SWrite (at_ ["tsconfig.json"]);
   SWrite (at_ ["tsup.config.ts"])]
  ++ concat ((fun f => [SMkdir (at_ (removelast f)); SWrite (at_ f)])
               <$> files)
  ++ [SExec "pnpm add -D tsup typescript @repo/typescript-config@workspace:*"
        (at_ [])].

(** The data-access unit, fully realized. *)
Definition db_steps (root : list string) : list step :=
  package_steps root "db"
    [["prisma"; "schema.prisma"]; ["src"; "util.ts"]; ["src"; "index.ts"];
     ["src"; "db.ts"]]
  ++ [SExec "pnpm add @prisma/client nanoid" (root ++ ["packages"; "db"]);
      SExec "pnpm add -D prisma" (root ++ ["packages"; "db"])].

(** The task-queue unit, fully realized. *)
Definition queue_steps (root : list string) : list step :=
  package_steps root "queue" [["src"; "index.ts"]]
  ++ [SExec "pnpm add bullmq ioredis" (root ++ ["packages"; "queue"])].

(** The steps of [init] before the package units. *)
Definition workspace_steps (root : list string) : list step :=
  [SMkdir root; SChdir root;
   SWrite (root ++ ["pnpm-workspace.yaml"]);
   SMkdir (root ++ ["apps"]); SMkdir (root ++ ["packages"]);
   SExec "pnpm --version" root;
   SWrite (root ++ ["package.json"]);
   SExec "pnpm add -w -D @types/node" root;
   SWrite (root ++ ["turbo.json"]);
   SMkdir (root ++ ["packages"; "typescript-config"]);
   SWrite (root ++ ["packages"; "typescript-config"; "package.json"]);
   SExec "pnpm add -D @tsconfig/node20"
     (root ++ ["packages"; "typescript-config"]);
   SWrite (root ++ ["packages"; "typescript-config"; "base.json"]);
   SMkdir (root ++ ["packages"; "docker-dev"]);
   SWrite (root ++ ["packages"; "docker-dev"; "compose.yml"]);
   SWrite (root ++ ["packages"; "docker-dev"; "package.json"]);
   SWrite (root ++ [".gitignore"]);
   SExec "pnpm install" root].

(** The steps of [init], in the order of the code. *)
Definition init_steps (root : list string) : list step :=
  workspace_steps root ++ db_steps root ++ queue_steps root.

(** The commands among the steps [l] keep the file at [q]: when one of
    them, started in the directory of its step, succeeds, the file is
    still there, with its content or, for a manifest, with its
    dependency sections edited. Nothing is asked of other commands, of
    other directories or of other files: a command may write a lock
    file, install modules or generate code. *)
Definition commands_keep
    (sh : string → list string → FS → option (string * FS))
    (l : list step) (q : list string) : Prop :=
  ∀ cmd d f out f',
    SExec cmd d ∈ l → sh cmd d f = Some (out, f') → kept q f f'.

(** The steps of [app <name>] for the Next.js variant. *)
Definition next_steps (base : list string) (name : string) : list step :=
  let appDir := path_join ("apps", name) in
  [SMkdir (resolve base appDir);
   SExec ("npx create-next-app@latest " +:+ show_path appDir
          +:+ " --typescript --eslint --use-pnpm") base;
   SExec "pnpm add @repo/db@workspace:*" (resolve base appDir)].

(** *** Reasoning about runs *)

(** Started in directory [before], [c] issues the steps [l] in this
    order and, when it returns, leaves the working directory [after];
    when it throws, it has issued the first steps of [l] only. *)
Definition runs_script {A} (before after : list string) (c : M A)
    (l : list step) : Prop :=
  ∀ w r w', cwd w = before → c w = (r, w') →
    ∃ evs, trace w' = trace w ++ evs
           ∧ match r with
             | Ok _ => cwd w' = after ∧ steps evs = l
             | Throw _ => steps evs `prefix_of` l
             end.

(** Started in directory [root], [c] stays there and the file at [q]
    survives it. *)
Definition keeps {A} (root q : list string) (c : M A) : Prop :=
  ∀ w r w', cwd w = root → c w = (r, w') →
    cwd w' = root ∧ kept q (fs w) (fs w').

(** [v.k1.k2...] *)
Fixpoint field_path (ks : list string) (v : json) : option json :=
  match ks with
  | [] => Some v
  | k :: r =>
      match field k v with
      | Some x => field_path r x
      | None => None
      end
  end.

(** A file is at [q] and its content satisfies [P]. *)
Definition file_with (q : list string) (P : string → Prop) (f : FS) : Prop :=
  ∃ c, f !! q = Some (File c) ∧ P c.

(** [P] survives the edits a tool may make to the file at [q]. *)
Definition robust (q : list string) (P : string → Prop) : Prop :=
  ∀ c c', P c → is_manifest q → manifest_update c c' → P c'.

(** The text [c] is a JSON object whose property [k] is [v]. *)
Definition has_field (k : string) (v : json) (c : string) : Prop :=
  ∃ o, JSON_parse c = Some (JObj o) ∧ obj_get k o = Some v.

(** Started in [before], when [c] returns the working directory is
    [after] and the result satisfies [Q]. *)
Definition returns {A} (before after : list string) (c : M A)
    (Q : A → Prop) : Prop :=
  ∀ w a w', cwd w = before → c w = (Ok a, w') → cwd w' = after ∧ Q a.

(** Started in [before], when [c] returns the working directory is
    [after] and a file with [P] is at [q]. *)
Definition establishes {A} (before after q : list string)
    (P : string → Prop) (c : M A) : Prop :=
  ∀ w a w', cwd w = before → c w = (Ok a, w') →
    cwd w' = after ∧ file_with q P (fs w').

(** [mkdir -p] finds no file on the way from [base] down [todo]. *)
Definition clear_way (f : FS) (base todo : list string) : Prop :=
  ∀ q c, q `prefix_of` todo → q ≠ [] → f !! (base ++ q) ≠ Some (File c).

(** *** Trees and confinement *)

(** The file system is a tree: every entry lies in a directory. *)
Definition tree (f : FS) : Prop :=
  map_Forall (fun q _ => q ≠ [] ∧ stat f (removelast q) = Some Dir) f.

(** [s] works at or below the directory [root]. *)
Definition inside (root : list string) (s : step) : Prop :=
  ∃ p, step_place s = Some p ∧ root `prefix_of` p.

(** The steps of [app <name>] for the Node.js variant. *)
Definition node_steps (base : list string) (name : string) : list step :=
  let appDir := path_join ("apps", name) in
  [SMkdir (resolve base appDir);
   SWrite (resolve base (path_join (appDir, "package.json")));
   SWrite (resolve base (path_join (appDir, "tsup.config.ts")));
   SWrite (resolve base (path_join (appDir, "tsconfig.json")));
   SMkdir (resolve base (path_join (appDir, "src")));
   SWrite (resolve base (path_join (appDir, "src", "index.ts")));
   SExec "pnpm add @repo/typescript-config@workspace:*" (resolve base appDir);
   SExec "pnpm add -D tsup typescript" (resolve base appDir)].

End Spec.

(** ** Worlds and shells used as examples *)

Module Examples.
Import Text Json Node.

(** A world with a home directory, and a shell in which every command
    fails. *)
Definition home : World :=
  {| fs := {[ ["home"] := Dir ]}; cwd := ["home"]; trace := [] |}.

Definition no_shell (cmd : string) (d : list string) (f : FS)
  : option (string * FS) := None.

Definition sample : json :=
  JObj [("name", JStr (" padded " +:+ nl));
        ("tags", JArr [JNum (-7); JNull; JBool true; JStr dq]);
        ("nested", JObj [("k", JArr [])])].

(** A workspace with an unrelated file and a file of the template's name
    in the target, and a template of two files. *)
Definition with_template : World :=
  {| fs := list_to_map
       [(["opt"], Dir); (["opt"; "cli"], Dir);
        (["opt"; "cli"; "templates"], Dir);
        (["opt"; "cli"; "templates"; "db"], Dir);
        (["opt"; "cli"; "templates"; "db"; "index.ts"], File "export {};");
        (["opt"; "cli"; "templates"; "db"; "prisma"], Dir);
        (["opt"; "cli"; "templates"; "db"; "prisma"; "schema.prisma"],
         File "generator client {}");
        (["home"], Dir); (["home"; "demo"], Dir);
        (["home"; "demo"; "packages"], Dir);
        (["home"; "demo"; "packages"; "db"], Dir);
        (["home"; "demo"; "packages"; "db"; "index.ts"], File "old");
        (["home"; "demo"; "packages"; "db"; "notes.md"], File "keep me")];
     cwd := ["home"; "demo"]; trace := [] |}.

(** A shell in which every command succeeds and changes nothing; the
    version command prints a version and a line end. *)
Definition quiet_shell (cmd : string) (d : list string) (f : FS)
  : option (string * FS) :=
  Some (if decide (cmd = "pnpm --version") then "10.1.0" +:+ nl
        else EmptyString, f).

(** A shell like the package manager. The version command prints a
    version and a line end. Every other command succeeds, writes a lock
    file in its directory and, when the manifest of the directory holds
    an object that can be written back, records a dependency in it. *)
Definition pnpm_like (cmd : string) (d : list string) (f : FS)
  : option (string * FS) :=
  if decide (cmd = "pnpm --version") then Some ("10.1.0" +:+ nl, f)
  else
    let locked :=
      <[d ++ ["pnpm-lock.yaml"]
        := File ("lockfileVersion: '9.0'" +:+ nl)]> f in
    match f !! (d ++ ["package.json"]) with
    | Some (File c) =>
        match JSON_parse c with
        | Some (JObj o) =>
            let m :=
              JObj (obj_set "dependencies"
                      (JObj [("typescript", JStr "^5.5.4")]) o) in
            if serializable m then
              Some (EmptyString,
                    <[d ++ ["package.json"] := File (JSON_stringify m 2)]>
                      locked)
            else Some (EmptyString, locked)
        | _ => Some (EmptyString, locked)
        end
    | _ => Some (EmptyString, locked)
    end.

(** A cloned application: a source file and a [.git] directory. *)
Definition cloned : World :=
  {| fs := list_to_map
       [(["home"], Dir); (["home"; "web"], Dir);
        (["home"; "web"; "README.md"], File "# web");
        (["home"; "web"; ".git"], Dir);
        (["home"; "web"; ".git"; "HEAD"], File "ref: refs/heads/main");
        (["home"; "web"; ".git"; "objects"], Dir)];
     cwd := ["home"]; trace := [] |}.

End Examples.

(** * Facts *)

#[local] Arguments String.append !s1 s2 : simpl nomatch.

Module TextFacts.
Import Text.

Lemma append_assoc (a b c : string) : (a +:+ b) +:+ c = a +:+ (b +:+ c).
Proof. induction a as [|x a IH]; [done | cbn; by f_equal]. Qed.

Lemma append_nil_r (a : string) : a +:+ EmptyString = a.
Proof. induction a as [|x a IH]; [done | cbn; by f_equal]. Qed.

Lemma length_append (a b : string) :
  String.length (a +:+ b) = (String.length a + String.length b)%nat.
Proof. induction a as [|x a IH]; [done | cbn; by f_equal]. Qed.

Lemma rev_app_rev_app (s a b : string) :
  String.rev_app (String.rev_app s a) b = String.rev_app a (s +:+ b).
Proof.
  revert a b. induction s as [|x s IH]; intros a b; [done |].
  cbn. by rewrite IH.
Qed.

Lemma rev_involutive (s : string) : String.rev (String.rev s) = s.
Proof.
  unfold String.rev. rewrite rev_app_rev_app. simpl. apply append_nil_r.
Qed.

Lemma first_char_rev_app s acc :
  first_char (String.rev_app s acc)
  = match last_char s with Some d => Some d | None => first_char acc end.
Proof.
  revert acc. induction s as [|c s IH]; intros acc; [done |].
  cbn. rewrite IH. by destruct (last_char s).
Qed.

Lemma first_char_rev s : first_char (String.rev s) = last_char s.
Proof.
  unfold String.rev. rewrite first_char_rev_app. by destruct (last_char s).
Qed.

Lemma last_char_app a b :
  b ≠ EmptyString → last_char (a +:+ b) = last_char b.
Proof.
  intros Hb. induction a as [|c a IH]; [done |].
  cbn. rewrite IH. destruct b as [|x b]; [done |].
  cbn. by destruct (last_char b).
Qed.

Lemma append_nonempty_r a b : b ≠ EmptyString → a +:+ b ≠ EmptyString.
Proof. destruct a; [done |]. discriminate. Qed.

Lemma last_char_cons c r :
  r ≠ EmptyString → last_char (String c r) = last_char r.
Proof. intros H. exact (last_char_app (String c EmptyString) r H). Qed.

Lemma visible_not_blank c : visible c = true → blank c = false.
Proof.
  unfold visible, blank. intros H.
  apply andb_prop in H as [H1 H2].
  apply N.leb_le in H1. apply N.leb_le in H2.
  apply orb_false_intro.
  - apply andb_false_intro2. apply N.leb_gt. lia.
  - apply N.eqb_neq. lia.
Qed.

Lemma visible_range c : visible c = true → (33 ≤ code c ≤ 126)%N.
Proof.
  unfold visible. intros H. apply andb_prop in H as [H1 H2].
  apply N.leb_le in H1. apply N.leb_le in H2. lia.
Qed.

Lemma ws2_visible_l a b : visible a = true → ws2 a b = false.
Proof.
  intros H%visible_range. unfold ws2.
  apply andb_false_intro1. apply N.eqb_neq. lia.
Qed.

Lemma ws2_visible_r a b : visible b = true → ws2 a b = false.
Proof.
  intros H%visible_range. unfold ws2.
  apply andb_false_intro2. apply N.eqb_neq. lia.
Qed.

Ltac eqb_false := apply N.eqb_neq; lia.

Lemma ws3_visible_l a b c : visible a = true → ws3 a b c = false.
Proof.
  intros H%visible_range. unfold ws3. cbv zeta.
  replace (code a =? 225)%N with false by (symmetry; eqb_false).
  replace (code a =? 226)%N with false by (symmetry; eqb_false).
  replace (code a =? 227)%N with false by (symmetry; eqb_false).
  replace (code a =? 239)%N with false by (symmetry; eqb_false).
  reflexivity.
Qed.

Lemma ws3_visible_r a b c : visible c = true → ws3 a b c = false.
Proof.
  intros H%visible_range. unfold ws3. cbv zeta.
  replace (code c =? 128)%N with false by (symmetry; eqb_false).
  replace (code c =? 159)%N with false by (symmetry; eqb_false).
  replace (code c =? 191)%N with false by (symmetry; eqb_false).
  replace (code c =? 168)%N with false by (symmetry; eqb_false).
  replace (code c =? 169)%N with false by (symmetry; eqb_false).
  replace (code c =? 175)%N with false by (symmetry; eqb_false).
  replace (128 <=? code c)%N with false by (symmetry; apply N.leb_gt; lia).
  rewrite !andb_false_r. reflexivity.
Qed.

Lemma ws_width_visible c r : visible c = true → ws_width (String c r) = O.
Proof.
  intros H. simpl. rewrite (visible_not_blank _ H).
  destruct r as [|b r]; [done |]. rewrite (ws2_visible_l _ _ H).
  destruct r as [|d r]; [done |]. by rewrite (ws3_visible_l _ _ _ H).
Qed.

Lemma ws_suffix_width_visible c r :
  visible c = true → ws_suffix_width (String c r) = O.
Proof.
  intros H. simpl. rewrite (visible_not_blank _ H).
  destruct r as [|b r]; [done |]. rewrite (ws2_visible_r _ _ H).
  destruct r as [|d r]; [done |]. by rewrite (ws3_visible_r _ _ _ H).
Qed.

(** Text that starts and ends with a visible ASCII character is left
    as it is by [trim]. *)
Lemma trim_visible (s : string) c d :
  first_char s = Some c → visible c = true →
  last_char s = Some d → visible d = true →
  trim s = s.
Proof.
  intros Hc Hvc Hd Hvd. unfold trim.
  assert (trimStart s = s) as ->.
  { unfold trimStart. destruct s as [|x s]; [done |].
    simpl in Hc. injection Hc as ->.
    change (String.length (String c s)) with (S (String.length s)).
    cbn [trimStart_go]. by rewrite ws_width_visible. }
  unfold trimEnd. rewrite <- first_char_rev in Hd.
  destruct (String.rev s) as [|x r] eqn:E; [done |].
  simpl in Hd. injection Hd as ->.
  assert (trimEnd_go (String.length s) (String d r) = String d r) as ->.
  { destruct (String.length s); [done |].
    cbn [trimEnd_go]. by rewrite ws_suffix_width_visible. }
  rewrite <- E. apply rev_involutive.
Qed.

End TextFacts.

Module JsonFacts.
Import Text Json TextFacts.

Lemma json_ind' (P : json → Prop) :
  P JNull → (∀ b, P (JBool b)) → (∀ n, P (JNum n)) → (∀ s, P (JStr s)) →
  (∀ l, Forall P l → P (JArr l)) →
  (∀ l, Forall (fun kv => P kv.2) l → P (JObj l)) →
  ∀ v, P v.
Proof.
  intros Hnull Hbool Hnum Hstr Harr Hobj.
  fix IH 1. intros [| b | n | s | l | l].
  - exact Hnull.
  - apply Hbool.
  - apply Hnum.
  - apply Hstr.
  - apply Harr. induction l as [|x l IHl]; constructor; [apply IH | exact IHl].
  - apply Hobj.
    induction l as [|[k x] l IHl]; constructor; [apply IH | exact IHl].
Qed.

(** *** String literals *)

Lemma parse_chars_esc_char c t :
  parse_chars (esc_char c +:+ t) = prepend (String c EmptyString) (parse_chars t).
Proof.
  destruct c as [[] [] [] [] [] [] [] []]; reflexivity.
Qed.

Lemma parse_chars_escape s rest :
  parse_chars (escape s +:+ dq +:+ rest) = Some (s, rest).
Proof.
  induction s as [|c s IH]; [done |].
  cbn [escape]. rewrite append_assoc, parse_chars_esc_char, IH. done.
Qed.

(** *** White space *)

Lemma skip_ws_app w s : ws_only w → skip_ws (w +:+ s) = skip_ws s.
Proof.
  unfold ws_only. induction w as [|c w IH]; [done |].
  cbn. destruct (json_ws c); [auto | discriminate].
Qed.

Lemma ws_only_app a b : ws_only a → ws_only b → ws_only (a +:+ b).
Proof. intros Ha Hb. unfold ws_only. by rewrite skip_ws_app. Qed.

Lemma ws_only_nil : ws_only EmptyString.
Proof. done. Qed.

Lemma ws_only_nl : ws_only nl.
Proof. done. Qed.

Lemma ws_only_spaces n : ws_only (spaces n).
Proof. induction n; [done | exact IHn]. Qed.

Lemma ws_only_cons c w : ws_only (String c w) → json_ws c = true ∧ ws_only w.
Proof. unfold ws_only. cbn. destruct (json_ws c); [done | discriminate]. Qed.

Lemma parse_value_ws fuel w s :
  ws_only w → parse_value fuel (w +:+ s) = parse_value fuel s.
Proof. intros Hw. destruct fuel; [done |]. cbn. by rewrite skip_ws_app. Qed.

(** *** Numbers *)

Lemma all_num_uint d : all_num (NilEmpty.string_of_uint d).
Proof. induction d; cbn; constructor; done. Qed.

Lemma show_Z_all_num n : all_num (show_Z n).
Proof.
  unfold show_Z. destruct (Z.to_int n) as [d|d]; cbn.
  - destruct d; try apply all_num_uint. repeat constructor.
  - constructor; [done |]. destruct d; try apply all_num_uint.
    repeat constructor.
Qed.

Lemma show_Z_cons n : ∃ c t, show_Z n = String c t.
Proof.
  unfold show_Z. destruct (Z.to_int n) as [d|d] eqn:E; cbn.
  - destruct d; cbn; eauto.
  - eauto.
Qed.

Lemma span_num_app t rest :
  all_num t → delim rest → span_num (t +:+ rest) = (t, rest).
Proof.
  intros Ht Hr. induction t as [|c t IH].
  - cbn. destruct rest as [|c r]; [done |]. cbn in *. by rewrite Hr.
  - inversion Ht as [|? ? Hc Ht']; subst. cbn. rewrite Hc, IH; done.
Qed.

Lemma to_int_proper n : Z.to_int n ≠ Decimal.Pos Decimal.Nil
  ∧ Z.to_int n ≠ Decimal.Neg Decimal.Nil.
Proof.
  destruct n as [|p|p]; cbn; split; try discriminate;
    intros [= H]; by apply Unsigned.to_uint_nonnil in H.
Qed.

Lemma parse_int_show n : parse_int (show_Z n) = Some n.
Proof.
  unfold parse_int, show_Z.
  destruct (to_int_proper n) as [H1 H2].
  rewrite NilZero.isi by done. rewrite DecimalZ.of_to.
  by rewrite decide_True.
Qed.

Lemma num_char_not_ws c : num_char c = true → json_ws c = false.
Proof.
  destruct c as [[] [] [] [] [] [] [] []]; vm_compute; congruence.
Qed.

Lemma parse_number fuel n rest :
  delim rest → parse_value (S fuel) (show_Z n +:+ rest) = Some (JNum n, rest).
Proof.
  intros Hr.
  pose proof (show_Z_all_num n) as Hall.
  pose proof (parse_int_show n) as Hp.
  destruct (show_Z_cons n) as (c & t & E). rewrite E in *.
  inversion Hall as [|? ? Hc Ht]; subst.
  cbn [parse_value String.append skip_ws].
  rewrite (num_char_not_ws _ Hc), Hc.
  change (String c (t +:+ rest)) with (String c t +:+ rest).
  rewrite span_num_app by done. by rewrite Hp.
Qed.

(** *** Arrays and objects *)

Lemma bracket_cons o c gap sb x l :
  bracket o c gap sb (x :: l)
  = o +:+ lead gap sb +:+ join ("," +:+ lead gap sb) (x :: l)
      +:+ trail gap sb +:+ c.
Proof.
  unfold bracket, lead, trail. destruct gap as [|g gap]; [done |].
  by rewrite !append_assoc.
Qed.

Lemma bracket_ne o c gap sb l :
  l ≠ [] →
  bracket o c gap sb l
  = o +:+ lead gap sb +:+ join ("," +:+ lead gap sb) l +:+ trail gap sb +:+ c.
Proof. destruct l; [done |]. intros _. apply bracket_cons. Qed.

Lemma ws_only_lead gap sb : ws_only gap → ws_only sb → ws_only (lead gap sb).
Proof.
  intros Hg Hs. unfold lead. destruct gap; [done |].
  apply (ws_only_app nl); [done |]. by apply ws_only_app.
Qed.

Lemma ws_only_trail gap sb : ws_only sb → ws_only (trail gap sb).
Proof.
  intros Hs. unfold trail. destruct gap; [done |].
  by apply (ws_only_app nl).
Qed.

Lemma ws_only_colon gap r :
  ∃ w, ws_only w ∧ colon gap +:+ r = String ":" (w +:+ r).
Proof.
  destruct gap.
  - by exists EmptyString.
  - by exists " ".
Qed.

Lemma delim_ws post c rest :
  ws_only post → num_char c = false → delim (post +:+ String c rest).
Proof.
  intros Hp Hc. destruct post as [|x post]; [done |].
  apply ws_only_cons in Hp as [Hx _]. cbn.
  destruct (num_char x) eqn:E; [|done].
  apply num_char_not_ws in E. congruence.
Qed.

Lemma num_char_opens c :
  num_char c = true →
  json_ws c = false ∧ (code c =? 93)%N = false ∧ (code c =? 125)%N = false.
Proof.
  destruct c as [[] [] [] [] [] [] [] []]; vm_compute; intuition congruence.
Qed.

Lemma opens_app s t : opens s → opens (s +:+ t).
Proof. intros (c & r & -> & H). exists c, (r +:+ t). done. Qed.

Lemma opens_bracket_sq gap sb l : opens (bracket "[" "]" gap sb l).
Proof.
  destruct l as [|x l]; [by exists "["%char, "]" |].
  rewrite bracket_cons. by eexists "["%char, _.
Qed.

Lemma opens_bracket_br gap sb l : opens (bracket "{" "}" gap sb l).
Proof.
  destruct l as [|x l]; [by exists "{"%char, "}" |].
  rewrite bracket_cons. by eexists "{"%char, _.
Qed.

Lemma opens_serialize gap ind v : opens (serialize gap ind v).
Proof.
  destruct v as [| [] | n | s | l | l]; cbn [serialize].
  - by exists "n"%char, "ull".
  - by exists "t"%char, "rue".
  - by exists "f"%char, "alse".
  - destruct (show_Z_cons n) as (c & t & E).
    pose proof (show_Z_all_num n) as Hall. rewrite E in Hall.
    inversion Hall as [|? ? Hc _]; subst.
    exists c, t. split; [done |]. by apply num_char_opens.
  - by eexists "034"%char, _.
  - apply opens_bracket_sq.
  - apply opens_bracket_br.
Qed.

Lemma opens_join sep x l : opens x → opens (join sep (x :: l)).
Proof.
  intros H. destruct l; [done |]. cbn [join]. by apply opens_app.
Qed.

Lemma skip_ws_opens w s t :
  ws_only w → opens s →
  ∃ c r, skip_ws (w +:+ s +:+ t) = String c r
         ∧ (code c =? 93)%N = false ∧ (code c =? 125)%N = false.
Proof.
  intros Hw (c & r & -> & Hc & H1 & H2).
  rewrite skip_ws_app by done. cbn. rewrite Hc. eauto.
Qed.

Lemma obj_set_fresh k v acc : k ∉ acc.*1 → obj_set k v acc = acc ++ [(k, v)].
Proof.
  induction acc as [|[k' v'] acc IH]; [done |].
  cbn. intros Hk. apply not_elem_of_cons in Hk as [Hne Hk].
  rewrite decide_False by done. by rewrite IH.
Qed.

Lemma join_cons2 sep x y l :
  join sep (x :: y :: l) = x +:+ sep +:+ join sep (y :: l).
Proof. done. Qed.

Lemma parse_elems_S f acc s :
  parse_elems (S f) acc s =
  match parse_value f s with
  | Some (v, r) =>
      match skip_ws r with
      | String c r' =>
          if (code c =? 44)%N then parse_elems f (acc ++ [v]) r'
          else if (code c =? 93)%N then Some (JArr (acc ++ [v]), r')
          else None
      | EmptyString => None
      end
  | None => None
  end.
Proof. done. Qed.

Lemma parse_members_S f acc s :
  parse_members (S f) acc s =
  match skip_ws s with
  | String q r =>
      if (code q =? 34)%N then
        match parse_chars r with
        | Some (k, r1) =>
            match skip_ws r1 with
            | String c r2 =>
                if (code c =? 58)%N then
                  match parse_value f r2 with
                  | Some (v, r3) =>
                      match skip_ws r3 with
                      | String d r4 =>
                          if (code d =? 44)%N
                          then parse_members f (obj_set k v acc) r4
                          else if (code d =? 125)%N
                          then Some (JObj (obj_set k v acc), r4)
                          else None
                      | EmptyString => None
                      end
                  | None => None
                  end
                else None
            | EmptyString => None
            end
        | None => None
        end
      else None
  | EmptyString => None
  end.
Proof. done. Qed.

Section steps.
Context {A : Type} (k1 k2 : string → A) (k3 : A).

Lemma after_comma_sq X :
  match skip_ws (String "," X) with
  | String c r' =>
      if (code c =? 44)%N then k1 r'
      else if (code c =? 93)%N then k2 r' else k3
  | EmptyString => k3
  end = k1 X.
Proof. done. Qed.

Lemma after_close_sq post rest :
  ws_only post →
  match skip_ws (post +:+ String "]" rest) with
  | String c r' =>
      if (code c =? 44)%N then k1 r'
      else if (code c =? 93)%N then k2 r' else k3
  | EmptyString => k3
  end = k2 rest.
Proof. intros H. by rewrite skip_ws_app. Qed.

Lemma after_comma_br X :
  match skip_ws (String "," X) with
  | String c r' =>
      if (code c =? 44)%N then k1 r'
      else if (code c =? 125)%N then k2 r' else k3
  | EmptyString => k3
  end = k1 X.
Proof. done. Qed.

Lemma after_close_br post rest :
  ws_only post →
  match skip_ws (post +:+ String "}" rest) with
  | String c r' =>
      if (code c =? 44)%N then k1 r'
      else if (code c =? 125)%N then k2 r' else k3
  | EmptyString => k3
  end = k2 rest.
Proof. intros H. by rewrite skip_ws_app. Qed.
End steps.

Lemma ws_only_colon_ws gap : ws_only (colon_ws gap).
Proof. by destruct gap. Qed.

Lemma member_key {A} w k T (K : string → string → option A) :
  ws_only w →
  match skip_ws (w +:+ quote k +:+ T) with
  | String q r =>
      if (code q =? 34)%N then
        match parse_chars r with
        | Some (k0, r1) => K k0 r1
        | None => None
        end
      else None
  | EmptyString => None
  end = K k T.
Proof.
  intros Hw. rewrite skip_ws_app by done.
  unfold quote. rewrite !append_assoc.
  change (skip_ws (dq +:+ ?x)) with (String "034" x).
  change (code "034" =? 34)%N with true. cbv iota.
  by rewrite parse_chars_escape.
Qed.

Lemma member_colon {A} gap T (K : string → option A) :
  match skip_ws (colon gap +:+ T) with
  | String c r2 => if (code c =? 58)%N then K r2 else None
  | EmptyString => None
  end = K (colon_ws gap +:+ T).
Proof. by destruct gap. Qed.

Section items.
Context (gap ind w post rest : string).
Hypotheses (Hw : ws_only w) (Hpost : ws_only post).

Lemma parse_elems_ok l :
  Forall (reads_back gap ind) l → l ≠ [] →
  ∀ acc fuel, list_sum (map (fun e => S (nodes e)) l) ≤ fuel →
  parse_elems fuel acc
    (w +:+ join ("," +:+ w) (map (serialize gap ind) l)
       +:+ post +:+ String "]" rest)
  = Some (JArr (acc ++ l), rest).
Proof.
  induction l as [|e l IHl]; [done |].
  intros Hall _ acc fuel Hfuel. inversion Hall as [|? ? He Hl]; subst.
  cbn [map list_sum fold_right] in Hfuel.
  destruct fuel as [|f]; [lia |].
  rewrite parse_elems_S, parse_value_ws by done.
  destruct l as [|e' l'].
  - cbn [map join]. rewrite He; [| cbn in Hfuel; lia | by apply delim_ws].
    by rewrite after_close_sq.
  - rewrite !map_cons, join_cons2, !append_assoc.
    change ("," +:+ ?x) with (String "," x).
    rewrite He; [| lia | done].
    rewrite after_comma_sq, <- !map_cons.
    rewrite IHl; [| done | done | cbn [map list_sum fold_right] in *; lia].
    by rewrite <- app_assoc.
Qed.

Lemma parse_members_ok l :
  Forall (fun kv => reads_back gap ind kv.2) l → l ≠ [] →
  ∀ acc fuel, NoDup ((acc ++ l).*1) →
  list_sum (map (fun kv => S (nodes kv.2)) l) ≤ fuel →
  parse_members fuel acc
    (w +:+ join ("," +:+ w)
             (map (fun kv => quote kv.1 +:+ colon gap
                             +:+ serialize gap ind kv.2) l)
       +:+ post +:+ String "}" rest)
  = Some (JObj (acc ++ l), rest).
Proof.
  induction l as [|[k e] l IHl]; [done |].
  intros Hall _ acc fuel Hnd Hfuel. inversion Hall as [|? ? He Hl]; subst.
  cbn [map list_sum fold_right snd fst] in *.
  destruct fuel as [|f]; [lia |].
  assert (Hfresh : obj_set k e acc = acc ++ [(k, e)]).
  { apply obj_set_fresh. rewrite fmap_app in Hnd.
    apply NoDup_app in Hnd as (_ & Hnd & _). intros Hin.
    apply (Hnd k Hin). cbn. left. }
  rewrite parse_members_S.
  destruct l as [|[k' e'] l'].
  - cbn [map join fst snd]. rewrite !append_assoc.
    rewrite member_key by done. rewrite member_colon.
    rewrite parse_value_ws by apply ws_only_colon_ws.
    rewrite He; [| cbn in Hfuel; lia | by apply delim_ws].
    rewrite after_close_br by done. by rewrite Hfresh.
  - rewrite !map_cons, join_cons2. cbn [fst snd]. rewrite !append_assoc.
    change ("," +:+ ?x) with (String "," x).
    rewrite member_key by done. rewrite member_colon.
    rewrite parse_value_ws by apply ws_only_colon_ws.
    rewrite He; [| lia | done].
    rewrite after_comma_br, Hfresh.
    change (?a :: map ?f l') with (map f ((k', e') :: l')).
    rewrite IHl; [| done | done | | cbn [map list_sum fold_right] in *; lia].
    + by rewrite <- app_assoc.
    + by rewrite <- app_assoc.
Qed.
End items.

Lemma parse_value_str f T :
  parse_value (S f) (String "034" T) =
  match parse_chars T with
  | Some (str, rest) => Some (JStr str, rest)
  | None => None
  end.
Proof. done. Qed.

Lemma parse_value_arr f T :
  parse_value (S f) (String "[" T) =
  match skip_ws T with
  | String c' r' =>
      if (code c' =? 93)%N then Some (JArr [], r') else parse_elems f [] T
  | EmptyString => None
  end.
Proof. done. Qed.

Lemma parse_value_obj f T :
  parse_value (S f) (String "{" T) =
  match skip_ws T with
  | String c' r' =>
      if (code c' =? 125)%N then Some (JObj [], r') else parse_members f [] T
  | EmptyString => None
  end.
Proof. done. Qed.

Lemma forallb_Forall_true {A} (f : A → bool) l :
  forallb f l = true → Forall (fun x => f x = true) l.
Proof.
  induction l as [|x l IH]; cbn; [constructor |].
  intros [Hx Hl]%andb_prop. constructor; auto.
Qed.

(** Reading back the text of a value, whatever follows it. *)
Lemma parse_serialize gap :
  ws_only gap → ∀ v, serializable v = true →
  ∀ ind rest fuel, ws_only ind → nodes v ≤ fuel → delim rest →
  parse_value fuel (serialize gap ind v +:+ rest) = Some (v, rest).
Proof.
  intros Hgap v.
  induction v as [| b | n | s | l IHl | l IHl] using json_ind';
    intros Hser ind rest fuel Hind Hfuel Hrest;
    (destruct fuel as [|f]; [cbn in Hfuel; lia |]).
  - done.
  - by destruct b.
  - by apply parse_number.
  - cbn [serialize]. unfold quote. rewrite !append_assoc.
    change (dq +:+ ?x) with (String "034" x).
    by rewrite parse_value_str, parse_chars_escape.
  - destruct l as [|e l]; [done |].
    cbn [serialize]. rewrite bracket_ne, !append_assoc by done.
    change ("[" +:+ ?x) with (String "[" x).
    change ("]" +:+ ?x) with (String "]" x).
    rewrite parse_value_arr.
    assert (Hlead := ws_only_lead gap ind Hgap Hind).
    assert (Htrail := ws_only_trail gap ind Hind).
    destruct (skip_ws_opens (lead gap ind)
                (join ("," +:+ lead gap ind)
                   (map (serialize gap (ind +:+ gap)) (e :: l)))
                (trail gap ind +:+ String "]" rest) Hlead)
      as (c & r & -> & -> & _).
    { rewrite map_cons. apply opens_join, opens_serialize. }
    apply (parse_elems_ok _ _ _ _ _ Hlead Htrail); [| done |].
    + apply forallb_Forall_true in Hser.
      eapply Forall_impl; [apply Forall_and; exact (conj IHl Hser) |].
      intros x [IHx Hx] rest' fuel' Hf Hr.
      apply IHx; auto using ws_only_app.
    + cbn [nodes] in Hfuel. lia.
  - destruct l as [|[k e] l]; [done |].
    cbn [serialize]. rewrite bracket_ne, !append_assoc by done.
    change ("{" +:+ ?x) with (String "{" x).
    change ("}" +:+ ?x) with (String "}" x).
    rewrite parse_value_obj.
    assert (Hlead := ws_only_lead gap ind Hgap Hind).
    assert (Htrail := ws_only_trail gap ind Hind).
    cbn [serializable] in Hser. apply andb_prop in Hser as [Hnd Hser].
    apply bool_decide_eq_true in Hnd.
    destruct (skip_ws_opens (lead gap ind)
                (join ("," +:+ lead gap ind)
                   (map (fun kv => quote kv.1 +:+ colon gap
                           +:+ serialize gap (ind +:+ gap) kv.2)
                        ((k, e) :: l)))
                (trail gap ind +:+ String "}" rest) Hlead)
      as (c & r & -> & _ & ->).
    { rewrite map_cons. apply opens_join. unfold quote.
      by eexists "034"%char, _. }
    apply (parse_members_ok _ _ _ _ _ Hlead Htrail); [| done | done |].
    + apply forallb_Forall_true in Hser.
      eapply Forall_impl; [apply Forall_and; exact (conj IHl Hser) |].
      intros x [IHx Hx] rest' fuel' Hf Hr.
      apply IHx; auto using ws_only_app.
    + cbn [nodes] in Hfuel. lia.
Qed.


(** *** The whole text *)

Lemma length_join_parts w (parts : list string) :
  parts ≠ [] →
  list_sum (map (fun p => S (String.length p)) parts)
  ≤ S (String.length (join ("," +:+ w) parts)).
Proof.
  induction parts as [|x l IH]; [done |]. intros _.
  destruct l as [|y l].
  - cbn. lia.
  - rewrite join_cons2, !length_append.
    cbn [map list_sum fold_right] in *.
    change ("," +:+ w) with (String "," w) in *.
    cbn [String.length]. specialize (IH ltac:(done)). lia.
Qed.

Lemma list_sum_le {A} (f g : A → nat) l :
  Forall (fun x => f x ≤ g x) l → list_sum (map f l) ≤ list_sum (map g l).
Proof.
  induction 1 as [|x l Hx _ IH]; [done |].
  cbn [map list_sum fold_right]. unfold list_sum in IH. lia.
Qed.

Lemma length_bracket o c gap sb parts :
  parts ≠ [] →
  S (list_sum (map (fun p => S (String.length p)) parts))
  ≤ String.length (bracket (String o EmptyString) (String c EmptyString)
                     gap sb parts).
Proof.
  intros Hne. rewrite bracket_ne by done.
  pose proof (length_join_parts (lead gap sb) parts Hne).
  rewrite !length_append. cbn [String.length]. lia.
Qed.

Lemma nodes_le_length gap v :
  ∀ ind, nodes v ≤ String.length (serialize gap ind v).
Proof.
  induction v as [| b | n | s | l IHl | l IHl] using json_ind'; intros ind.
  - cbn. lia.
  - destruct b; cbn; lia.
  - destruct (show_Z_cons n) as (c & t & E). cbn [serialize nodes].
    rewrite E. cbn. lia.
  - cbn [serialize nodes]. unfold quote. rewrite length_append. cbn. lia.
  - destruct l as [|e l]; [cbn; lia |].
    cbn [serialize nodes].
    etrans; [| apply length_bracket; done].
    apply le_n_S. rewrite map_map. apply list_sum_le.
    eapply Forall_impl; [exact IHl |]. intros x Hx. cbn. apply le_n_S, Hx.
  - destruct l as [|[k e] l]; [cbn; lia |].
    cbn [serialize nodes].
    etrans; [| apply length_bracket; done].
    apply le_n_S. rewrite map_map. apply list_sum_le.
    eapply Forall_impl; [exact IHl |]. intros x Hx. cbn beta.
    rewrite !length_append. specialize (Hx (ind +:+ gap)). lia.
Qed.

(** [JSON.parse(JSON.stringify(v, null, space))] is [v]. *)
Lemma parse_stringify v space :
  serializable v = true → JSON_parse (JSON_stringify v space) = Some v.
Proof.
  intros Hv. unfold JSON_parse, JSON_stringify.
  set (gap := spaces (Nat.min space 10)).
  rewrite <- (append_nil_r (serialize gap EmptyString v)) at 2.
  rewrite (parse_serialize gap); try done.
  - apply ws_only_spaces.
  - pose proof (nodes_le_length gap v EmptyString). lia.
Qed.

(** The text of a value starts and ends with a visible character, so
    [trim] keeps all of it. *)
Lemma num_char_visible c : num_char c = true → visible c = true.
Proof.
  destruct c as [[] [] [] [] [] [] [] []]; vm_compute; congruence.
Qed.

Lemma all_num_last t :
  all_num t → t ≠ EmptyString →
  ∃ d, last_char t = Some d ∧ num_char d = true.
Proof.
  induction t as [|c t IH]; [done |]. intros Hall _.
  inversion Hall as [|? ? Hc Ht]; subst.
  destruct t as [|x t]; [by exists c |].
  destruct (IH Ht ltac:(done)) as (d & Hd & Hn).
  exists d. split; [| done]. cbn [last_char] in *. by rewrite Hd.
Qed.

Lemma serialize_first gap ind v :
  ∃ c, first_char (serialize gap ind v) = Some c ∧ visible c = true.
Proof.
  destruct v as [| [] | n | s | l | l]; cbn [serialize];
    try (by eexists; split; [reflexivity |]).
  - destruct (show_Z_cons n) as (c & t & E).
    pose proof (show_Z_all_num n) as Hall. rewrite E in *.
    inversion Hall as [|? ? Hc _]; subst.
    exists c. split; [done |]. by apply num_char_visible.
  - destruct l; [by eexists |]. rewrite bracket_ne by done. by eexists.
  - destruct l; [by eexists |]. rewrite bracket_ne by done. by eexists.
Qed.

Lemma last_char_bracket o c gap sb parts :
  last_char (bracket o (String c EmptyString) gap sb parts) = Some c.
Proof.
  destruct parts as [|x l].
  - unfold bracket. by rewrite last_char_app.
  - rewrite bracket_cons.
    rewrite !last_char_app; auto using append_nonempty_r.
Qed.

Lemma serialize_last gap ind v :
  ∃ d, last_char (serialize gap ind v) = Some d ∧ visible d = true.
Proof.
  destruct v as [| [] | n | s | l | l]; cbn [serialize];
    try (by eexists; split; [reflexivity |]).
  - destruct (show_Z_cons n) as (c & t & E).
    destruct (all_num_last (show_Z n) (show_Z_all_num n)) as (d & Hd & Hn).
    { by rewrite E. }
    exists d. split; [done |]. by apply num_char_visible.
  - unfold quote. exists "034"%char.
    rewrite !last_char_app; auto using append_nonempty_r.
  - exists "]"%char. by rewrite last_char_bracket.
  - exists "}"%char. by rewrite last_char_bracket.
Qed.

Lemma trim_stringify v space :
  trim (JSON_stringify v space) = JSON_stringify v space.
Proof.
  unfold JSON_stringify.
  destruct (serialize_first (spaces (Nat.min space 10)) EmptyString v)
    as (c & Hc & Hvc).
  destruct (serialize_last (spaces (Nat.min space 10)) EmptyString v)
    as (d & Hd & Hvd).
  eapply trim_visible; eauto.
Qed.

End JsonFacts.

Module NodeFacts.
Import Text Json Node Spec TextFacts JsonFacts.
Local Open Scope js_scope.

(** *** The monad *)

Lemma bind_Ok {A B} (c : M A) (k : A → M B) w b w' :
  bind c k w = (Ok b, w') → ∃ a w1, c w = (Ok a, w1) ∧ k a w1 = (Ok b, w').
Proof.
  unfold bind. destruct (c w) as [[a|e] w1]; [eauto | discriminate].
Qed.

Lemma bind_run {A B} (c : M A) (k : A → M B) w a w1 :
  c w = (Ok a, w1) → bind c k w = k a w1.
Proof. unfold bind. by intros ->. Qed.

Lemma is_Some_true {A} (o : option A) :
  (match o with Some _ => true | None => false end) = true → is_Some o.
Proof. destruct o; [eauto | done]. Qed.

Lemma run_Ok {A} (r : outcome A * World) (a : A) :
  r.1 = Ok a → r = (Ok a, r.2).
Proof. destruct r as [r w]. cbn. by intros ->. Qed.

(** *** [mkdir -p] *)

Lemma mkdirp_go_keeps (base todo : list string) (f f' : FS) q n :
  mkdirp_go base todo f = Some f' → f !! q = Some n → f' !! q = Some n.
Proof.
  revert base f. induction todo as [|c r IH]; intros base f; cbn [mkdirp_go].
  - by intros [= ->].
  - destruct (f !! (base ++ [c])) as [[|]|] eqn:E; [done | apply IH |].
    intros H Hq. apply (IH _ _ H).
    rewrite lookup_insert_ne; [done |]. intros Heq. rewrite Heq in E. congruence.
Qed.

Lemma mkdirp_keeps (f f' : FS) d q n :
  mkdirp f d = Some f' → f !! q = Some n → f' !! q = Some n.
Proof. apply mkdirp_go_keeps. Qed.

Lemma mkdirp_go_frame (base todo : list string) (f f' : FS) q :
  mkdirp_go base todo f = Some f' →
  ¬ (q `prefix_of` base ++ todo) → f' !! q = f !! q.
Proof.
  revert base f. induction todo as [|c r IH]; intros base f; cbn [mkdirp_go].
  - by intros [= ->].
  - intros H Hq.
    assert (Hq' : ¬ q `prefix_of` (base ++ [c]) ++ r) by by rewrite <- app_assoc.
    destruct (f !! (base ++ [c])) as [[|]|] eqn:E; [done | by eapply IH |].
    rewrite (IH _ _ H Hq'). apply lookup_insert_ne. intros Heq.
    apply Hq. rewrite <- Heq. exists r. by rewrite <- app_assoc.
Qed.

Lemma mkdirp_frame (f f' : FS) d q :
  mkdirp f d = Some f' → ¬ (q `prefix_of` d) → f' !! q = f !! q.
Proof. apply (mkdirp_go_frame []). Qed.

Lemma mkdirp_go_dir (base todo : list string) (f f' : FS) :
  mkdirp_go base todo f = Some f' →
  (base = [] ∨ f !! base = Some Dir) →
  stat f' (base ++ todo) = Some Dir.
Proof.
  revert base f. induction todo as [|c r IH]; intros base f; cbn [mkdirp_go].
  - intros [= ->] [-> | H]; [done |]. rewrite app_nil_r.
    destruct base; [done | exact H].
  - intros H _. rewrite (assoc_L (++) base [c] r : base ++ c :: r = (base ++ [c]) ++ r).
    destruct (f !! (base ++ [c])) as [[|]|] eqn:E; [done | |].
    + apply (IH _ _ H). by right.
    + apply (IH _ _ H). right. apply lookup_insert_eq.
Qed.

Lemma mkdirp_dir (f f' : FS) d : mkdirp f d = Some f' → stat f' d = Some Dir.
Proof. intros H. apply (mkdirp_go_dir [] d f f' H). by left. Qed.

Lemma mkdirp_go_File_inv (base todo : list string) (f f' : FS) q c :
  mkdirp_go base todo f = Some f' → f' !! q = Some (File c) →
  f !! q = Some (File c).
Proof.
  revert base f. induction todo as [|x r IH]; intros base f; cbn [mkdirp_go].
  - by intros [= ->].
  - destruct (f !! (base ++ [x])) as [[|]|] eqn:E; [done | apply IH |].
    intros H Hq. specialize (IH _ _ H Hq).
    rewrite lookup_insert in IH. by case_decide.
Qed.

(** [mkdir -p] succeeds exactly when no file is on the way. *)
Lemma mkdirp_go_clear (base todo : list string) (f f' : FS) :
  mkdirp_go base todo f = Some f' → clear_way f base todo.
Proof.
  revert base f. induction todo as [|x r IH]; intros base f; cbn [mkdirp_go].
  - intros _ q c [k Hk] Hq. symmetry in Hk. by apply app_eq_nil in Hk as [-> _].
  - intros H q c Hpre Hq.
    destruct q as [|y q]; [done |].
    apply prefix_cons_inv_1 in Hpre as Hy. subst y.
    apply prefix_cons_inv_2 in Hpre.
    destruct (decide (q = [])) as [->|Hne].
    + destruct (f !! (base ++ [x])) as [[|]|]; done.
    + assert (Hneq : base ++ [x] ≠ base ++ x :: q).
      { intros Heq%app_inv_head. by injection Heq as <-. }
      replace (base ++ x :: q) with ((base ++ [x]) ++ q)
        in * by by rewrite <- app_assoc.
      destruct (f !! (base ++ [x])) as [[|]|] eqn:E; [done | |].
      * by apply (IH _ _ H).
      * pose proof (IH _ _ H q c Hpre Hne) as Hc.
        by rewrite lookup_insert_ne in Hc.
Qed.

Lemma mkdirp_go_is_Some (base todo : list string) (f : FS) :
  clear_way f base todo → is_Some (mkdirp_go base todo f).
Proof.
  revert base f. induction todo as [|x r IH]; intros base f Hclear;
    cbn [mkdirp_go]; [done |].
  assert (Hrest : ∀ f2 : FS,
    (∀ q, q ≠ [] → f2 !! ((base ++ [x]) ++ q) = f !! (base ++ x :: q)) →
    clear_way f2 (base ++ [x]) r).
  { intros f2 Hf2 q c Hpre Hq. rewrite Hf2 by done.
    apply Hclear; [by apply prefix_cons | done]. }
  destruct (f !! (base ++ [x])) as [[c|]|] eqn:E.
  - exfalso. apply (Hclear [x] c); [| done | done].
    by apply prefix_cons, prefix_nil.
  - apply IH, Hrest. intros q _. by rewrite <- app_assoc.
  - apply IH, Hrest. intros q Hq. rewrite <- app_assoc.
    apply lookup_insert_ne. intros Heq%app_inv_head.
    by injection Heq as <-.
Qed.

(** *** Paths *)

Lemma resolve_dirname c (p : path) :
  comps p ≠ [] → resolve c (path_dirname p) = removelast (resolve c p).
Proof.
  intros Hp. unfold resolve, path_dirname. cbn.
  destruct (absolute p); [done |]. by rewrite removelast_app.
Qed.

Lemma resolve_nonempty c (p : path) : comps p ≠ [] → resolve c p ≠ [].
Proof.
  unfold resolve. destruct (absolute p); [done |].
  intros Hp [_ H]%app_eq_nil. done.
Qed.

Lemma stat_lookup (f : FS) q : q ≠ [] → stat f q = f !! q.
Proof. by destruct q. Qed.

(** *** Objects *)

Lemma obj_get_set k k' v o :
  obj_get k (obj_set k' v o)
  = if decide (k = k') then Some v else obj_get k o.
Proof.
  induction o as [|[k0 v0] o IH]; cbn.
  - by destruct (decide (k = k')).
  - destruct (decide (k' = k0)) as [->|Hne]; cbn.
    + by destruct (decide (k = k0)).
    + rewrite IH. destruct (decide (k = k0)) as [->|]; [| done].
      by rewrite decide_False by done.
Qed.

Lemma obj_get_None k (o : list (string * json)) :
  k ∉ o.*1 → obj_get k o = None.
Proof.
  induction o as [|[k0 v0] o IH]; [done |]. cbn.
  intros [Hne Hk]%not_elem_of_cons. rewrite decide_False by done. auto.
Qed.

Lemma obj_get_foldl_set k o (l : list (string * json)) :
  NoDup l.*1 →
  obj_get k (foldl (fun acc kv => obj_set kv.1 kv.2 acc) o l)
  = match obj_get k l with Some v => Some v | None => obj_get k o end.
Proof.
  revert o. induction l as [|[k1 v1] l IH]; intros o Hnd; [done |].
  cbn in Hnd. apply NoDup_cons in Hnd as [Hk1 Hnd].
  cbn. rewrite IH by done. rewrite obj_get_set.
  destruct (decide (k = k1)) as [->|]; [| done].
  by rewrite obj_get_None.
Qed.

(** A property of the second operand replaces the property of the same
    name of the first one with its whole value; the other properties
    of the first operand are kept. *)
Lemma field_spread cur new k :
  NoDup (own_props new).*1 →
  field k (spread cur new)
  = match obj_get k (own_props new) with
    | Some v => Some v
    | None => obj_get k (own_props cur)
    end.
Proof. intros H. unfold spread, field. by apply obj_get_foldl_set. Qed.

(** *** Files *)

Lemma writeFile_inv (p : path) content w w' :
  Utils.writeFile p content w = (Ok tt, w') →
  comps p ≠ []
  ∧ cwd w' = cwd w
  ∧ ∃ f1, mkdirp (fs w) (removelast (resolve (cwd w) p)) = Some f1
          ∧ fs w' = <[resolve (cwd w) p := File (trim content)]> f1.
Proof.
  unfold Utils.writeFile, bind, mkdirSync, writeFileSync.
  cbn [fs cwd emit set_fs].
  destruct (decide (comps p = [])) as [Hnil|Hp].
  - assert (resolve (cwd w) (path_dirname p) = resolve (cwd w) p) as ->.
    { unfold resolve, path_dirname. cbn. by rewrite Hnil. }
    destruct (mkdirp _ _) as [f1|] eqn:E; [| done].
    cbn [fs cwd emit set_fs]. by rewrite (mkdirp_dir _ _ _ E).
  - rewrite resolve_dirname by done.
    destruct (mkdirp _ _) as [f1|] eqn:E; [| done].
    cbn [fs cwd emit set_fs].
    destruct (stat f1 (resolve (cwd w) p)) as [[|]|];
      destruct (stat f1 (removelast (resolve (cwd w) p))) as [[|]|];
      try done; intros [= <-]; cbn; eauto.
Qed.

Lemma writeFile_ok (p : path) content w :
  writable w p →
  ∃ w', Utils.writeFile p content w = (Ok tt, w').
Proof.
  intros (Hp & [f1 Hf1] & Hdir).
  unfold Utils.writeFile, bind, mkdirSync, writeFileSync.
  cbn [fs cwd emit set_fs]. rewrite resolve_dirname, Hf1 by done.
  cbn [fs cwd emit set_fs]. rewrite (mkdirp_dir _ _ _ Hf1).
  pose proof (resolve_nonempty (cwd w) p Hp) as Hq.
  rewrite stat_lookup by done.
  destruct (f1 !! resolve (cwd w) p) as [[c|]|] eqn:E; eauto.
  exfalso. apply Hdir.
  destruct (fs w !! resolve (cwd w) p) as [n|] eqn:E0.
  - rewrite (mkdirp_keeps _ _ _ _ _ Hf1 E0) in E. by inversion E.
  - rewrite (mkdirp_frame _ _ _ _ Hf1) in E; [congruence |].
    intros [k Hk]. apply (f_equal length) in Hk.
    rewrite length_app in Hk.
    destruct (resolve (cwd w) p) as [|x l] using rev_ind; [done |].
    rewrite removelast_last, length_app in Hk. cbn in Hk. lia.
Qed.

Lemma readJsonFile_stored (p : path) w v :
  comps p ≠ [] →
  read_json (fs w) (resolve (cwd w) p) = Some v →
  Utils.readJsonFile p w = (Ok v, w).
Proof.
  intros Hp. unfold read_json, Utils.readJsonFile, bind, existsSync,
    readFileSync.
  rewrite stat_lookup by by apply resolve_nonempty.
  destruct (fs w !! resolve (cwd w) p) as [[c|]|] eqn:E; try done.
  intros Hv. rewrite bool_decide_eq_true_2 by eauto. cbn.
  rewrite stat_lookup by by apply resolve_nonempty. rewrite E. by rewrite Hv.
Qed.

Lemma writeJsonFile_stores (p : path) v w w' :
  serializable v = true →
  Utils.writeJsonFile p v w = (Ok tt, w') →
  comps p ≠ [] ∧ cwd w' = cwd w
  ∧ read_json (fs w') (resolve (cwd w') p) = Some v
  ∧ writable w' p.
Proof.
  intros Hv Hrun. unfold Utils.writeJsonFile in Hrun.
  apply writeFile_inv in Hrun as (Hp & Hcwd & f1 & Hf1 & Hfs).
  rewrite trim_stringify in Hfs.
  split; [done |]. split; [done |]. rewrite Hcwd.
  assert (Hq : fs w' !! resolve (cwd w) p
               = Some (File (JSON_stringify v 2))).
  { rewrite Hfs. apply lookup_insert_eq. }
  split.
  - unfold read_json. rewrite Hq. by apply parse_stringify.
  - split; [done |]. rewrite Hcwd. split; [| by rewrite Hq].
    apply mkdirp_go_is_Some. intros q c Hpre Hne.
    rewrite app_nil_l. intros Hfile.
    assert (Hlen : q ≠ resolve (cwd w) p).
    { intros ->. apply prefix_length in Hpre.
      pose proof (resolve_nonempty (cwd w) p Hp) as Hr.
      destruct (resolve (cwd w) p) as [|x l _] using rev_ind; [done |].
      rewrite removelast_last, length_app in Hpre. cbn in Hpre. lia. }
    rewrite Hfs, lookup_insert_ne in Hfile by done.
    apply (mkdirp_go_File_inv _ _ _ _ _ _ Hf1) in Hfile.
    by apply (mkdirp_go_clear _ _ _ _ Hf1 q c Hpre Hne).
Qed.

(** *** Copying a tree *)

Lemma relative_to_Some d q rel : relative_to d q = Some rel ↔ q = d ++ rel.
Proof.
  revert q. induction d as [|a d IH]; intros q; cbn.
  - split; [by intros [= ->] | by intros ->].
  - destruct q as [|b q]; [done |].
    destruct (decide (a = b)) as [->|Hne].
    + rewrite IH. split; [by intros -> | by intros [= ->]].
    + split; [done | by intros [= -> _]].
Qed.

Lemma elem_of_below (s : list string) (f : FS) (rel : list string) (n : node) :
  (rel, n) ∈ below s f ↔ rel ≠ [] ∧ f !! (s ++ rel) = Some n.
Proof.
  unfold below. rewrite merge_sort_Permutation, list_elem_of_omap. split.
  - intros ([q n'] & Hin%elem_of_map_to_list & Hrel). cbn in Hrel.
    destruct (relative_to s q) as [[|x r]|] eqn:E; try done.
    injection Hrel as <- <-. apply relative_to_Some in E as ->. done.
  - intros [Hne Hf]. exists (s ++ rel, n). split.
    + by apply elem_of_map_to_list.
    + cbn. rewrite (proj2 (relative_to_Some s (s ++ rel) rel) eq_refl).
      by destruct rel.
Qed.

Lemma copy_entries_frame (d : list string) (l : list (list string * node))
    (f f' : FS) (t : list string) :
  copy_entries d l f = (Ok tt, f') →
  (∀ rel, rel ∈ l.*1 → t ≠ d ++ rel) → f' !! t = f !! t.
Proof.
  revert f. induction l as [|[rel n] l IH]; intros f; cbn [copy_entries].
  - by intros [= ->].
  - intros Hrun Ht.
    assert (Hrest : copy_entries d l (<[d ++ rel := n]> f) = (Ok tt, f')).
    { destruct n, (stat f (d ++ rel)) as [[|]|]; done. }
    rewrite (IH _ Hrest).
    + apply lookup_insert_ne. intros Heq. apply (Ht rel); [| done].
      cbn. left.
    + intros rel' Hin. apply Ht. cbn. by right.
Qed.

Lemma copy_entries_lookup (d : list string) (l : list (list string * node))
    (f f' : FS) (rel : list string) (n : node) :
  copy_entries d l f = (Ok tt, f') →
  (rel, n) ∈ l → (∀ n', (rel, n') ∈ l → n' = n) →
  f' !! (d ++ rel) = Some n.
Proof.
  revert f. induction l as [|[rel0 n0] l IH]; intros f; cbn [copy_entries].
  - intros _ Hin. by apply elem_of_nil in Hin.
  - intros Hrun Hin Hfun.
    assert (Hrest : copy_entries d l (<[d ++ rel0 := n0]> f) = (Ok tt, f')).
    { destruct n0, (stat f (d ++ rel0)) as [[|]|]; done. }
    destruct (decide ((rel, n) ∈ l)) as [Hl|Hl].
    + apply (IH _ Hrest Hl). intros n' Hn'. apply Hfun. by right.
    + apply elem_of_cons in Hin as [[= -> ->]|Hin]; [| done].
      rewrite (copy_entries_frame _ _ _ _ _ Hrest).
      * apply lookup_insert_eq.
      * intros rel' Hin' Heq%app_inv_head. subst rel'.
        apply list_elem_of_fmap in Hin' as ([r' n'] & Hr & Hin'). cbn in Hr.
        subst r'. apply Hl. rewrite <- (Hfun n'); [done | by right].
Qed.

Lemma copySync_dir_inv (src dst : path) w w' :
  Node.copySync src dst w = (Ok tt, w') →
  stat (fs w) (resolve (cwd w) dst) = Some Dir →
  let s := resolve (cwd w) src in
  let d := resolve (cwd w) dst in
  stat (fs w) s = Some Dir
  ∧ ¬ s `prefix_of` d
  ∧ cwd w' = cwd w
  ∧ ∃ f1, mkdirp (fs w) (removelast d) = Some f1
          ∧ copy_entries d (([], Dir) :: below s (fs w)) f1 = (Ok tt, fs w').
Proof.
  intros Hrun Hd s d. unfold Node.copySync in Hrun.
  fold s d in Hrun, Hd. cbn zeta in Hrun.
  destruct (stat (fs w) s) as [[c|]|]; [| | done].
  - rewrite Hd in Hrun. by destruct (decide (s = d)).
  - destruct (decide (s `prefix_of` d)); [done |]. rewrite Hd in Hrun.
    destruct (mkdirp (fs w) (removelast d)) as [f1|]; [| done].
    destruct (copy_entries d _ f1) as [[[]|e] f'] eqn:E; [| done].
    injection Hrun as <-. cbn. eauto 10.
Qed.

Lemma mkdirSync_recursive_inv (p : path) w w' :
  mkdirSync p true w = (Ok tt, w') →
  cwd w' = cwd w ∧ mkdirp (fs w) (resolve (cwd w) p) = Some (fs w').
Proof.
  unfold mkdirSync.
  destruct (mkdirp (fs w) (resolve (cwd w) p)) as [f|]; [| done].
  by intros [= <-].
Qed.

Lemma not_prefix_app (s d rel : list string) :
  ¬ s `prefix_of` d → ¬ (s ++ rel) `prefix_of` d.
Proof. intros H [k Hk]. apply H. exists (rel ++ k). by rewrite app_assoc. Qed.

Lemma not_prefix_longer (d rel : list string) :
  rel ≠ [] → ¬ (d ++ rel) `prefix_of` d.
Proof.
  intros Hrel Hpre%prefix_length. rewrite length_app in Hpre.
  destruct rel; [done |]. cbn in Hpre. lia.
Qed.

Lemma not_prefix_removelast (d q : list string) :
  ¬ q `prefix_of` d → ¬ q `prefix_of` removelast d.
Proof.
  intros H [k Hk]. apply H.
  destruct d as [|x d _] using rev_ind; [by exists k |].
  rewrite removelast_last in Hk. exists (k ++ [x]).
  by rewrite Hk, <- app_assoc.
Qed.

(** The tree at [s] copied over [d], after [d] was made a directory. *)
Lemma copy_tree_spec (s d : list string) (f f4 f1 f5 : FS) :
  mkdirp f d = Some f4 →
  stat f4 s = Some Dir →
  ¬ s `prefix_of` d →
  mkdirp f4 (removelast d) = Some f1 →
  copy_entries d (([], Dir) :: below s f4) f1 = (Ok tt, f5) →
  stat f5 d = Some Dir
  ∧ (∀ rel c, f !! (s ++ rel) = Some (File c) →
              f5 !! (d ++ rel) = Some (File c))
  ∧ (∀ rel, f !! (s ++ rel) = None → f5 !! (d ++ rel) = f !! (d ++ rel)).
Proof.
  intros Hmk Hsdir Hpre Hf1 Hcopy.
  assert (Hsame : ∀ rel, f4 !! (s ++ rel) = f !! (s ++ rel)).
  { intros rel. apply (mkdirp_frame _ _ _ _ Hmk). by apply not_prefix_app. }
  assert (Hnonroot : ∀ rel, f !! (s ++ rel) ≠ Some Dir → rel ≠ []).
  { intros rel Hrel ->. rewrite <- Hsame, app_nil_r in Hrel.
    destruct s as [|x s0]; [apply Hpre, prefix_nil | done]. }
  assert (Hfun : ∀ rel n n', (rel, n) ∈ ([], Dir) :: below s f4 →
                             (rel, n') ∈ ([], Dir) :: below s f4 →
                             n' = n).
  { intros rel n n' H1%elem_of_cons H2%elem_of_cons.
    destruct H1 as [E1|[Hne H1]%elem_of_below],
             H2 as [E2|[Hne' H2]%elem_of_below].
    - congruence.
    - by injection E1 as -> ->.
    - by injection E2 as -> ->.
    - congruence. }
  split; [| split].
  - assert (f5 !! (d ++ []) = Some Dir) as Hd.
    { apply (copy_entries_lookup _ _ _ _ _ _ Hcopy); [left |].
      intros n' Hn'. symmetry. eapply Hfun; [exact Hn' | left]. }
    rewrite app_nil_r in Hd. by destruct d.
  - intros rel c Hfile.
    assert (Hin : (rel, File c) ∈ ([], Dir) :: below s f4).
    { right. apply elem_of_below. rewrite Hsame.
      split; [apply Hnonroot; by rewrite Hfile | done]. }
    apply (copy_entries_lookup _ _ _ _ _ _ Hcopy Hin).
    intros n' Hn'. by apply (Hfun rel (File c)).
  - intros rel Hnone.
    assert (Hrel : rel ≠ []) by (apply Hnonroot; by rewrite Hnone).
    rewrite (copy_entries_frame _ _ _ _ _ Hcopy).
    + rewrite (mkdirp_frame _ _ _ _ Hf1)
        by by apply not_prefix_removelast, not_prefix_longer.
      apply (mkdirp_frame _ _ _ _ Hmk). by apply not_prefix_longer.
    + intros rel' Hin Heq%app_inv_head. subst rel'.
      cbn in Hin. apply elem_of_cons in Hin as [->|Hin]; [done |].
      apply list_elem_of_fmap in Hin as ([r n] & -> & Hin).
      apply elem_of_below in Hin as [_ Hin]. cbn in *.
      rewrite Hsame in Hin. congruence.
Qed.

End NodeFacts.

Module RunFacts.
Import Text Json Node Spec TextFacts JsonFacts NodeFacts.
Local Open Scope js_scope.

(** *** Version detection *)

Lemma utils_getPnpmVersion_run sh (w : World) :
  let called := emit (Exec "pnpm --version" (cwd w)) w in
  Utils.getPnpmVersion sh w
  = match version_command sh w with
    | Some (out, f) => (Ok (trim out), set_fs called f)
    | None =>
        (Ok "9.15.4",
         emit (Warn "Could not determine pnpm version. Using default.")
           called)
    end.
Proof.
  unfold Utils.getPnpmVersion, version_command,
    try_catch, bind, execSync, console_warn, ret.
  destruct (stat (fs w) (cwd w)) as [[c|]|]; [done | | done].
  by destruct (sh _ _ _) as [[out f]|].
Qed.

Lemma cli_getPnpmVersion_run sh (w : World) :
  let called := emit (Exec "pnpm --version" (cwd w)) w in
  Cli.getPnpmVersion sh w
  = match version_command sh w with
    | Some (out, f) => (Ok (trim out), set_fs called f)
    | None =>
        (Ok "9.7.0",
         emit (Warn "Could not determine pnpm version. Using default.")
           called)
    end.
Proof.
  unfold Cli.getPnpmVersion, version_command,
    try_catch, bind, execSync, console_warn, ret.
  destruct (stat (fs w) (cwd w)) as [[c|]|]; [done | | done].
  by destruct (sh _ _ _) as [[out f]|].
Qed.

(** *** Scripts *)

Lemma steps_app l1 l2 : steps (l1 ++ l2) = steps l1 ++ steps l2.
Proof. apply omap_app. Qed.

Lemma new_events_app w w' evs :
  trace w' = trace w ++ evs → new_events w w' = evs.
Proof. intros H. unfold new_events. rewrite H. apply drop_app_length. Qed.

Section scripts.
Context {A B : Type}.
Implicit Types (c : M A) (k : A → M B) (l : list step).

Lemma script_eq a b c l l' :
  runs_script a b c l → l = l' → runs_script a b c l'.
Proof. by intros H <-. Qed.

Lemma script_ret a (x : A) : runs_script a a (ret x) [].
Proof.
  intros w r w' Hcwd [= <- <-]. exists []. by rewrite app_nil_r.
Qed.

Lemma script_bind a b d c k l1 l2 :
  runs_script a b c l1 → (∀ x, runs_script b d (k x) l2) →
  runs_script a d (bind c k) (l1 ++ l2).
Proof.
  intros Hc Hk w r w' Hcwd. unfold bind.
  destruct (c w) as [[x|e] w1] eqn:E.
  - destruct (Hc _ _ _ Hcwd E) as (evs1 & Ht1 & Hcwd1 & Hs1).
    intros Hrun. destruct (Hk x _ _ _ Hcwd1 Hrun) as (evs2 & Ht2 & Hr).
    exists (evs1 ++ evs2). split.
    + by rewrite Ht2, Ht1, app_assoc.
    + rewrite steps_app, Hs1. destruct r as [y|e].
      * destruct Hr as [? ->]. done.
      * by apply prefix_app.
  - intros [= <- <-].
    destruct (Hc _ _ _ Hcwd E) as (evs1 & Ht1 & Hpre).
    exists evs1. split; [done |]. by apply prefix_app_r.
Qed.

Lemma script_bind_ret a d (x : A) k l :
  runs_script a d (k x) l → runs_script a d (bind (ret x) k) l.
Proof. intros H w r w' Hcwd Hrun. by apply (H w r w' Hcwd). Qed.
End scripts.

Lemma script_silent {A} (c : M A) a (e : event) :
  step_of e = None →
  (∀ w, ∃ x, c w = (Ok x, emit e w)) →
  runs_script a a c [].
Proof.
  intros He Hc w r w' Hcwd Hrun. destruct (Hc w) as [x Hx].
  rewrite Hx in Hrun. injection Hrun as <- <-.
  exists [e]. split; [done |]. split; [done |].
  unfold steps. cbn. by rewrite He.
Qed.

Lemma script_log a msg : runs_script a a (console_log msg) [].
Proof. apply (script_silent _ _ (Log msg)); [done |]. intros w. by exists tt. Qed.

Lemma script_one {A} (c : M A) a b (e : event) (s : step) :
  step_of e = Some s →
  (∀ w, cwd w = a → ∃ r w1, c w = (r, w1) ∧ trace w1 = trace w ++ [e]
        ∧ match r with Ok _ => cwd w1 = b | Throw _ => True end) →
  runs_script a b c [s].
Proof.
  intros He Hc w r w' Hcwd Hrun.
  destruct (Hc w Hcwd) as (r1 & w1 & Hx & Ht & Hb).
  rewrite Hx in Hrun. injection Hrun as <- <-.
  exists [e]. split; [done |].
  assert (steps [e] = [s]) as -> by (unfold steps; cbn; by rewrite He).
  by destruct r1.
Qed.

Lemma script_mkdirSync a (p : path) recursive :
  runs_script a a (mkdirSync p recursive) [SMkdir (resolve a p)].
Proof.
  apply (script_one _ _ _ (Mkdir (resolve a p))); [done |].
  intros w <-. unfold mkdirSync. cbv zeta.
  repeat case_match; eauto.
Qed.

Lemma script_writeFileSync a (p : path) content :
  runs_script a a (writeFileSync p content) [SWrite (resolve a p)].
Proof.
  apply (script_one _ _ _ (WriteFile (resolve a p) content)); [done |].
  intros w <-. unfold writeFileSync. cbv zeta.
  repeat case_match; eauto.
Qed.

Lemma script_chdir a (p : path) :
  runs_script a (resolve a p) (process_chdir p) [SChdir (resolve a p)].
Proof.
  apply (script_one _ _ _ (Chdir (resolve a p))); [done |].
  intros w <-. unfold process_chdir. cbv zeta.
  repeat case_match; eauto.
Qed.

Lemma script_execSync sh a cmd (dir : option path) :
  runs_script a a (execSync sh cmd dir)
    [SExec cmd (match dir with Some p => resolve a p | None => a end)].
Proof.
  apply (script_one _ _ _
           (Exec cmd (match dir with Some p => resolve a p | None => a end)));
    [done |].
  intros w <-. unfold execSync. cbv zeta.
  repeat case_match; eauto.
Qed.

Lemma script_getPnpmVersion sh a :
  runs_script a a (Cli.getPnpmVersion sh) [SExec "pnpm --version" a].
Proof.
  intros w r w' <-. rewrite cli_getPnpmVersion_run.
  destruct (version_command sh w) as [[out f]|]; intros [= <- <-].
  - exists [Exec "pnpm --version" (cwd w)]. done.
  - exists [Exec "pnpm --version" (cwd w);
            Warn "Could not determine pnpm version. Using default."].
    split; [| done]. cbn. by rewrite <- app_assoc.
Qed.

Ltac script_call :=
  first [ apply script_mkdirSync | apply script_writeFileSync
        | apply script_log | apply script_execSync
        | apply script_getPnpmVersion | apply script_chdir
        | apply script_ret ].

Ltac script_run :=
  first [ script_call
        | eapply script_bind_ret; script_run
        | eapply script_bind; [ script_run | intros; script_run ] ].

(** The steps of [init], in the order of the code. *)
Lemma initializeMonorepo_script sh prettier_json (appName : string) base :
  let root := resolve base appName in
  runs_script base root (Cli.initializeMonorepo sh prettier_json appName)
    (workspace_steps root ++ db_steps root ++ queue_steps root).
Proof.
  intros root. eapply script_eq.
  { unfold Cli.initializeMonorepo, Cli.createPackage.
    cbv beta iota zeta delta [forEach Cli.dbFiles Cli.queueFiles].
    script_run. }
  reflexivity.
Qed.

(** The steps of [app <name>] when the type is ["next"]. *)
Lemma initializeApp_next_script sh pick (name : string) base :
  runs_script base base (Cli.initializeApp sh pick name (Some "next"))
    (next_steps base name).
Proof.
  eapply script_eq.
  { unfold Cli.initializeApp. cbn [Cli.missing default].
    rewrite bool_decide_eq_false_2 by done.
    eapply script_bind_ret. rewrite decide_True by done.
    script_run. }
  reflexivity.
Qed.

(** *** Runs that stop early *)

Lemma prefix_app_split {X} (l a b : list X) :
  l `prefix_of` a ++ b →
  (l `prefix_of` a) ∨ (∃ r, l = a ++ r ∧ r `prefix_of` b ∧ r ≠ []).
Proof.
  revert l. induction a as [|x a IH]; intros l Hl.
  - destruct l as [|y l]; [left; apply prefix_nil |].
    right. exists (y :: l). done.
  - destruct l as [|y l]; [left; apply prefix_nil |].
    cbn in Hl. apply prefix_cons_inv_1 in Hl as Hxy. subst y.
    apply prefix_cons_inv_2 in Hl.
    destruct (IH l Hl) as [Hpre | (r & -> & Hr & Hne)].
    + left. by apply prefix_cons.
    + right. by exists r.
Qed.

Lemma Forall_prefix {X} (P : X → Prop) (l l' : list X) :
  l `prefix_of` l' → Forall P l' → Forall P l.
Proof. intros [k ->] H. by apply Forall_app in H as [H _]. Qed.

(** *** Which unit a step belongs to *)

Ltac outside_unit :=
  let p := fresh "p" in
  let Hp := fresh "Hp" in
  let Hpre := fresh "Hpre" in
  intros (p & Hp & Hpre); cbn in Hp; injection Hp as <-;
  first [ by apply not_prefix_longer in Hpre
        | apply prefix_app_inv in Hpre; by destruct Hpre as [? [=]] ].

Ltac inside_unit :=
  eexists; split; [reflexivity |];
  first [ reflexivity | apply prefix_app; by eexists ].

Lemma workspace_steps_outside root :
  Forall (fun s => ¬ unit_step root "db" s ∧ ¬ unit_step root "queue" s)
    (workspace_steps root).
Proof.
  unfold workspace_steps.
  repeat (apply List.Forall_cons; [split; outside_unit |]).
  apply List.Forall_nil.
Qed.

Lemma db_steps_inside root :
  Forall (fun s => unit_step root "db" s ∧ ¬ unit_step root "queue" s)
    (db_steps root).
Proof.
  unfold db_steps, package_steps. cbn.
  repeat (apply List.Forall_cons; [split; [inside_unit | outside_unit] |]).
  apply List.Forall_nil.
Qed.

Lemma queue_steps_inside root :
  Forall (fun s => unit_step root "queue" s ∧ ¬ unit_step root "db" s)
    (queue_steps root).
Proof.
  unfold queue_steps, package_steps. cbn.
  repeat (apply List.Forall_cons; [split; [inside_unit | outside_unit] |]).
  apply List.Forall_nil.
Qed.

(** A run that issued the first steps of [a ++ b ++ c] has issued all
    of [a] before any of [b], and all of [b] before any of [c]. *)
Lemma prefix_three {X} (l a b c : list X) :
  l `prefix_of` a ++ b ++ c →
  ∃ la lb lc,
    l = la ++ lb ++ lc
    ∧ la `prefix_of` a ∧ lb `prefix_of` b ∧ lc `prefix_of` c
    ∧ (lb ≠ [] → la = a) ∧ (lc ≠ [] → la = a ∧ lb = b).
Proof.
  intros [Ha | (r & -> & [Hb | (r' & -> & Hc & Hne')]%prefix_app_split & Hne)]
    %prefix_app_split.
  - exists l, [], []. rewrite !app_nil_r. repeat split; try done;
      apply prefix_nil.
  - exists a, r, []. rewrite app_nil_r. repeat split; try done.
    apply prefix_nil.
  - exists a, b, r'. done.
Qed.

(** *** Files that survive *)

Lemma manifest_update_refl c : manifest_update c c.
Proof. intros o Ho. by exists o. Qed.

Lemma manifest_update_trans c1 c2 c3 :
  manifest_update c1 c2 → manifest_update c2 c3 → manifest_update c1 c3.
Proof.
  intros H12 H23 o Ho.
  destruct (H12 o Ho) as (o2 & Ho2 & Hk2).
  destruct (H23 o2 Ho2) as (o3 & Ho3 & Hk3).
  exists o3. split; [done |]. intros k Hk. by rewrite Hk3, Hk2.
Qed.

Lemma kept_refl q (f : FS) : kept q f f.
Proof. intros c Hc. exists c. auto. Qed.

Lemma kept_trans q (f1 f2 f3 : FS) :
  kept q f1 f2 → kept q f2 f3 → kept q f1 f3.
Proof.
  intros H12 H23 c Hc.
  destruct (H12 c Hc) as (c2 & Hc2 & Hrel2).
  destruct (H23 c2 Hc2) as (c3 & Hc3 & Hrel3).
  exists c3. split; [done |].
  destruct Hrel2 as [-> | [Hm H2]]; [done |].
  destruct Hrel3 as [-> | [_ H3]]; [by right |].
  right. split; [done |]. by eapply manifest_update_trans.
Qed.

Lemma kept_insert q q' n (f : FS) :
  q' ≠ q ∨ f !! q' = None → kept q f (<[q' := n]> f).
Proof.
  intros Hq c Hc. exists c. split; [| by left].
  rewrite lookup_insert_ne; [done |]. intros ->.
  destruct Hq as [? | Hnone]; [done | congruence].
Qed.

Lemma kept_mkdirp q d (f f' : FS) : mkdirp f d = Some f' → kept q f f'.
Proof.
  intros H c Hc. exists c. split; [| by left]. by eapply mkdirp_keeps.
Qed.

Lemma has_field_robust q k v :
  k ∉ dependency_fields → robust q (has_field k v).
Proof.
  intros Hk c c' (o & Ho & Hv) _ Hup.
  destruct (Hup o Ho) as (o' & Ho' & Hsame).
  exists o'. split; [done |]. by rewrite Hsame.
Qed.

Lemma robust_plain q P : ¬ is_manifest q → robust q P.
Proof. intros Hq c c' _ Hm. done. Qed.

Lemma file_with_kept q P (f f' : FS) :
  robust q P → file_with q P f → kept q f f' → file_with q P f'.
Proof.
  intros Hrob (c & Hc & HP) Hkept.
  destruct (Hkept c Hc) as (c' & Hc' & [-> | [Hm Hup]]).
  - by exists c.
  - exists c'. split; [done |]. by eapply Hrob.
Qed.

Section keeps_rules.
Context (root q : list string).

Lemma keeps_ret {A} (x : A) : keeps root q (ret x).
Proof. intros w r w' Hcwd [= <- <-]. split; [done | apply kept_refl]. Qed.

Lemma keeps_bind {A B} (c : M A) (k : A → M B) :
  keeps root q c → (∀ x, keeps root q (k x)) → keeps root q (bind c k).
Proof.
  intros Hc Hk w r w' Hcwd. unfold bind.
  destruct (c w) as [[x|e] w1] eqn:E.
  - destruct (Hc _ _ _ Hcwd E) as [Hcwd1 H1]. intros Hrun.
    destruct (Hk x _ _ _ Hcwd1 Hrun) as [Hcwd2 H2].
    split; [done |]. by eapply kept_trans.
  - intros [= <- <-]. by apply (Hc _ _ _ Hcwd E).
Qed.

Lemma keeps_log msg : keeps root q (console_log msg).
Proof. intros w r w' Hcwd [= <- <-]. split; [done | apply kept_refl]. Qed.

Lemma keeps_mkdirSync (p : path) recursive :
  keeps root q (mkdirSync p recursive).
Proof.
  intros w r w' Hcwd. unfold mkdirSync. cbv zeta.
  destruct recursive.
  - destruct (mkdirp _ _) as [f|] eqn:E; intros [= <- <-];
      (split; [done |]); [by eapply kept_mkdirp | apply kept_refl].
  - destruct (stat (fs w) (resolve (cwd w) p)) as [n|] eqn:E.
    { intros [= <- <-]. split; [done | apply kept_refl]. }
    destruct (stat (fs w) (removelast _)) as [[|]|]; intros [= <- <-];
      (split; [done |]); try apply kept_refl.
    apply kept_insert. right.
    by destruct (resolve (cwd w) p).
Qed.

Lemma keeps_writeFileSync (p : path) content :
  resolve root p ≠ q → keeps root q (writeFileSync p content).
Proof.
  intros Hne w r w' Hcwd. unfold writeFileSync. cbv zeta. rewrite Hcwd.
  destruct (stat (fs w) (resolve root p)) as [[|]|];
    destruct (stat (fs w) (removelast (resolve root p))) as [[|]|];
    intros [= <- <-]; (split; [done |]); try apply kept_refl;
    apply kept_insert; by left.
Qed.

Lemma keeps_execSync sh l cmd (dir : option path) :
  commands_keep sh l q →
  SExec cmd (match dir with Some p => resolve root p | None => root end) ∈ l →
  keeps root q (execSync sh cmd dir).
Proof.
  intros Hsh Hin w r w' Hcwd. unfold execSync. cbv zeta. rewrite Hcwd.
  destruct (stat (fs w) _) as [[|]|];
    try (intros [= <- <-]; split; [done | apply kept_refl]).
  destruct (sh _ _ _) as [[out f]|] eqn:E; intros [= <- <-];
    (split; [done |]); [| apply kept_refl].
  by eapply Hsh.
Qed.
End keeps_rules.

(** Two resolved paths that differ. *)
Ltac eval_paths :=
  repeat match goal with
         | |- context [path_of ?s] =>
             lazymatch s with
             | String _ _ =>
                 let v := eval vm_compute in (path_of s) in
                 change (path_of s) with v
             end
         end;
  cbn [resolve absolute comps join_paths path_dirname fmap list_fmap
       concat app removelast].

Ltac norm_paths :=
  eval_paths; rewrite ?app_nil_r, <- ?app_assoc; cbn [app].

Ltac path_neq :=
  norm_paths;
  let Heq := fresh "Heq" in
  intros Heq;
  repeat first [ discriminate Heq
               | apply app_inv_head in Heq
               | injection Heq as Heq ].

(** A command of the call is among the steps of the run. *)
Ltac in_script :=
  unfold init_steps, workspace_steps, db_steps, queue_steps, package_steps,
    node_steps;
  eval_paths; cbn [app concat fmap list_fmap];
  rewrite ?app_nil_r, <- ?app_assoc; cbn [app];
  repeat first [ apply list_elem_of_here | apply list_elem_of_further ].

Ltac keeps_call :=
  first [ apply keeps_ret | apply keeps_log | apply keeps_mkdirSync
        | eapply keeps_execSync; [ eassumption | in_script ]
        | apply keeps_writeFileSync; path_neq ].

Ltac keeps_run :=
  first [ keeps_call
        | eapply keeps_bind; [ keeps_run | intros; keeps_run ] ].

Ltac unfold_calls :=
  unfold Cli.createPackage;
  cbv beta iota zeta delta [forEach Cli.dbFiles Cli.queueFiles].

(** *** Files that are established *)

Section establish_rules.
Context {A B : Type}.

Lemma returns_keeps root q (c : M A) :
  keeps root q c → returns root root c (fun _ => True).
Proof. intros H w a w' Hcwd Hrun. by destruct (H _ _ _ Hcwd Hrun). Qed.

Lemma est_write root q P (p : path) content :
  q = resolve root p → P content →
  establishes root root q P (writeFileSync p content).
Proof.
  intros -> HP w a w' Hcwd. unfold writeFileSync. cbv zeta. rewrite Hcwd.
  destruct (stat (fs w) (resolve root p)) as [[|]|];
    destruct (stat (fs w) (removelast (resolve root p))) as [[|]|];
    intros [= <- <-]; (split; [done |]);
    exists content; (split; [apply lookup_insert_eq | done]).
Qed.

Lemma est_bind_l before after q P (c : M A) (k : A → M B) :
  robust q P →
  establishes before after q P c → (∀ x, keeps after q (k x)) →
  establishes before after q P (bind c k).
Proof.
  intros Hrob Hc Hk w b w' Hcwd Hrun.
  apply bind_Ok in Hrun as (a & w1 & Hc1 & Hk1).
  destruct (Hc _ _ _ Hcwd Hc1) as [Hcwd1 Hfile].
  destruct (Hk a _ _ _ Hcwd1 Hk1) as [Hcwd2 Hkept].
  split; [done |]. by eapply file_with_kept.
Qed.

Lemma est_bind_r before mid after q P (c : M A) (k : A → M B) Q :
  returns before mid c Q →
  (∀ x, Q x → establishes mid after q P (k x)) →
  establishes before after q P (bind c k).
Proof.
  intros Hc Hk w b w' Hcwd Hrun.
  apply bind_Ok in Hrun as (a & w1 & Hc1 & Hk1).
  destruct (Hc _ _ _ Hcwd Hc1) as [Hcwd1 HQ].
  by apply (Hk a HQ _ _ _ Hcwd1 Hk1).
Qed.
End establish_rules.

Lemma returns_script {A} a b (c : M A) l :
  runs_script a b c l → returns a b c (fun _ => True).
Proof.
  intros H w x w' Hcwd Hrun.
  by destruct (H w (Ok x) w' Hcwd Hrun) as (evs & _ & Hb & _).
Qed.

Lemma returns_mkdirSync a (p : path) recursive :
  returns a a (mkdirSync p recursive) (fun _ => True).
Proof. apply (returns_keeps _ []), keeps_mkdirSync. Qed.

Lemma returns_chdir a (p : path) :
  returns a (resolve a p) (process_chdir p) (fun _ => True).
Proof.
  intros w x w' <-. unfold process_chdir. cbv zeta.
  destruct (stat (fs w) _) as [[|]|]; intros H; inversion H; by subst.
Qed.

Lemma est_bind_ret {A B} before after q P (x : A) (k : A → M B) :
  establishes before after q P (k x) →
  establishes before after q P (bind (ret x) k).
Proof. intros H w b w' Hcwd Hrun. by apply (H w b w' Hcwd). Qed.

Lemma has_field_stringify k v o :
  serializable (JObj o) = true → obj_get k o = Some v →
  has_field k v (JSON_stringify (JObj o) 2).
Proof. intros Hs Hk. exists o. split; [by apply parse_stringify | done]. Qed.

Lemma file_with_field q k v (f : FS) :
  file_with q (has_field k v) f →
  ∃ m, read_json f q = Some m ∧ field k m = Some v.
Proof.
  intros (c & Hc & o & Ho & Hk). exists (JObj o). unfold read_json.
  by rewrite Hc.
Qed.

Lemma not_manifest l x : x ≠ "package.json" → ¬ is_manifest (l ++ [x]).
Proof. unfold is_manifest. rewrite last_snoc. congruence. Qed.

Ltac not_dependency :=
  let H := fresh "H" in
  intros H; unfold dependency_fields in H;
  repeat (apply elem_of_cons in H as [H|H]; [discriminate H |]);
  by apply elem_of_nil in H.

(** Skip a call that comes before the write of interest. *)
Ltac est_skip :=
  eapply est_bind_r; [ eapply returns_script; script_run | intros ? _ ].

(** The write of interest, and the calls after it. *)
Ltac est_here :=
  eapply est_bind_l;
  [ | apply est_write; [ norm_paths; reflexivity | ] | intros; keeps_run ].

(** *** Calls that returned *)

Lemma mkdirSync_plain_Ok (p : path) w x w' :
  mkdirSync p false w = (Ok x, w') →
  cwd w' = cwd w ∧ fs w' = <[resolve (cwd w) p := Dir]> (fs w).
Proof.
  unfold mkdirSync. cbv zeta.
  destruct (stat (fs w) (resolve (cwd w) p)); [done |].
  destruct (stat (fs w) (removelast _)) as [[|]|]; [done | | done].
  by intros [= _ <-].
Qed.

Lemma writeFileSync_Ok (p : path) content w x w' :
  writeFileSync p content w = (Ok x, w') →
  cwd w' = cwd w ∧ fs w' = <[resolve (cwd w) p := File content]> (fs w).
Proof.
  unfold writeFileSync. cbv zeta.
  destruct (stat (fs w) (resolve (cwd w) p)) as [[|]|];
    destruct (stat (fs w) (removelast (resolve (cwd w) p))) as [[|]|];
    try done; by intros [= _ <-].
Qed.

Lemma chdir_Ok (p : path) w x w' :
  process_chdir p w = (Ok x, w') →
  cwd w' = resolve (cwd w) p ∧ fs w' = fs w.
Proof.
  unfold process_chdir. cbv zeta.
  destruct (stat (fs w) (resolve (cwd w) p)) as [[|]|]; [done | | done].
  by intros [= _ <-].
Qed.

Lemma at_detection_root (f : FS) root :
  stat (at_detection f root) root = Some Dir.
Proof.
  destruct (decide (root = [])) as [-> | Hne]; [done |].
  rewrite stat_lookup by done. unfold at_detection.
  assert (Hlonger : ∀ x : string, root ++ [x] ≠ root).
  { intros x H. apply (f_equal length) in H. rewrite length_app in H.
    cbn in H. lia. }
  rewrite !lookup_insert_ne by apply Hlonger.
  apply lookup_insert_eq.
Qed.

(** The version [init] writes is the one detected in the world that the
    calls before the detection have made. *)
Lemma getPnpmVersion_detected sh root f w v w' :
  cwd w = root → fs w = at_detection f root →
  Cli.getPnpmVersion sh w = (Ok v, w') →
  cwd w' = root ∧ v = detected_version sh root f.
Proof.
  intros Hcwd Hfs. rewrite cli_getPnpmVersion_run.
  unfold version_command, detected_version. rewrite Hcwd, Hfs.
  rewrite at_detection_root.
  destruct (sh _ _ _) as [[out f']|]; by intros [= <- <-].
Qed.

Section workspace.
Context (sh : string → list string → FS → option (string * FS))
        (prettier_json : string → string).
Context (appName : string) (base : list string).

Lemma init_root_manifest w w' :
  commands_keep sh (init_steps (resolve base appName))
    (resolve base appName ++ ["package.json"]) →
  cwd w = base →
  Cli.initializeMonorepo sh prettier_json appName w = (Ok tt, w') →
  file_with (resolve base appName ++ ["package.json"])
    (has_field "packageManager"
       (JStr ("pnpm@"
              +:+ detected_version sh (resolve base appName) (fs w))))
    (fs w').
Proof.
  intros Hkeep Hcwd Hrun.
  unfold Cli.initializeMonorepo, Cli.createPackage in Hrun.
  cbv beta iota zeta delta [forEach Cli.dbFiles Cli.queueFiles] in Hrun.
  apply bind_Ok in Hrun as (x1 & w1 & H1 & Hrun).
  apply bind_Ok in Hrun as (x2 & w2 & H2 & Hrun).
  apply bind_Ok in Hrun as (x3 & w3 & H3 & Hrun).
  apply bind_Ok in Hrun as (x4 & w4 & H4 & Hrun).
  apply bind_Ok in Hrun as (x5 & w5 & H5 & Hrun).
  apply bind_Ok in Hrun as (v & w6 & H6 & Hrun).
  cbv beta in Hrun.
  apply mkdirSync_plain_Ok in H1 as [Hc1 Hf1].
  apply chdir_Ok in H2 as [Hc2 Hf2].
  apply writeFileSync_Ok in H3 as [Hc3 Hf3].
  apply mkdirSync_plain_Ok in H4 as [Hc4 Hf4].
  apply mkdirSync_plain_Ok in H5 as [Hc5 Hf5].
  rewrite Hc1, Hcwd in Hc2.
  rewrite Hc2 in Hc3. rewrite Hc3 in Hc4. rewrite Hc4 in Hc5.
  assert (Hfs : fs w5 = at_detection (fs w) (resolve base appName)).
  { rewrite Hf5, Hc4, Hf4, Hc3, Hf3, Hc2, Hf2, Hf1, Hcwd.
    unfold at_detection. norm_paths. reflexivity. }
  destruct (getPnpmVersion_detected _ _ _ _ _ _ Hc5 Hfs H6) as [Hc6 ->].
  match type of Hrun with
  | ?c w6 = _ =>
      assert (Hest : establishes (resolve base appName) (resolve base appName)
                       (resolve base appName ++ ["package.json"])
                       (has_field "packageManager"
                          (JStr ("pnpm@"
                                 +:+ detected_version sh
                                       (resolve base appName) (fs w))))
                       c)
  end.
  { est_here.
    - apply has_field_robust; not_dependency.
    - by apply has_field_stringify. }
  by destruct (Hest w6 tt w' Hc6 Hrun).
Qed.

Lemma init_turbo_config :
  commands_keep sh (init_steps (resolve base appName))
    (resolve base appName ++ ["turbo.json"]) →
  formatter_ok prettier_json →
  establishes base (resolve base appName)
    (resolve base appName ++ ["turbo.json"])
    (fun c => JSON_parse c = Some Cli.turboConfig)
    (Cli.initializeMonorepo sh prettier_json appName).
Proof.
  intros Hkeep Hformat.
  unfold Cli.initializeMonorepo. unfold_calls.
  do 9 est_skip.
  est_here.
  - by apply robust_plain, (not_manifest (resolve base appName)).
  - by apply Hformat, parse_stringify.
Qed.

Lemma init_db_manifest :
  commands_keep sh (init_steps (resolve base appName))
    (resolve base appName ++ ["packages"; "db"; "package.json"]) →
  establishes base (resolve base appName)
    (resolve base appName ++ ["packages"; "db"; "package.json"])
    (has_field "name" (JStr "@repo/db"))
    (Cli.initializeMonorepo sh prettier_json appName).
Proof.
  intros Hkeep.
  unfold Cli.initializeMonorepo. unfold_calls.
  do 21 est_skip.
  eapply est_bind_l;
    [apply has_field_robust; not_dependency | | intros; keeps_run].
  do 2 est_skip.
  est_here.
  - apply has_field_robust; not_dependency.
  - by apply has_field_stringify.
Qed.

Lemma init_queue_manifest :
  commands_keep sh (init_steps (resolve base appName))
    (resolve base appName ++ ["packages"; "queue"; "package.json"]) →
  establishes base (resolve base appName)
    (resolve base appName ++ ["packages"; "queue"; "package.json"])
    (has_field "name" (JStr "@repo/queue"))
    (Cli.initializeMonorepo sh prettier_json appName).
Proof.
  intros Hkeep.
  unfold Cli.initializeMonorepo. unfold_calls.
  do 25 est_skip.
  eapply est_bind_l;
    [apply has_field_robust; not_dependency | | intros; keeps_run].
  do 2 est_skip.
  est_here.
  - apply has_field_robust; not_dependency.
  - by apply has_field_stringify.
Qed.
End workspace.

Ltac plain_file :=
  apply robust_plain; norm_paths; unfold is_manifest;
  rewrite ?last_app, ?last_cons, ?last_app; cbn; congruence.

Section application.
Context (sh : string → list string → FS → option (string * FS))
        (pick : string → nat).
Context (name : string) (base : list string).

Lemma app_node_greeting :
  commands_keep sh (node_steps base name)
    (resolve base (path_join ("apps", name, "src", "index.ts"))) →
  establishes base base
    (resolve base (path_join ("apps", name, "src", "index.ts")))
    (fun c => c = Cli.appIndexTs)
    (Cli.initializeApp sh pick name (Some "node")).
Proof.
  intros Hkeep.
  unfold Cli.initializeApp. cbn [Cli.missing default].
  rewrite bool_decide_eq_false_2 by done. apply est_bind_ret.
  rewrite decide_False, decide_True by done.
  est_skip.
  eapply est_bind_l; [plain_file | | intros; keeps_run].
  do 4 est_skip.
  est_here; [plain_file | done].
Qed.

Lemma app_node_manifest :
  commands_keep sh (node_steps base name)
    (resolve base (path_join ("apps", name, "package.json"))) →
  establishes base base
    (resolve base (path_join ("apps", name, "package.json")))
    (has_field "name" (JStr ("@repo/" +:+ name)))
    (Cli.initializeApp sh pick name (Some "node")).
Proof.
  intros Hkeep.
  unfold Cli.initializeApp. cbn [Cli.missing default].
  rewrite bool_decide_eq_false_2 by done. apply est_bind_ret.
  rewrite decide_False, decide_True by done.
  est_skip.
  eapply est_bind_l;
    [apply has_field_robust; not_dependency | | intros; keeps_run].
  est_here.
  - apply has_field_robust; not_dependency.
  - by apply has_field_stringify.
Qed.
End application.

(** *** The example shell *)

(** The shell that writes lock files and edits manifests keeps every
    file but the lock files. *)
Lemma pnpm_like_keeps (l : list step) (q : list string) :
  last q ≠ Some "pnpm-lock.yaml" → commands_keep Examples.pnpm_like l q.
Proof.
  intros Hq cmd d f out f' _. unfold Examples.pnpm_like.
  case_decide; [intros [= _ <-]; apply kept_refl |]. cbv zeta.
  set (locked := <[d ++ ["pnpm-lock.yaml"] := _]> f).
  assert (Hlocked : kept q f locked).
  { apply kept_insert. left. intros <-. by rewrite last_snoc in Hq. }
  destruct (f !! (d ++ ["package.json"])) as [[c|]|] eqn:Hc;
    try (intros [= _ <-]; exact Hlocked).
  destruct (JSON_parse c) as [[| b | n | t | items | o]|] eqn:Hp;
    try (intros [= _ <-]; exact Hlocked).
  destruct (serializable _) eqn:Hs; intros [= _ <-]; [| exact Hlocked].
  apply (kept_trans _ _ locked); [exact Hlocked |].
  intros c0 Hc0.
  destruct (decide (q = d ++ ["package.json"])) as [-> | Hne].
  - assert (c0 = c) as ->.
    { unfold locked in Hc0.
      rewrite lookup_insert_ne in Hc0
        by (intros Heq; by apply app_inv_head in Heq).
      congruence. }
    eexists. split; [apply lookup_insert_eq |]. right. split.
    + unfold is_manifest. by rewrite last_snoc.
    + intros o0 Ho0. rewrite Hp in Ho0. injection Ho0 as <-.
      eexists. split; [by apply parse_stringify |].
      intros k Hk. rewrite obj_get_set. rewrite decide_False; [done |].
      intros ->. apply Hk. unfold dependency_fields. by left.
  - exists c0. split; [by rewrite lookup_insert_ne | by left].
Qed.

End RunFacts.

Module Claims.
Import Text Json Node Spec Examples TextFacts JsonFacts NodeFacts RunFacts.
Local Open Scope js_scope.

(** *** Version detection *)

(** C5. Version detection never throws: when [pnpm --version] runs, the
    result is its trimmed output; when it fails for any reason, a warning
    is logged and the result is the fixed fallback, ["9.15.4"] in
    [utils/index.ts] and ["9.7.0"] in [index.ts]. *)
Theorem getPnpmVersion_recovers sh (w : World) :
  let called := emit (Exec "pnpm --version" (cwd w)) w in
  let warned :=
    emit (Warn "Could not determine pnpm version. Using default.") called in
  Utils.getPnpmVersion sh w
  = match version_command sh w with
    | Some (out, f) => (Ok (trim out), set_fs called f)
    | None => (Ok "9.15.4", warned)
    end
  ∧ Cli.getPnpmVersion sh w
    = match version_command sh w with
      | Some (out, f) => (Ok (trim out), set_fs called f)
      | None => (Ok "9.7.0", warned)
      end.
Proof.
  split; [apply utils_getPnpmVersion_run | apply cli_getPnpmVersion_run].
Qed.

(** C9, as stated, fails: when the version command fails the two
    implementations return different strings. *)
Lemma getPnpmVersion_copies_differ :
  ¬ (∀ sh w, (Utils.getPnpmVersion sh w).1 = (Cli.getPnpmVersion sh w).1).
Proof. intros H. specialize (H no_shell home). discriminate H. Qed.

(** C9, amended. The two implementations of version detection agree
    whenever the version command succeeds, and leave the same world in
    every case; when the command fails, [utils/index.ts] returns
    ["9.15.4"] and [index.ts] returns ["9.7.0"]. *)
Theorem getPnpmVersion_copies_agree_on_success sh (w : World) :
  (Utils.getPnpmVersion sh w).2 = (Cli.getPnpmVersion sh w).2
  ∧ match version_command sh w with
    | Some (out, _) =>
        (Utils.getPnpmVersion sh w).1 = Ok (trim out)
        ∧ (Cli.getPnpmVersion sh w).1 = Ok (trim out)
    | None =>
        (Utils.getPnpmVersion sh w).1 = Ok "9.15.4"
        ∧ (Cli.getPnpmVersion sh w).1 = Ok "9.7.0"
    end.
Proof.
  rewrite utils_getPnpmVersion_run, cli_getPnpmVersion_run.
  by destruct (version_command sh w) as [[out f]|].
Qed.

(** *** Template materialization *)

(** C3. When the template directory does not exist,
    [copyCliPackageTemplate] returns normally after logging an error and
    leaves the file system as it was: nothing is created or changed. *)
Theorem copyCliPackageTemplate_missing_template
    (templateType packageName monorepoRoot : string) (repo : Utils.Repo)
    (cliRoot : string) (w : World) :
  let templateDir := path_join (cliRoot, "templates", templateType) in
  let targetDir :=
    path_join (monorepoRoot, Utils.repo_dir repo, packageName) in
  stat (fs w) (resolve (cwd w) templateDir) = None →
  ∃ w',
    Utils.copyCliPackageTemplate templateType packageName monorepoRoot repo
      cliRoot w = (Ok tt, w')
    ∧ fs w' = fs w
    ∧ cwd w' = cwd w
    ∧ new_events w w'
      = [Log ("📂 Template Source (CLI Program): " +:+ show_path templateDir);
         Log ("📂 Target Destination (Monorepo): " +:+ show_path targetDir);
         Error ("❌ Template directory not found: "
                +:+ show_path templateDir)].
Proof.
  intros templateDir targetDir Hmissing.
  eexists. split.
  - unfold Utils.copyCliPackageTemplate, bind, console_log, existsSync.
    cbn [fs cwd emit]. fold templateDir. rewrite Hmissing.
    rewrite bool_decide_eq_false_2 by (intros [? ?]; done).
    reflexivity.
  - cbn [fs cwd trace emit]. repeat split.
    unfold new_events, emit. cbn [trace]. rewrite <- !app_assoc.
    by rewrite drop_app_length.
Qed.

Lemma copyCliPackageTemplate_missing_template_witness :
  ∃ w',
    Utils.copyCliPackageTemplate "db" "db" "/home/demo" Utils.packages
      "/opt/cli" home = (Ok tt, w')
    ∧ fs w' = fs home.
Proof.
  destruct (copyCliPackageTemplate_missing_template "db" "db" "/home/demo"
              Utils.packages "/opt/cli" home) as (w' & H & Hfs & _).
  - vm_compute. reflexivity.
  - exists w'. by split.
Defined.

(** *** JSON files *)

(** C2. Round trip: whenever [writeJsonFile] has written a value to a
    path, [readJsonFile] on that path returns the value, although
    [writeFile] trims the text it writes; and the write goes through
    whenever the path can be written. *)
Theorem writeJsonFile_readJsonFile_roundtrip (p : path) (v : json) (w : World) :
  serializable v = true →
  (∀ w', Utils.writeJsonFile p v w = (Ok tt, w') →
         Utils.readJsonFile p w' = (Ok v, w'))
  ∧ (writable w p → ∃ w', Utils.writeJsonFile p v w = (Ok tt, w')).
Proof.
  intros Hv. split.
  - intros w' Hrun.
    apply writeJsonFile_stores in Hrun as (Hp & _ & Hread & _); [| done].
    by apply readJsonFile_stored.
  - intros Hw. by apply writeFile_ok.
Qed.

Lemma writeJsonFile_readJsonFile_roundtrip_witness :
  serializable sample = true
  ∧ ∃ w', Utils.writeJsonFile "data/sample.json" sample home = (Ok tt, w')
          ∧ Utils.readJsonFile "data/sample.json" w' = (Ok sample, w').
Proof.
  split; [reflexivity |].
  destruct (writeJsonFile_readJsonFile_roundtrip "data/sample.json" sample
              home eq_refl) as [Hread Hwrite].
  destruct Hwrite as [w' Hw'].
  - split; [by vm_compute |].
    split; [apply is_Some_true; by vm_compute | by vm_compute].
  - exists w'. split; [done |]. by apply Hread.
Defined.

Lemma updateJsonFile_step (p : path) (cur new : json) (w : World) :
  writable w p → current_data w p cur →
  serializable (spread cur new) = true →
  ∃ w', Utils.updateJsonFile p new w = (Ok tt, w')
        ∧ cwd w' = cwd w
        ∧ writable w' p
        ∧ read_json (fs w') (resolve (cwd w') p) = Some (spread cur new).
Proof.
  intros Hw Hcur Hser.
  assert (Hp : comps p ≠ []) by apply Hw.
  assert (Hread : (x ← Some cur; Some x) = Some cur) by done.
  assert (Hfirst : ∀ k : json → M unit,
    (found <- Utils.fileExists p;;
     currentData <- (if found then Utils.readJsonFile p
                     else ret (JObj []));;
     k currentData) w = k cur w).
  { intros k. unfold Utils.fileExists, bind at 1, existsSync.
    rewrite stat_lookup by by apply resolve_nonempty.
    destruct Hcur as [[Habs ->] | Hstored].
    - unfold absent in Habs. rewrite Habs.
      rewrite bool_decide_eq_false_2 by (intros [? ?]; done). done.
    - rewrite bool_decide_eq_true_2.
      + by rewrite (bind_run _ _ _ _ _ (readJsonFile_stored p w cur Hp Hstored)).
      + unfold read_json in Hstored.
        destruct (fs w !! resolve (cwd w) p); [eauto | done]. }
  unfold Utils.updateJsonFile. rewrite Hfirst.
  destruct (writeFile_ok p (JSON_stringify (spread cur new) 2) w Hw)
    as [w' Hw'].
  exists w'. split; [done |].
  apply writeJsonFile_stores in Hw' as (_ & Hcwd & Hstored & Hw''); done.
Qed.

(** C1. [updateJsonFile] is a shallow merge. At a path that can be
    written, whatever data is current there, the file holds the spread
    of the current and the new data afterwards, in which each property
    of the new data replaces the property of that name as a whole. From
    a path where nothing is stored: [{a:1}] then [{b:2}] leaves
    [{a:1, b:2}], then [{a:3}] leaves [{a:3, b:2}], and [{a:{x:1}}] then
    [{a:{y:2}}] leaves [{a:{y:2}}]. *)
Theorem updateJsonFile_shallow_merge (p : path) (w : World) :
  writable w p →
  (∀ cur new, current_data w p cur → serializable (spread cur new) = true →
     ∃ w', Utils.updateJsonFile p new w = (Ok tt, w')
           ∧ Utils.readJsonFile p w' = (Ok (spread cur new), w'))
  ∧ (∀ cur new k, NoDup (own_props new).*1 →
       field k (spread cur new)
       = match obj_get k (own_props new) with
         | Some v => Some v
         | None => obj_get k (own_props cur)
         end)
  ∧ (absent w p →
     (∃ w', (Utils.updateJsonFile p (JObj [("a", JNum 1)]);;
             Utils.updateJsonFile p (JObj [("b", JNum 2)]);;
             Utils.readJsonFile p) w
            = (Ok (JObj [("a", JNum 1); ("b", JNum 2)]), w'))
     ∧ (∃ w', (Utils.updateJsonFile p (JObj [("a", JNum 1)]);;
               Utils.updateJsonFile p (JObj [("b", JNum 2)]);;
               Utils.updateJsonFile p (JObj [("a", JNum 3)]);;
               Utils.readJsonFile p) w
              = (Ok (JObj [("a", JNum 3); ("b", JNum 2)]), w'))
     ∧ (∃ w', (Utils.updateJsonFile p (JObj [("a", JObj [("x", JNum 1)])]);;
               Utils.updateJsonFile p (JObj [("a", JObj [("y", JNum 2)])]);;
               Utils.readJsonFile p) w
              = (Ok (JObj [("a", JObj [("y", JNum 2)])]), w'))).
Proof.
  intros Hw. assert (Hp : comps p ≠ []) by apply Hw.
  split; [| split].
  - intros cur new Hcur Hser.
    destruct (updateJsonFile_step p cur new w Hw Hcur Hser)
      as (w' & Hrun & _ & _ & Hstored).
    exists w'. split; [done |]. by apply readJsonFile_stored.
  - intros cur new k. apply field_spread.
  - intros Habs.
    assert (Hcur : current_data w p (JObj [])) by by left.
    split; [| split].
    + destruct (updateJsonFile_step p _ (JObj [("a", JNum 1)]) w Hw Hcur
                  eq_refl) as (w1 & H1 & _ & Hw1 & Hs1).
      destruct (updateJsonFile_step p _ (JObj [("b", JNum 2)]) w1 Hw1
                  (or_intror Hs1) eq_refl) as (w2 & H2 & _ & Hw2 & Hs2).
      exists w2. rewrite (bind_run _ _ _ _ _ H1), (bind_run _ _ _ _ _ H2).
      by apply readJsonFile_stored.
    + destruct (updateJsonFile_step p _ (JObj [("a", JNum 1)]) w Hw Hcur
                  eq_refl) as (w1 & H1 & _ & Hw1 & Hs1).
      destruct (updateJsonFile_step p _ (JObj [("b", JNum 2)]) w1 Hw1
                  (or_intror Hs1) eq_refl) as (w2 & H2 & _ & Hw2 & Hs2).
      destruct (updateJsonFile_step p _ (JObj [("a", JNum 3)]) w2 Hw2
                  (or_intror Hs2) eq_refl) as (w3 & H3 & _ & Hw3 & Hs3).
      exists w3. rewrite (bind_run _ _ _ _ _ H1), (bind_run _ _ _ _ _ H2),
        (bind_run _ _ _ _ _ H3).
      by apply readJsonFile_stored.
    + destruct (updateJsonFile_step p _ (JObj [("a", JObj [("x", JNum 1)])])
                  w Hw Hcur eq_refl) as (w1 & H1 & _ & Hw1 & Hs1).
      destruct (updateJsonFile_step p _ (JObj [("a", JObj [("y", JNum 2)])])
                  w1 Hw1 (or_intror Hs1) eq_refl)
        as (w2 & H2 & _ & Hw2 & Hs2).
      exists w2. rewrite (bind_run _ _ _ _ _ H1), (bind_run _ _ _ _ _ H2).
      by apply readJsonFile_stored.
Qed.

Lemma updateJsonFile_shallow_merge_witness :
  writable home "conf/settings.json"
  ∧ absent home "conf/settings.json"
  ∧ ∃ w', (Utils.updateJsonFile "conf/settings.json" (JObj [("a", JNum 1)]);;
           Utils.updateJsonFile "conf/settings.json" (JObj [("b", JNum 2)]);;
           Utils.updateJsonFile "conf/settings.json" (JObj [("a", JNum 3)]);;
           Utils.readJsonFile "conf/settings.json") home
          = (Ok (JObj [("a", JNum 3); ("b", JNum 2)]), w').
Proof.
  assert (Hw : writable home "conf/settings.json").
  { split; [by vm_compute |].
    split; [apply is_Some_true; by vm_compute | by vm_compute]. }
  assert (Ha : absent home "conf/settings.json") by by vm_compute.
  split; [done |]. split; [done |].
  destruct (updateJsonFile_shallow_merge "conf/settings.json" home Hw)
    as (_ & _ & Hscen).
  by destruct (Hscen Ha) as (_ & H & _).
Defined.

(** C4. When the template directory exists and [copyCliPackageTemplate]
    returns, the target directory exists, every file below the template
    directory is at the same relative path below the target, with the
    content it has in the template whatever was there before, and what
    has no counterpart in the template is in the target as it was. *)
Theorem copyCliPackageTemplate_copies
    (templateType packageName monorepoRoot : string) (repo : Utils.Repo)
    (cliRoot : string) (w w' : World) :
  let s := resolve (cwd w) (path_join (cliRoot, "templates", templateType)) in
  let d := resolve (cwd w)
             (path_join (monorepoRoot, Utils.repo_dir repo, packageName)) in
  is_Some (stat (fs w) s) →
  Utils.copyCliPackageTemplate templateType packageName monorepoRoot repo
    cliRoot w = (Ok tt, w') →
  stat (fs w') d = Some Dir
  ∧ (∀ rel c, fs w !! (s ++ rel) = Some (File c) →
              fs w' !! (d ++ rel) = Some (File c))
  ∧ (∀ rel, fs w !! (s ++ rel) = None →
            fs w' !! (d ++ rel) = fs w !! (d ++ rel)).
Proof.
  intros s d Hsrc Hrun.
  unfold Utils.copyCliPackageTemplate in Hrun.
  apply bind_Ok in Hrun as ([] & w1 & [= <-] & Hrun).
  apply bind_Ok in Hrun as ([] & w2 & [= <-] & Hrun).
  apply bind_Ok in Hrun as (found & w3 & [= <- <-] & Hrun).
  cbn [fs cwd emit] in Hrun. fold s in Hrun.
  rewrite bool_decide_eq_true_2 in Hrun by done. cbn [negb] in Hrun.
  apply bind_Ok in Hrun as ([] & w4 & Hmk & Hrun).
  apply bind_Ok in Hrun as ([] & w5 & Hcp & Hlog).
  injection Hlog as <-. cbn [fs emit].
  apply mkdirSync_recursive_inv in Hmk as [Hcwd4 Hmk].
  cbn [fs cwd emit] in Hcwd4, Hmk. fold d in Hmk.
  apply copySync_dir_inv in Hcp as (Hsdir & Hpre & _ & f1 & Hf1 & Hcopy);
    rewrite Hcwd4 in *; cbn [cwd emit] in *;
    [| fold d; by apply (mkdirp_dir _ _ _ Hmk)].
  fold s in Hsdir, Hpre, Hcopy. fold d in Hpre, Hf1, Hcopy.
  exact (copy_tree_spec s d (fs w) (fs w4) f1 (fs w5) Hmk Hsdir Hpre Hf1 Hcopy).
Qed.

Lemma with_template_source :
  is_Some (stat (fs with_template)
             (resolve (cwd with_template)
                (path_join ("/opt/cli", "templates", "db")))).
Proof. apply is_Some_true. by vm_compute. Qed.

Lemma with_template_run :
  (Utils.copyCliPackageTemplate "db" "db" "/home/demo" Utils.packages
     "/opt/cli" with_template).1 = Ok tt.
Proof. by vm_compute. Qed.

Lemma copyCliPackageTemplate_copies_witness :
  let w' := (Utils.copyCliPackageTemplate "db" "db" "/home/demo"
               Utils.packages "/opt/cli" with_template).2 in
  fs w' !! ["home"; "demo"; "packages"; "db"; "index.ts"]
  = Some (File "export {};")
  ∧ fs w' !! ["home"; "demo"; "packages"; "db"; "prisma"; "schema.prisma"]
    = Some (File "generator client {}")
  ∧ fs w' !! ["home"; "demo"; "packages"; "db"; "notes.md"]
    = Some (File "keep me").
Proof.
  intros w'.
  destruct (copyCliPackageTemplate_copies "db" "db" "/home/demo"
              Utils.packages "/opt/cli" with_template w'
              with_template_source (run_Ok _ tt with_template_run))
    as (_ & Hfiles & Hframe).
  split; [| split].
  - by apply (Hfiles ["index.ts"]).
  - by apply (Hfiles ["prisma"; "schema.prisma"]).
  - etrans; [apply (Hframe ["notes.md"]) |]; by vm_compute.
Defined.

(** *** The order of the package units *)

(** C8. In every run of [init], finished or stopped by a failure, the
    steps come in three blocks: steps outside the two package units,
    then steps of the db unit, then steps of the queue unit. No block
    contains a step of another unit, and as soon as there is a step of
    the queue unit the db block is the whole realization of the db unit:
    directories, manifest, configuration, source files and its three
    installs. *)
Theorem init_realizes_db_before_queue sh prettier_json (appName : string)
    (w : World) :
  let run := Cli.initializeMonorepo sh prettier_json appName w in
  let root := resolve (cwd w) appName in
  ∃ pre dbs qs,
    steps (new_events w run.2) = pre ++ dbs ++ qs
    ∧ Forall (fun s => ¬ unit_step root "db" s ∧ ¬ unit_step root "queue" s)
        pre
    ∧ Forall (fun s => unit_step root "db" s ∧ ¬ unit_step root "queue" s)
        dbs
    ∧ Forall (fun s => unit_step root "queue" s ∧ ¬ unit_step root "db" s)
        qs
    ∧ (qs ≠ [] → dbs = db_steps root)
    ∧ (run.1 = Ok tt → dbs = db_steps root ∧ qs = queue_steps root).
Proof.
  intros run root.
  destruct run as [r w'] eqn:Hrun. unfold run in Hrun. cbn [fst snd].
  destruct (initializeMonorepo_script sh prettier_json appName (cwd w)
              w r w' eq_refl Hrun) as (evs & Htrace & Hr).
  rewrite (new_events_app _ _ _ Htrace). fold root in Hr.
  assert (Hpre : steps evs `prefix_of`
                   workspace_steps root ++ db_steps root ++ queue_steps root).
  { destruct r as [[]|e]; [| done]. by destruct Hr as [_ ->]. }
  destruct (prefix_three _ _ _ _ Hpre)
    as (la & lb & lc & Hl & Ha & Hb & Hc & Hab & Hac).
  exists la, lb, lc. split; [done |].
  split; [exact (Forall_prefix _ _ _ Ha (workspace_steps_outside root)) |].
  split; [exact (Forall_prefix _ _ _ Hb (db_steps_inside root)) |].
  split; [exact (Forall_prefix _ _ _ Hc (queue_steps_inside root)) |].
  split; [intros Hne; by apply Hac |].
  intros ->. destruct Hr as [_ Hall].
  assert (Hlen : length (la ++ lb ++ lc)
                 = length (workspace_steps root ++ db_steps root
                           ++ queue_steps root)) by by rewrite <- Hl, Hall.
  apply prefix_length in Ha as Hla. apply prefix_length in Hb as Hlb.
  apply prefix_length in Hc as Hlc.
  rewrite !length_app in Hlen.
  assert (lc ≠ []) as Hne.
  { intros ->. cbn in Hlen, Hla, Hlb. lia. }
  destruct (Hac Hne) as [-> ->]. split; [done |].
  rewrite Hl in Hall. by do 2 apply app_inv_head in Hall.
Qed.

Lemma demo_init_run :
  (Cli.initializeMonorepo quiet_shell id "demo" home).1 = Ok tt.
Proof. by vm_compute. Qed.

Lemma init_realizes_db_before_queue_witness :
  let run := Cli.initializeMonorepo quiet_shell id "demo" home in
  ∃ pre qs,
    steps (new_events home run.2)
    = pre ++ db_steps ["home"; "demo"] ++ qs
    ∧ qs = queue_steps ["home"; "demo"].
Proof.
  intros run.
  destruct (init_realizes_db_before_queue quiet_shell id "demo" home)
    as (pre & dbs & qs & Hl & _ & _ & _ & _ & Hok).
  destruct (Hok demo_init_run) as [-> ->].
  exists pre, (queue_steps ["home"; "demo"]). by split.
Defined.

(** *** The variant of an application *)

(** C10. With both [--next] and [--node], the [app] command runs
    [initializeApp] with type ["next"]: the user is not asked, and the
    steps of the run are those of the Next.js variant (its directory,
    [create-next-app], the install of the db package), all of them when
    the run returns and the first of them when it fails. *)
Theorem app_next_wins_over_node sh pick (name : string) (w : World) :
  let run :=
    Cli.app_action sh pick name Cli.both_flags w in
  run = Cli.initializeApp sh pick name (Some "next") w
  ∧ (SPrompt ∉ steps (new_events w run.2))
  ∧ (steps (new_events w run.2) `prefix_of` next_steps (cwd w) name)
  ∧ (run.1 = Ok tt → steps (new_events w run.2) = next_steps (cwd w) name).
Proof.
  intros run. split; [done |].
  destruct run as [r w'] eqn:Hrun. unfold run in Hrun. cbn [fst snd].
  destruct (initializeApp_next_script sh pick name (cwd w) w r w' eq_refl
              Hrun) as (evs & Htrace & Hr).
  rewrite (new_events_app _ _ _ Htrace).
  assert (Hpre : steps evs `prefix_of` next_steps (cwd w) name).
  { destruct r as [[]|e]; [| done]. by destruct Hr as [_ ->]. }
  split; [| split; [done |]].
  - intros Hin. destruct Hpre as [k Hk].
    assert (SPrompt ∈ next_steps (cwd w) name) as Hin'.
    { rewrite Hk. apply elem_of_app. by left. }
    unfold next_steps in Hin'. cbv zeta in Hin'.
    repeat (apply elem_of_cons in Hin' as [[=]|Hin']).
    by apply elem_of_nil in Hin'.
  - intros ->. by destruct Hr.
Qed.

Lemma web_app_run :
  (Cli.app_action quiet_shell (fun _ => O) "web"
     Cli.both_flags home).1 = Ok tt.
Proof. by vm_compute. Qed.

Lemma app_next_wins_over_node_witness :
  let run :=
    Cli.app_action quiet_shell (fun _ => O) "web"
      Cli.both_flags home in
  steps (new_events home run.2)
  = [SMkdir ["home"; "apps"; "web"];
     SExec "npx create-next-app@latest apps/web --typescript --eslint --use-pnpm"
       ["home"];
     SExec "pnpm add @repo/db@workspace:*" ["home"; "apps"; "web"]].
Proof.
  intros run.
  destruct (app_next_wins_over_node quiet_shell (fun _ => O) "web" home)
    as (_ & _ & _ & Hok).
  subst run. rewrite (Hok web_app_run). by vm_compute.
Defined.

(** *** What [init] and [app] leave on disk *)

(** C6. When [init <name>] returns, with a formatter that keeps the
    value of its input and with commands that keep the four files named
    here, editing at most the dependency sections of a manifest:
    [<name>/package.json] has as its [packageManager] the text ["pnpm@"]
    followed by the version this run detected, which is what
    [pnpm --version] printed in the new directory, trimmed, or ["9.7.0"]
    when that command failed; the [tasks.build.dependsOn] of
    [<name>/turbo.json] is [["^build"]]; the manifests of the db and
    queue packages are named ["@repo/db"] and ["@repo/queue"]. Nothing
    is assumed about other files, so the commands may write a lock file
    and install modules. *)
Theorem init_produces_workspace sh prettier_json (appName : string)
    (w w' : World) :
  let root := resolve (cwd w) appName in
  (∀ q, q ∈ [root ++ ["package.json"]; root ++ ["turbo.json"];
             root ++ ["packages"; "db"; "package.json"];
             root ++ ["packages"; "queue"; "package.json"]] →
        commands_keep sh (init_steps root) q) →
  formatter_ok prettier_json →
  Cli.initializeMonorepo sh prettier_json appName w = (Ok tt, w') →
  (∃ m, read_json (fs w') (root ++ ["package.json"]) = Some m
        ∧ field "packageManager" m
          = Some (JStr ("pnpm@" +:+ detected_version sh root (fs w))))
  ∧ (∃ m, read_json (fs w') (root ++ ["turbo.json"]) = Some m
          ∧ field_path ["tasks"; "build"; "dependsOn"] m
            = Some (JArr [JStr "^build"]))
  ∧ (∃ m, read_json (fs w') (root ++ ["packages"; "db"; "package.json"])
          = Some m
          ∧ field "name" m = Some (JStr "@repo/db"))
  ∧ (∃ m, read_json (fs w') (root ++ ["packages"; "queue"; "package.json"])
          = Some m
          ∧ field "name" m = Some (JStr "@repo/queue")).
Proof.
  intros root Hkeep Hformat Hrun. subst root.
  split; [| split; [| split]].
  - apply file_with_field.
    apply (init_root_manifest sh prettier_json appName (cwd w) w w');
      [apply Hkeep; set_solver | done | done].
  - destruct (init_turbo_config sh prettier_json appName (cwd w)
                ltac:(apply Hkeep; set_solver) Hformat
                w tt w' eq_refl Hrun) as [_ (c & Hc & Hparse)].
    exists Cli.turboConfig. split; [| done].
    unfold read_json. by rewrite Hc.
  - destruct (init_db_manifest sh prettier_json appName (cwd w)
                ltac:(apply Hkeep; set_solver)
                w tt w' eq_refl Hrun) as [_ Hfile].
    by apply file_with_field.
  - destruct (init_queue_manifest sh prettier_json appName (cwd w)
                ltac:(apply Hkeep; set_solver)
                w tt w' eq_refl Hrun) as [_ Hfile].
    by apply file_with_field.
Qed.

Lemma identity_formats : formatter_ok id.
Proof. by intros s v. Qed.

Lemma demo_locked_run :
  (Cli.initializeMonorepo pnpm_like id "demo" home).1 = Ok tt.
Proof. by vm_compute. Qed.

Lemma demo_files_kept q :
  q ∈ [["home"; "demo"; "package.json"]; ["home"; "demo"; "turbo.json"];
       ["home"; "demo"; "packages"; "db"; "package.json"];
       ["home"; "demo"; "packages"; "queue"; "package.json"]] →
  commands_keep pnpm_like (init_steps ["home"; "demo"]) q.
Proof.
  intros Hq. apply pnpm_like_keeps.
  repeat (apply elem_of_cons in Hq as [-> | Hq]; [done |]).
  by apply elem_of_nil in Hq.
Qed.

Lemma init_produces_workspace_witness :
  let w' := (Cli.initializeMonorepo pnpm_like id "demo" home).2 in
  (∃ m, read_json (fs w') ["home"; "demo"; "package.json"] = Some m
        ∧ field "packageManager" m = Some (JStr "pnpm@10.1.0"))
  ∧ read_json (fs w') ["home"; "demo"; "package.json"]
    ≫= field "dependencies"
    = Some (JObj [("typescript", JStr "^5.5.4")])
  ∧ fs w' !! ["home"; "demo"; "pnpm-lock.yaml"]
    = Some (File ("lockfileVersion: '9.0'" +:+ nl)).
Proof.
  intros w'. split; [| by vm_compute].
  destruct (init_produces_workspace pnpm_like id "demo" home w'
              demo_files_kept identity_formats (run_Ok _ tt demo_locked_run))
    as ((m & Hm & Hfield) & _).
  exists m. split; [exact Hm |].
  rewrite Hfield. by vm_compute.
Defined.

(** C7. When [app <name> --node] returns, with commands that keep the
    two files named here, editing at most the dependency sections of the
    manifest, [apps/<name>/src/index.ts] is the greeting statement
    [console.log("Hello, World!");] and the manifest
    [apps/<name>/package.json] is named ["@repo/<name>"]. Nothing is
    assumed about other files, such as the lock file of the
    workspace. *)
Theorem app_node_produces sh pick (name : string) (w w' : World) :
  let source :=
    resolve (cwd w) (path_join ("apps", name, "src", "index.ts")) in
  let manifest := resolve (cwd w) (path_join ("apps", name, "package.json")) in
  commands_keep sh (node_steps (cwd w) name) source →
  commands_keep sh (node_steps (cwd w) name) manifest →
  Cli.app_action sh pick name Cli.node_flag w
  = (Ok tt, w') →
  fs w' !! source
  = Some (File ("console.log(" +:+ dq +:+ "Hello, World!" +:+ dq +:+ ");"))
  ∧ ∃ m, read_json (fs w') manifest = Some m
         ∧ field "name" m = Some (JStr ("@repo/" +:+ name)).
Proof.
  intros source manifest Hsource Hmanifest Hrun.
  change (Cli.initializeApp sh pick name (Some "node") w = (Ok tt, w'))
    in Hrun.
  split.
  - destruct (app_node_greeting sh pick name (cwd w) Hsource w tt w' eq_refl
                Hrun) as [_ (c & Hc & ->)]. exact Hc.
  - destruct (app_node_manifest sh pick name (cwd w) Hmanifest w tt w'
                eq_refl Hrun) as [_ Hfile].
    by apply file_with_field.
Qed.

Lemma foo_app_run :
  (Cli.app_action pnpm_like (fun _ => O) "foo"
     Cli.node_flag home).1 = Ok tt.
Proof. by vm_compute. Qed.

Lemma app_node_produces_witness :
  let w' :=
    (Cli.app_action pnpm_like (fun _ => O) "foo"
       Cli.node_flag home).2 in
  fs w' !! ["home"; "apps"; "foo"; "src"; "index.ts"]
  = Some (File ("console.log(" +:+ dq +:+ "Hello, World!" +:+ dq +:+ ");"))
  ∧ read_json (fs w') ["home"; "apps"; "foo"; "package.json"]
    ≫= field "dependencies"
    = Some (JObj [("typescript", JStr "^5.5.4")])
  ∧ fs w' !! ["home"; "apps"; "foo"; "pnpm-lock.yaml"]
    = Some (File ("lockfileVersion: '9.0'" +:+ nl)).
Proof.
  intros w'. split; [| by vm_compute].
  refine (proj1 (app_node_produces pnpm_like (fun _ => O) "foo" home w'
                   (pnpm_like_keeps _ _ _) (pnpm_like_keeps _ _ _)
                   (run_Ok _ tt foo_app_run)));
    by vm_compute.
Defined.

End Claims.

(** * Further properties *)

Module TrimFacts.
Import Text TextFacts.

Lemma rev_app_append (s acc : string) :
  String.rev_app s acc = String.rev s +:+ acc.
Proof.
  unfold String.rev. revert acc. induction s as [|c s IH]; intros acc; [done |].
  cbn. rewrite (IH (String c EmptyString)), IH, append_assoc. done.
Qed.

Lemma rev_append (a b : string) :
  String.rev (a +:+ b) = String.rev b +:+ String.rev a.
Proof.
  induction a as [|c a IH]; [by rewrite append_nil_r |].
  unfold String.rev in *. cbn.
  rewrite (rev_app_append (a +:+ b)), (rev_app_append a).
  unfold String.rev. by rewrite IH, append_assoc.
Qed.

Lemma length_rev_app (s acc : string) :
  String.length (String.rev_app s acc)
  = (String.length s + String.length acc)%nat.
Proof.
  revert acc. induction s as [|c s IH]; intros acc; [done |].
  cbn. rewrite IH. cbn. lia.
Qed.

Lemma length_rev (s : string) : String.length (String.rev s) = String.length s.
Proof. unfold String.rev. rewrite length_rev_app. cbn. lia. Qed.

(** A white-space character at the start of a text is counted with its
    bytes, which the text has. *)
Lemma ws_width_le (s : string) : (ws_width s ≤ String.length s)%nat.
Proof.
  destruct s as [|a [|b [|c s]]]; cbn; repeat case_match; lia.
Qed.

Lemma ws_suffix_width_le (r : string) :
  (ws_suffix_width r ≤ String.length r)%nat.
Proof.
  destruct r as [|a [|b [|c s]]]; cbn; repeat case_match; lia.
Qed.

Lemma length_drop_n (n : nat) (s : string) :
  String.length (drop_n n s) = (String.length s - n)%nat.
Proof.
  revert s. induction n as [|n IH]; intros [|c s]; cbn; done.
Qed.

(** What [drop_n] removes. *)
Lemma drop_n_split (n : nat) (s : string) :
  ∃ pre, s = pre +:+ drop_n n s.
Proof.
  revert s. induction n as [|n IH]; intros s.
  - exists EmptyString. by destruct s.
  - destruct s as [|c s]; [by exists EmptyString |].
    destruct (IH s) as [pre Hpre]. exists (String c pre). cbn. by f_equal.
Qed.

Lemma trimStart_go_done (fuel : nat) (s : string) :
  (String.length s ≤ fuel)%nat → ws_width (trimStart_go fuel s) = O.
Proof.
  revert s. induction fuel as [|f IH]; intros s Hlen.
  - destruct s; [done | cbn in Hlen; lia].
  - cbn [trimStart_go]. destruct (ws_width s) as [|w] eqn:E; [done |].
    apply IH. rewrite length_drop_n.
    pose proof (ws_width_le s). lia.
Qed.

Lemma trimEnd_go_done (fuel : nat) (r : string) :
  (String.length r ≤ fuel)%nat → ws_suffix_width (trimEnd_go fuel r) = O.
Proof.
  revert r. induction fuel as [|f IH]; intros r Hlen.
  - destruct r; [done | cbn in Hlen; lia].
  - cbn [trimEnd_go]. destruct (ws_suffix_width r) as [|w] eqn:E; [done |].
    apply IH. rewrite length_drop_n.
    pose proof (ws_suffix_width_le r). lia.
Qed.

Lemma trimStart_go_split (fuel : nat) (s : string) :
  ∃ pre, s = pre +:+ trimStart_go fuel s.
Proof.
  revert s. induction fuel as [|f IH]; intros s; [by exists EmptyString |].
  cbn [trimStart_go]. destruct (ws_width s) as [|w]; [by exists EmptyString |].
  destruct (drop_n_split (S w) s) as [p1 H1].
  destruct (IH (drop_n (S w) s)) as [p2 H2].
  exists (p1 +:+ p2). by rewrite append_assoc, <- H2.
Qed.

Lemma trimEnd_go_split (fuel : nat) (r : string) :
  ∃ pre, r = pre +:+ trimEnd_go fuel r.
Proof.
  revert r. induction fuel as [|f IH]; intros r; [by exists EmptyString |].
  cbn [trimEnd_go]. destruct (ws_suffix_width r) as [|w];
    [by exists EmptyString |].
  destruct (drop_n_split (S w) r) as [p1 H1].
  destruct (IH (drop_n (S w) r)) as [p2 H2].
  exists (p1 +:+ p2). by rewrite append_assoc, <- H2.
Qed.

(** The white space that starts a text starts every text it starts. *)
Lemma ws_width_prefix (u x : string) :
  ws_width (u +:+ x) = O → ws_width u = O.
Proof.
  destruct u as [|a [|b [|c u]]]; [done | | |].
  - cbn. destruct (blank a); [done |]. done.
  - cbn. destruct (blank a); [done |]. destruct (ws2 a b); [done |]. done.
  - cbn. done.
Qed.

Lemma trimStart_fixed (s : string) : ws_width s = O → trimStart s = s.
Proof.
  intros H. unfold trimStart. destruct (String.length s); [done |].
  cbn [trimStart_go]. by rewrite H.
Qed.

Lemma trimEnd_go_fixed (fuel : nat) (r : string) :
  ws_suffix_width r = O → trimEnd_go fuel r = r.
Proof. intros H. destruct fuel; [done |]. cbn [trimEnd_go]. by rewrite H. Qed.

(** [trimEnd] gives a start of its argument that ends with no white
    space. *)
Lemma trimEnd_spec (t : string) :
  ∃ tail, t = trimEnd t +:+ tail
          ∧ ws_suffix_width (String.rev (trimEnd t)) = O.
Proof.
  unfold trimEnd.
  destruct (trimEnd_go_split (String.length t) (String.rev t)) as [pre Hpre].
  exists (String.rev pre). split.
  - rewrite <- rev_append, <- Hpre. by rewrite rev_involutive.
  - rewrite rev_involutive. apply trimEnd_go_done. by rewrite length_rev.
Qed.

(** [trim] leaves text without white space at either end. *)
Lemma trim_ends (s : string) :
  ws_width (trim s) = O ∧ ws_suffix_width (String.rev (trim s)) = O.
Proof.
  unfold trim.
  destruct (trimEnd_spec (trimStart s)) as (tail & Ht & Hend).
  split; [| done].
  apply (ws_width_prefix _ tail). rewrite <- Ht.
  by apply trimStart_go_done.
Qed.

Lemma trim_fixed (u : string) :
  ws_width u = O → ws_suffix_width (String.rev u) = O → trim u = u.
Proof.
  intros Hs He. unfold trim. rewrite (trimStart_fixed _ Hs).
  unfold trimEnd. rewrite trimEnd_go_fixed by done. apply rev_involutive.
Qed.

(** Trimming twice is trimming once. *)
Lemma trim_idem (s : string) : trim (trim s) = trim s.
Proof. destruct (trim_ends s). by apply trim_fixed. Qed.

(** [trim] removes a start and an end of the text. *)
Lemma trim_split (s : string) : ∃ pre post, s = pre +:+ trim s +:+ post.
Proof.
  unfold trim, trimStart.
  destruct (trimStart_go_split (String.length s) s) as [pre Hpre].
  destruct (trimEnd_spec (trimStart_go (String.length s) s)) as (post & Hpost & _).
  exists pre, post. by rewrite <- Hpost.
Qed.

(** *** Replacing a character *)

Lemma replace_all_absent (a b : ascii) (s : string) :
  a ≠ b → a ∉ list_ascii_of_string (replace_all a b s).
Proof.
  intros Hab. induction s as [|c s IH]; cbn; [apply not_elem_of_nil |].
  apply not_elem_of_cons. split; [| done]. by case_decide.
Qed.

Lemma length_replace_all (a b : ascii) (s : string) :
  String.length (replace_all a b s) = String.length s.
Proof. induction s as [|c s IH]; cbn; [done | by f_equal]. Qed.

(** The characters that are not replaced stay where they are. *)
Lemma replace_all_other (a b : ascii) (s : string) (i : nat) (c : ascii) :
  c ≠ a → String.get i s = Some c → String.get i (replace_all a b s) = Some c.
Proof.
  intros Hc. revert i. induction s as [|x s IH]; intros i; [done |].
  destruct i as [|i]; cbn.
  - intros [= ->]. by rewrite decide_False.
  - apply IH.
Qed.

End TrimFacts.

Module MergeFacts.
Import Text Json NodeFacts.

Local Abbreviation assign l o :=
  (foldl (fun acc (kv : string * json) => obj_set kv.1 kv.2 acc) o l).

Lemma obj_get_Some_elem k v (o : list (string * json)) :
  obj_get k o = Some v → k ∈ o.*1.
Proof.
  induction o as [|[k0 v0] o IH]; [done |]. cbn.
  destruct (decide (k = k0)) as [->|]; [left | right; auto].
Qed.

Lemma obj_get_is_Some k (o : list (string * json)) :
  k ∈ o.*1 → is_Some (obj_get k o).
Proof.
  induction o as [|[k0 v0] o IH]; [by intros ?%elem_of_nil |]. cbn.
  destruct (decide (k = k0)) as [->|Hne]; [eauto |].
  intros [?|?]%elem_of_cons; [done | auto].
Qed.

Lemma obj_get_app k (a b : list (string * json)) :
  obj_get k (a ++ b)
  = match obj_get k a with Some v => Some v | None => obj_get k b end.
Proof.
  induction a as [|[k0 v0] a IH]; [done |]. cbn.
  by destruct (decide (k = k0)).
Qed.

(** Properties are assigned from left to right: the last value given
    for a name is the one it has. *)
Lemma obj_get_assign k o (l : list (string * json)) :
  obj_get k (assign l o)
  = match obj_get k (reverse l) with
    | Some v => Some v
    | None => obj_get k o
    end.
Proof.
  revert o. induction l as [|[k1 v1] l IH]; intros o; [done |].
  cbn [foldl]. rewrite IH, reverse_cons, obj_get_app. cbn [fst snd].
  destruct (obj_get k (reverse l)); [done |].
  rewrite obj_get_set. cbn. by destruct (decide (k = k1)).
Qed.

Lemma keys_obj_set k v (o : list (string * json)) :
  (obj_set k v o).*1 = if decide (k ∈ o.*1) then o.*1 else o.*1 ++ [k].
Proof.
  induction o as [|[k0 v0] o IH]; [done |]. cbn.
  destruct (decide (k = k0)) as [->|Hne].
  - rewrite decide_True by left. done.
  - cbn. rewrite IH. destruct (decide (k ∈ o.*1)) as [Hin|Hin].
    + rewrite decide_True by by right. done.
    + rewrite decide_False; [done |].
      intros [?|?]%elem_of_cons; done.
Qed.

Lemma keys_obj_set_present k v (o : list (string * json)) :
  k ∈ o.*1 → (obj_set k v o).*1 = o.*1.
Proof. intros H. by rewrite keys_obj_set, decide_True. Qed.

Lemma NoDup_obj_set k v (o : list (string * json)) :
  NoDup o.*1 → NoDup (obj_set k v o).*1.
Proof.
  intros H. rewrite keys_obj_set. case_decide; [done |].
  apply NoDup_app. split; [done |]. split; [| apply NoDup_singleton].
  intros x Hx ->%list_elem_of_singleton. done.
Qed.

Lemma NoDup_assign o (l : list (string * json)) :
  NoDup o.*1 → NoDup (assign l o).*1.
Proof.
  revert o. induction l as [|[k v] l IH]; intros o H; [done |].
  cbn [foldl]. by apply IH, NoDup_obj_set.
Qed.

Lemma keys_assign_present o (l : list (string * json)) :
  (∀ k, k ∈ l.*1 → k ∈ o.*1) → (assign l o).*1 = o.*1.
Proof.
  revert o. induction l as [|[k v] l IH]; intros o H; [done |].
  cbn [foldl]. cbn [fst snd].
  assert (Hk : (obj_set k v o).*1 = o.*1).
  { apply keys_obj_set_present, H. left. }
  rewrite IH; [done |]. intros k' Hk'. rewrite Hk. apply H. by right.
Qed.

(** Two objects with the same names in the same order and the same
    value for each name are the same object. *)
Lemma obj_ext (a b : list (string * json)) :
  NoDup a.*1 → a.*1 = b.*1 → (∀ k, obj_get k a = obj_get k b) → a = b.
Proof.
  revert b. induction a as [|[k v] a IH]; intros [|[k' v'] b] Hnd Hk Hg;
    try done.
  rewrite !fmap_cons in Hk. cbn [fst] in Hk. injection Hk as <- Hk.
  rewrite fmap_cons in Hnd. apply NoDup_cons in Hnd as [Hnin Hnd].
  cbn [fst] in Hnin.
  pose proof (Hg k) as Hv. cbn in Hv.
  destruct (decide (k = k)); [| done].
  injection Hv as <-. f_equal. apply IH; [done | done |].
  intros k0. specialize (Hg k0). cbn in Hg.
  destruct (decide (k0 = k)) as [->|]; [| done].
  rewrite !obj_get_None; [done | by rewrite <- Hk | done].
Qed.

Lemma elem_of_keys_reverse k (l : list (string * json)) :
  k ∈ (reverse l).*1 ↔ k ∈ l.*1.
Proof. by rewrite fmap_reverse, elem_of_reverse. Qed.

Lemma elem_of_keys_assign k o (l : list (string * json)) :
  k ∈ l.*1 → k ∈ (assign l o).*1.
Proof.
  intros Hk. apply elem_of_keys_reverse, obj_get_is_Some in Hk as [v Hv].
  apply (obj_get_Some_elem k v). by rewrite obj_get_assign, Hv.
Qed.

(** Assigning the same properties again changes nothing. *)
Lemma assign_idem o (l : list (string * json)) :
  NoDup (assign l o).*1 → assign l (assign l o) = assign l o.
Proof.
  intros Hnd. symmetry. apply obj_ext; [done | |].
  - symmetry. apply keys_assign_present. intros k. apply elem_of_keys_assign.
  - intros k. rewrite (obj_get_assign k (assign l o)), obj_get_assign.
    by destruct (obj_get k (reverse l)).
Qed.

Lemma spread_idem (cur new : json) :
  NoDup (own_props (spread cur new)).*1 →
  spread (spread cur new) new = spread cur new.
Proof. unfold spread. cbn [own_props]. intros H. f_equal. by apply assign_idem. Qed.

(** *** Assignments one after the other *)

Lemma obj_set_obj_set k v v' (o : list (string * json)) :
  obj_set k v (obj_set k v' o) = obj_set k v o.
Proof.
  induction o as [|[k0 v0] o IH]; cbn.
  - by rewrite decide_True.
  - destruct (decide (k = k0)) as [->|Hne]; cbn.
    + by rewrite decide_True.
    + rewrite decide_False by done. by f_equal.
Qed.

(** An assignment to a name the object has changes a value in its
    place, whatever is assigned to other names before or after. *)
Lemma obj_set_comm k v k' v' (o : list (string * json)) :
  k ≠ k' → k ∈ o.*1 →
  obj_set k v (obj_set k' v' o) = obj_set k' v' (obj_set k v o).
Proof.
  intros Hne. induction o as [|[k0 v0] o IH]; [by intros ?%elem_of_nil |].
  cbn. intros Hin.
  destruct (decide (k' = k0)) as [->|Hne'];
    destruct (decide (k = k0)) as [->|Hne0]; cbn;
    repeat case_decide; try done.
  f_equal. apply IH. apply elem_of_cons in Hin as [?|?]; done.
Qed.

Lemma obj_set_assign k v o (l : list (string * json)) :
  k ∈ o.*1 → k ∉ l.*1 →
  obj_set k v (assign l o) = assign l (obj_set k v o).
Proof.
  revert o. induction l as [|[k1 v1] l IH]; intros o Hin Hnin; [done |].
  cbn [foldl]. cbn [fst snd].
  apply not_elem_of_cons in Hnin as [Hne Hnin].
  rewrite IH; [| rewrite keys_obj_set; case_decide;
                  [done | apply elem_of_app; by left] | done].
  f_equal. by apply obj_set_comm.
Qed.

(** Assigning [l] and then one more property is assigning [l] with this
    property put into it. *)
Lemma assign_obj_set k v o (l : list (string * json)) :
  NoDup l.*1 → obj_set k v (assign l o) = assign (obj_set k v l) o.
Proof.
  revert o. induction l as [|[k1 v1] l IH]; intros o Hnd; [done |].
  cbn in Hnd. apply NoDup_cons in Hnd as [Hnin Hnd].
  cbn [foldl obj_set]. cbn [fst snd].
  destruct (decide (k = k1)) as [->|Hne]; cbn [foldl]; cbn [fst snd].
  - rewrite <- (obj_set_obj_set k1 v v1 o).
    apply obj_set_assign; [| done].
    rewrite keys_obj_set. case_decide; [done |].
    apply elem_of_app. right. left.
  - by apply IH.
Qed.

Lemma assign_assoc o (l1 l2 : list (string * json)) :
  NoDup l1.*1 → assign l2 (assign l1 o) = assign (assign l2 l1) o.
Proof.
  revert l1. induction l2 as [|[k v] l2 IH]; intros l1 Hnd; [done |].
  cbn [foldl]. cbn [fst snd].
  rewrite assign_obj_set by done. apply IH. by apply NoDup_obj_set.
Qed.

(** [{...{...a, ...b}, ...c}] is [{...a, ...{...b, ...c}}]. *)
Lemma spread_assoc (a b c : json) :
  NoDup (own_props b).*1 →
  spread (spread a b) c = spread a (spread b c).
Proof.
  intros H. unfold spread. cbn [own_props]. f_equal. by apply assign_assoc.
Qed.

End MergeFacts.

Module FsFacts.
Import Text Json Node Spec TextFacts JsonFacts NodeFacts.
Local Open Scope js_scope.

(** *** More on [mkdir -p] *)

Lemma mkdirp_go_app (base t1 t2 : list string) (f : FS) :
  mkdirp_go base (t1 ++ t2) f
  = match mkdirp_go base t1 f with
    | Some f1 => mkdirp_go (base ++ t1) t2 f1
    | None => None
    end.
Proof.
  revert base f. induction t1 as [|c r IH]; intros base f.
  - cbn. by rewrite app_nil_r.
  - cbn [app mkdirp_go].
    replace (base ++ c :: r) with ((base ++ [c]) ++ r)
      by by rewrite <- app_assoc.
    destruct (f !! (base ++ [c])) as [[|]|]; [done | apply IH | apply IH].
Qed.

(** After [mkdir -p], every directory on the way is there. *)
Lemma mkdirp_prefix_dir (f f' : FS) (d a : list string) :
  mkdirp f d = Some f' → a `prefix_of` d → stat f' a = Some Dir.
Proof.
  intros H [k ->]. unfold mkdirp in H. rewrite mkdirp_go_app in H.
  destruct (mkdirp_go [] a f) as [f1|] eqn:E; [| done].
  pose proof (mkdirp_dir _ _ _ E) as Hdir.
  destruct a as [|x a]; [done |]. cbn in Hdir |- *.
  by apply (mkdirp_go_keeps _ _ _ _ _ _ H).
Qed.

(** [mkdir -p] changes nothing when the directories are there. *)
Lemma mkdirp_go_noop (base todo : list string) (f : FS) :
  (∀ a, a `prefix_of` todo → a ≠ [] → f !! (base ++ a) = Some Dir) →
  mkdirp_go base todo f = Some f.
Proof.
  revert base. induction todo as [|c r IH]; intros base H; [done |].
  cbn [mkdirp_go]. rewrite (H [c]); [| by apply prefix_cons, prefix_nil | done].
  apply IH. intros a Ha Hne. rewrite <- app_assoc. apply H; [| done].
  by apply prefix_cons.
Qed.

Lemma mkdirp_noop (f : FS) (d : list string) :
  (∀ a, a `prefix_of` d → a ≠ [] → f !! a = Some Dir) →
  mkdirp f d = Some f.
Proof. apply (mkdirp_go_noop []). Qed.

Lemma stat_Dir_lookup (f : FS) (a : list string) :
  a ≠ [] → stat f a = Some Dir → f !! a = Some Dir.
Proof. by destruct a. Qed.

Lemma mkdirp_idem (f f' : FS) (d : list string) :
  mkdirp f d = Some f' → mkdirp f' d = Some f'.
Proof.
  intros H. apply mkdirp_noop. intros a Ha Hne.
  apply stat_Dir_lookup; [done |]. by eapply mkdirp_prefix_dir.
Qed.

(** [mkdir -p] fails when a file is on the way. *)
Lemma mkdirp_file (f : FS) (d a : list string) c :
  a `prefix_of` d → a ≠ [] → f !! a = Some (File c) → mkdirp f d = None.
Proof.
  intros Ha Hne Hfile. destruct (mkdirp f d) as [f'|] eqn:E; [| done].
  exfalso. by apply (mkdirp_go_clear _ _ _ _ E a c Ha Hne).
Qed.

(** What [mkdir -p] adds are directories on the way. *)
Lemma mkdirp_new (f f' : FS) (d q : list string) n :
  mkdirp f d = Some f' → f' !! q = Some n → f !! q = None →
  n = Dir ∧ q `prefix_of` d.
Proof.
  intros H Hq Hnone. split.
  - destruct n as [c|]; [| done].
    rewrite (mkdirp_go_File_inv _ _ _ _ _ _ H Hq) in Hnone. done.
  - destruct (decide (q `prefix_of` d)) as [|Hn]; [done |].
    rewrite (mkdirp_frame _ _ _ _ H Hn) in Hq. congruence.
Qed.

Lemma removelast_prefix (q : list string) : removelast q `prefix_of` q.
Proof.
  destruct q as [|x q _] using rev_ind; [done |].
  rewrite removelast_last. by exists [x].
Qed.

Lemma not_prefix_own_parent (q : list string) :
  q ≠ [] → ¬ q `prefix_of` removelast q.
Proof.
  intros Hq Hpre%prefix_length.
  destruct q as [|x q _] using rev_ind; [done |].
  rewrite removelast_last, length_app in Hpre. cbn in Hpre. lia.
Qed.

(** A file put into a directory leaves the way to it as it is. *)
Lemma mkdirp_insert_file (f f1 : FS) (q : list string) c :
  q ≠ [] → mkdirp f (removelast q) = Some f1 →
  mkdirp (<[q := File c]> f1) (removelast q) = Some (<[q := File c]> f1).
Proof.
  intros Hq H. apply mkdirp_noop. intros a Ha Hne.
  rewrite lookup_insert_ne.
  - apply stat_Dir_lookup; [done |]. by eapply mkdirp_prefix_dir.
  - intros <-. by apply (not_prefix_own_parent q).
Qed.

(** *** Removal *)

Lemma removed_below (q t : list string) (f : FS) :
  q `prefix_of` t →
  filter (fun e : list string * node => ¬ q `prefix_of` e.1) f !! t = None.
Proof.
  intros Hpre. apply map_lookup_filter_None. right. intros n _ Hn. by apply Hn.
Qed.

Lemma removed_frame (q t : list string) (f : FS) :
  ¬ q `prefix_of` t →
  filter (fun e : list string * node => ¬ q `prefix_of` e.1) f !! t = f !! t.
Proof.
  intros Hpre. destruct (f !! t) as [n|] eqn:E.
  - by apply map_lookup_filter_Some.
  - apply map_lookup_filter_None. by left.
Qed.

Lemma emptied_below (q t : list string) (f : FS) :
  q `prefix_of` t → t ≠ q →
  filter (fun e : list string * node => ¬ (q `prefix_of` e.1 ∧ e.1 ≠ q)) f
    !! t = None.
Proof.
  intros Hpre Hne. apply map_lookup_filter_None. right. intros n _ Hn.
  by apply Hn.
Qed.

Lemma emptied_frame (q t : list string) (f : FS) :
  ¬ (q `prefix_of` t ∧ t ≠ q) →
  filter (fun e : list string * node => ¬ (q `prefix_of` e.1 ∧ e.1 ≠ q)) f
    !! t = f !! t.
Proof.
  intros Hpre. destruct (f !! t) as [n|] eqn:E.
  - by apply map_lookup_filter_Some.
  - apply map_lookup_filter_None. by left.
Qed.

(** Nothing to remove: the file system is as it was. *)
Lemma removed_nothing (q : list string) (f : FS) :
  (∀ t, q `prefix_of` t → f !! t = None) →
  filter (fun e : list string * node => ¬ q `prefix_of` e.1) f = f.
Proof.
  intros H. apply map_eq. intros t.
  destruct (decide (q `prefix_of` t)) as [Hp|Hp].
  - by rewrite removed_below, H.
  - by apply removed_frame.
Qed.

(** *** Trees *)

(** In a tree nothing lies below a path where nothing is. *)
Lemma tree_nothing_below (f : FS) (q t : list string) :
  tree f → q ≠ [] → f !! q = None → q `prefix_of` t → f !! t = None.
Proof.
  intros Ht Hq Hnone [k ->].
  induction k as [|x k IH] using rev_ind; [by rewrite app_nil_r |].
  destruct (f !! (q ++ k ++ [x])) as [n|] eqn:E; [| done].
  destruct (Ht _ _ E) as [_ Hparent].
  rewrite app_assoc, removelast_last in Hparent.
  rewrite stat_lookup in Hparent; [congruence |].
  by intros [? _]%app_eq_nil.
Qed.

(** In a tree nothing lies below a file. *)
Lemma tree_nothing_in_file (f : FS) (q t : list string) c :
  tree f → f !! q = Some (File c) → q `prefix_of` t → t ≠ q → f !! t = None.
Proof.
  intros Ht Hfile [k ->] Hne.
  induction k as [|x k IH] using rev_ind; [by rewrite app_nil_r in Hne |].
  destruct (f !! (q ++ k ++ [x])) as [n|] eqn:E; [| done].
  destruct (Ht _ _ E) as [_ Hparent].
  rewrite app_assoc, removelast_last in Hparent.
  destruct (decide (k = [])) as [->|Hk].
  - rewrite app_nil_r in Hparent.
    destruct q; [by destruct (Ht _ _ Hfile) |].
    cbn in Hparent. congruence.
  - rewrite stat_lookup in Hparent by by intros [_ ?]%app_eq_nil.
    rewrite IH in Hparent; [done |].
    intros Heq. apply Hk. apply (app_inv_head q). by rewrite app_nil_r.
Qed.

(** [mkdir -p] keeps a tree a tree. *)
Lemma tree_mkdirp_go (base todo : list string) (f f' : FS) :
  tree f → (base = [] ∨ f !! base = Some Dir) →
  mkdirp_go base todo f = Some f' → tree f'.
Proof.
  revert base f. induction todo as [|x r IH]; intros base f Ht Hbase;
    cbn [mkdirp_go]; [by intros [= <-] |].
  destruct (f !! (base ++ [x])) as [[c|]|] eqn:E; [done | |].
  - apply IH; [done | by right].
  - apply IH; [| right; apply lookup_insert_eq].
    intros t n Hn. rewrite lookup_insert in Hn.
    assert (Hparent : ∀ p, stat f p = Some Dir →
                           stat (<[base ++ [x] := Dir]> f) p = Some Dir).
    { intros p Hp. destruct p as [|y p]; [done |]. cbn in Hp |- *.
      rewrite lookup_insert_ne; [done |]. intros Heq. rewrite Heq in E.
      congruence. }
    case_decide as Heq.
    + subst t. split; [by intros [_ ?]%app_eq_nil |].
      rewrite removelast_last. apply Hparent.
      destruct Hbase as [->|Hb]; [done |]. by destruct base.
    + destruct (Ht t n Hn) as [Hne Hp]. split; [done |]. by apply Hparent.
Qed.

Lemma tree_mkdirp (f f' : FS) (d : list string) :
  tree f → mkdirp f d = Some f' → tree f'.
Proof. intros Ht. apply tree_mkdirp_go; [done | by left]. Qed.

(** A file put into a directory of a tree, where no directory is. *)
Lemma tree_insert_file (f : FS) (q : list string) c :
  tree f → q ≠ [] → stat f (removelast q) = Some Dir →
  f !! q ≠ Some Dir → tree (<[q := File c]> f).
Proof.
  intros Ht Hq Hparent Hdir t n Hn. rewrite lookup_insert in Hn.
  assert (Hkeep : ∀ p, stat f p = Some Dir →
                       stat (<[q := File c]> f) p = Some Dir).
  { intros p Hp. destruct p as [|y p]; [done |]. cbn in Hp |- *.
    rewrite lookup_insert_ne; [done |]. intros Heq. apply Hdir.
    by rewrite Heq. }
  case_decide as Heq.
  - subst t. split; [done |]. by apply Hkeep.
  - destruct (Ht t n Hn) as [Hne Hp]. split; [done |]. by apply Hkeep.
Qed.

Lemma prefix_of_removelast (q t : list string) :
  q `prefix_of` removelast t → q `prefix_of` t.
Proof. intros H. etrans; [exact H | apply removelast_prefix]. Qed.

(** Removing what is at and below a path keeps a tree a tree. *)
Lemma tree_removed (f : FS) (g : list string) :
  tree f →
  tree (filter (fun e : list string * node => ¬ g `prefix_of` e.1) f).
Proof.
  intros Ht t n [Hn Hkeep]%map_lookup_filter_Some. cbn in Hkeep.
  destruct (Ht t n Hn) as [Hne Hp]. split; [done |].
  destruct (removelast t) as [|y p] eqn:E; [done |]. rewrite <- E in *.
  rewrite stat_lookup in Hp |- * by (rewrite E; done).
  apply map_lookup_filter_Some. split; [done |]. cbn.
  intros Hpre. by apply Hkeep, prefix_of_removelast.
Qed.

(** Removing what is below a path keeps a tree a tree. *)
Lemma tree_emptied (f : FS) (q : list string) :
  tree f →
  tree (filter (fun e : list string * node =>
                  ¬ (q `prefix_of` e.1 ∧ e.1 ≠ q)) f).
Proof.
  intros Ht t n [Hn Hkeep]%map_lookup_filter_Some. cbn in Hkeep.
  destruct (Ht t n Hn) as [Hne Hp]. split; [done |].
  destruct (removelast t) as [|y p] eqn:E; [done |]. rewrite <- E in *.
  rewrite stat_lookup in Hp |- * by (rewrite E; done).
  apply map_lookup_filter_Some. split; [done |]. cbn.
  intros [Hpre Hneq]. apply Hkeep. split; [by apply prefix_of_removelast |].
  intros ->. by apply (not_prefix_own_parent q).
Qed.

(** In a tree the directories on the way to an entry are there. *)
Lemma tree_ancestors (f : FS) (q a : list string) n :
  tree f → f !! q = Some n → a `prefix_of` q → a ≠ q →
  stat f a = Some Dir.
Proof.
  intros Ht Hq [k ->] Hne. revert n Hq.
  induction k as [|x k IH] using rev_ind; intros n Hq;
    [by rewrite app_nil_r in Hne |].
  destruct (Ht _ _ Hq) as [_ Hparent].
  rewrite app_assoc, removelast_last in Hparent.
  destruct (decide (k = [])) as [->|Hk]; [by rewrite app_nil_r in Hparent |].
  assert (Hak : a ++ k ≠ []) by by intros [_ ?]%app_eq_nil.
  rewrite stat_lookup in Hparent by done.
  apply (IH ltac:(intros Heq; apply Hk, (app_inv_head a); by rewrite app_nil_r)
            Dir Hparent).
Qed.

(** In a tree [mkdir -p] of a directory that is there changes nothing. *)
Lemma tree_mkdirp_noop (f : FS) (q : list string) :
  tree f → stat f q = Some Dir → mkdirp f q = Some f.
Proof.
  intros Ht Hq. apply mkdirp_noop. intros a Ha Hne.
  apply stat_Dir_lookup; [done |].
  destruct (decide (a = q)) as [->|Haq]; [done |].
  destruct q as [|x q0] eqn:E; [by apply prefix_nil_inv in Ha |].
  rewrite <- E in *. rewrite stat_lookup in Hq by (rewrite E; done).
  by apply (tree_ancestors f q a Dir).
Qed.

End FsFacts.

Module UtilsFacts.
Import Text Json Node Spec TextFacts JsonFacts NodeFacts RunFacts FsFacts.
Local Open Scope js_scope.

(** The [.git] entry of a directory is never the root. *)
Lemma git_dir (c : list string) (appDir : string) :
  ∃ l, resolve c (path_join (appDir, ".git")) = l ++ [".git"].
Proof.
  unfold resolve, join_paths. cbn.
  destruct (bool_decide _); [by eexists |].
  eexists. by rewrite app_assoc.
Qed.

Lemma removeGitDirectory_run (appDir name : string) (w : World) :
  let g := resolve (cwd w) (path_join (appDir, ".git")) in
  Utils.removeGitDirectory appDir name w
  = if bool_decide (is_Some (fs w !! g)) then
      (Ok tt,
       set_fs (emit (Log ("Removing .git directory from " +:+ name
                          +:+ " app...")) w)
         (filter (fun e : list string * node => ¬ g `prefix_of` e.1) (fs w)))
    else (Ok tt, w).
Proof.
  intros g. unfold Utils.removeGitDirectory, bind, existsSync.
  fold g. destruct (git_dir (cwd w) appDir) as [l Hl]. fold g in Hl.
  assert (Hg : g ≠ []) by (rewrite Hl; by intros [_ ?]%app_eq_nil).
  rewrite stat_lookup by done.
  destruct (bool_decide (is_Some (fs w !! g))); [| done].
  unfold console_log, removeSync. cbn [fs cwd emit]. fold g.
  by destruct g.
Qed.

(** What fails in [mkdir -p] is a file on the way. *)
Lemma mkdirp_go_None (base todo : list string) (f : FS) :
  mkdirp_go base todo f = None →
  ∃ a c, a `prefix_of` todo ∧ a ≠ [] ∧ f !! (base ++ a) = Some (File c).
Proof.
  revert base f. induction todo as [|x r IH]; intros base f; [done |].
  cbn [mkdirp_go]. destruct (f !! (base ++ [x])) as [[c|]|] eqn:E.
  - intros _. exists [x], c. split; [by apply prefix_cons, prefix_nil | done].
  - intros (a & c & Ha & Hne & Hf)%IH. exists (x :: a), c.
    split; [by apply prefix_cons |]. split; [done |].
    by rewrite <- app_assoc in Hf.
  - intros (a & c & Ha & Hne & Hf)%IH. exists (x :: a), c.
    split; [by apply prefix_cons |]. split; [done |].
    rewrite <- app_assoc in Hf. rewrite lookup_insert_ne in Hf; [done |].
    intros Heq%app_inv_head. injection Heq as <-. done.
Qed.

Lemma createDirIfNotExists_run (dirPath : path) (w : World) :
  let q := resolve (cwd w) dirPath in
  Utils.createDirIfNotExists dirPath w
  = match stat (fs w) q with
    | Some _ => (Ok tt, w)
    | None =>
        match mkdirp (fs w) q with
        | Some f => (Ok tt, set_fs (emit (Mkdir q) w) f)
        | None => (Throw "EEXIST", emit (Mkdir q) w)
        end
    end.
Proof.
  intros q. unfold Utils.createDirIfNotExists, bind, existsSync. fold q.
  destruct (stat (fs w) q) as [n|] eqn:E.
  - by rewrite bool_decide_eq_true_2 by eauto.
  - rewrite bool_decide_eq_false_2 by (intros [? ?]; done).
    cbn [negb]. unfold mkdirSync. fold q. by destruct (mkdirp (fs w) q).
Qed.

Lemma clearDirectory_run (dirPath : path) (w : World) :
  let q := resolve (cwd w) dirPath in
  Utils.clearDirectory dirPath w
  = match stat (fs w) q with
    | Some Dir =>
        (Ok tt,
         set_fs w (filter (fun e : list string * node =>
                             ¬ (q `prefix_of` e.1 ∧ e.1 ≠ q)) (fs w)))
    | Some (File _) => (Throw "EEXIST", w)
    | None => (Ok tt, w)
    end.
Proof.
  intros q. unfold Utils.clearDirectory, bind, existsSync. fold q.
  destruct (stat (fs w) q) as [[c|]|] eqn:E.
  - rewrite bool_decide_eq_true_2 by eauto.
    unfold emptyDirSync. fold q. rewrite E.
    assert (Hq : q ≠ []) by (intros Hq; by rewrite Hq in E).
    rewrite stat_lookup in E by done.
    by rewrite (mkdirp_file (fs w) q q c).
  - rewrite bool_decide_eq_true_2 by eauto.
    unfold emptyDirSync. fold q. by rewrite E.
  - by rewrite bool_decide_eq_false_2 by (intros [? ?]; done).
Qed.

(** *** Writing and reading *)

Lemma writeFile_writable (p : path) content w w' :
  Utils.writeFile p content w = (Ok tt, w') → writable w p.
Proof.
  intros Hrun. destruct (writeFile_inv _ _ _ _ Hrun) as (Hp & _ & f1 & Hf1 & _).
  split; [done |]. split; [eauto |].
  intros Hdir. revert Hrun.
  unfold Utils.writeFile, bind, mkdirSync, writeFileSync.
  cbn [fs cwd emit set_fs]. rewrite resolve_dirname, Hf1 by done.
  cbn [fs cwd emit set_fs].
  rewrite stat_lookup by by apply resolve_nonempty.
  by rewrite (mkdirp_keeps _ _ _ _ _ Hf1 Hdir).
Qed.

Lemma prefix_of_parent (a q : list string) :
  a `prefix_of` q → a ≠ q → a `prefix_of` removelast q.
Proof.
  intros [k ->] Hne. destruct k as [|x k _] using rev_ind.
  - by rewrite app_nil_r in Hne.
  - rewrite app_assoc, removelast_last. by exists k.
Qed.

Lemma readJsonFile_inv (p : path) w v w' :
  Utils.readJsonFile p w = (Ok v, w') →
  w' = w
  ∧ ∃ c, stat (fs w) (resolve (cwd w) p) = Some (File c)
         ∧ JSON_parse c = Some v.
Proof.
  unfold Utils.readJsonFile, bind, existsSync, readFileSync, throw, ret.
  destruct (stat (fs w) (resolve (cwd w) p)) as [[c|]|] eqn:E.
  - rewrite bool_decide_eq_true_2 by eauto. cbn [negb]. rewrite E.
    destruct (JSON_parse c) as [v'|] eqn:Hv; [| done].
    intros [= <- <-]. eauto.
  - rewrite bool_decide_eq_true_2 by eauto. cbn [negb]. by rewrite E.
  - by rewrite bool_decide_eq_false_2 by (intros [? ?]; done).
Qed.

(** Reading changes nothing, whether it returns or throws. *)
Lemma readJsonFile_pure (p : path) (w : World) :
  (Utils.readJsonFile p w).2 = w.
Proof.
  unfold Utils.readJsonFile, bind, existsSync, readFileSync, throw, ret.
  destruct (stat (fs w) (resolve (cwd w) p)) as [[c|]|] eqn:E.
  - rewrite bool_decide_eq_true_2 by eauto. cbn [negb]. rewrite E.
    by destruct (JSON_parse c).
  - rewrite bool_decide_eq_true_2 by eauto. cbn [negb]. by rewrite E.
  - by rewrite bool_decide_eq_false_2 by (intros [? ?]; done).
Qed.

Lemma current_data_fun (w : World) (p : path) (a b : json) :
  current_data w p a → current_data w p b → a = b.
Proof.
  unfold current_data, absent, read_json.
  intros [[Ha ->]|Ha] [[Hb ->]|Hb]; try done.
  - by rewrite Ha in Hb.
  - by rewrite Hb in Ha.
  - congruence.
Qed.

(** A successful update: the data it took as current, and the file it
    wrote. *)
Lemma updateJsonFile_inv (p : path) (new : json) (w w' : World) :
  Utils.updateJsonFile p new w = (Ok tt, w') →
  ∃ cur f1,
    current_data w p cur
    ∧ writable w p
    ∧ cwd w' = cwd w
    ∧ mkdirp (fs w) (removelast (resolve (cwd w) p)) = Some f1
    ∧ fs w' = <[resolve (cwd w) p := File (JSON_stringify (spread cur new) 2)]> f1.
Proof.
  unfold Utils.updateJsonFile. intros Hrun.
  apply bind_Ok in Hrun as (found & w1 & Hex & Hrun).
  unfold Utils.fileExists, existsSync in Hex. injection Hex as <- <-.
  apply bind_Ok in Hrun as (cur & w2 & Hcur & Hrun).
  unfold Utils.writeJsonFile in Hrun.
  pose proof (writeFile_writable _ _ _ _ Hrun) as Hw.
  assert (Hp : comps p ≠ []) by apply Hw.
  pose proof (resolve_nonempty (cwd w) p Hp) as Hq.
  assert (Hcur' : w2 = w ∧ current_data w p cur).
  { case_bool_decide as Hfound.
    - apply readJsonFile_inv in Hcur as (-> & c & Hc & Hv).
      split; [done |]. right. unfold read_json.
      rewrite stat_lookup in Hc by done. by rewrite Hc.
    - injection Hcur as <- <-. split; [done |]. left. split; [| done].
      unfold absent. rewrite <- stat_lookup by done.
      destruct (stat (fs w) _) eqn:E; [| done]. exfalso. apply Hfound. eauto. }
  destruct Hcur' as [-> Hcur'].
  apply writeFile_inv in Hrun as (_ & Hcwd & f1 & Hf1 & Hfs).
  rewrite trim_stringify in Hfs. exists cur, f1. done.
Qed.

(** An update of a path that can be written goes through. *)
Lemma updateJsonFile_next (p : path) (cur new : json) (w : World) :
  writable w p → current_data w p cur →
  ∃ w' f1,
    Utils.updateJsonFile p new w = (Ok tt, w')
    ∧ cwd w' = cwd w
    ∧ mkdirp (fs w) (removelast (resolve (cwd w) p)) = Some f1
    ∧ fs w' = <[resolve (cwd w) p := File (JSON_stringify (spread cur new) 2)]> f1.
Proof.
  intros Hw Hcur.
  assert (Hp : comps p ≠ []) by apply Hw.
  pose proof (resolve_nonempty (cwd w) p Hp) as Hq.
  assert (Hfirst : ∀ k : json → M unit,
    (found <- Utils.fileExists p;;
     currentData <- (if found then Utils.readJsonFile p
                     else ret (JObj []));;
     k currentData) w = k cur w).
  { intros k. unfold Utils.fileExists, bind at 1, existsSync.
    rewrite stat_lookup by done.
    destruct Hcur as [[Habs ->] | Hstored].
    - unfold absent in Habs. rewrite Habs.
      rewrite bool_decide_eq_false_2 by (intros [? ?]; done). done.
    - rewrite bool_decide_eq_true_2.
      + by rewrite (bind_run _ _ _ _ _ (readJsonFile_stored p w cur Hp Hstored)).
      + unfold read_json in Hstored.
        destruct (fs w !! resolve (cwd w) p); [eauto | done]. }
  unfold Utils.updateJsonFile. rewrite Hfirst.
  destruct (writeFile_ok p (JSON_stringify (spread cur new) 2) w Hw)
    as [w' Hw'].
  unfold Utils.writeJsonFile. rewrite Hw'.
  apply writeFile_inv in Hw' as (_ & Hcwd & f1 & Hf1 & Hfs).
  rewrite trim_stringify in Hfs. by exists w', f1.
Qed.

(** The world an update leaves can be updated again, and holds the
    merged data. *)
Lemma updated_world (p : path) (m : json) (w w1 : World) (f1 : FS) :
  comps p ≠ [] → serializable m = true →
  cwd w1 = cwd w →
  mkdirp (fs w) (removelast (resolve (cwd w) p)) = Some f1 →
  fs w1 = <[resolve (cwd w) p := File (JSON_stringify m 2)]> f1 →
  writable w1 p ∧ current_data w1 p m
  ∧ mkdirp (fs w1) (removelast (resolve (cwd w1) p)) = Some (fs w1).
Proof.
  intros Hp Hm Hcwd Hf1 Hfs.
  pose proof (resolve_nonempty (cwd w) p Hp) as Hq.
  assert (Hmk : mkdirp (fs w1) (removelast (resolve (cwd w1) p)) = Some (fs w1)).
  { rewrite Hcwd, Hfs. by apply (mkdirp_insert_file (fs w)). }
  assert (Hfile : fs w1 !! resolve (cwd w1) p
                  = Some (File (JSON_stringify m 2))).
  { rewrite Hcwd, Hfs. apply lookup_insert_eq. }
  split; [| split; [| done]].
  - split; [done |]. split; [by rewrite Hmk | by rewrite Hfile].
  - right. unfold read_json. rewrite Hfile. by apply parse_stringify.
Qed.

Lemma serializable_NoDup (o : list (string * json)) :
  serializable (JObj o) = true → NoDup o.*1.
Proof.
  cbn. intros [H _]%andb_prop. by apply bool_decide_eq_true in H.
Qed.


(** *** Copying a template *)

Lemma mkdirp_parent_noop (f f' : FS) (d : list string) :
  mkdirp f d = Some f' → mkdirp f' (removelast d) = Some f'.
Proof.
  intros H. apply mkdirp_noop. intros a Ha Hne.
  apply stat_Dir_lookup; [done |]. apply (mkdirp_prefix_dir _ _ _ _ H).
  etrans; [exact Ha | apply removelast_prefix].
Qed.

(** Copying entries that are in place changes nothing. *)
Lemma copy_entries_same (d : list string) (l : list (list string * node))
    (f : FS) :
  (∀ rel n, (rel, n) ∈ l →
     f !! (d ++ rel) = Some n ∧ (d ++ rel = [] → n = Dir)) →
  copy_entries d l f = (Ok tt, f).
Proof.
  induction l as [|[rel n] l IH]; intros H; [done |].
  cbn [copy_entries].
  destruct (H rel n) as [Hin Hroot]; [left |].
  assert (Hstat : stat f (d ++ rel) = Some n).
  { destruct (d ++ rel) eqn:E; [by rewrite Hroot | done]. }
  rewrite Hstat, (insert_id _ _ _ Hin).
  rewrite IH by (intros rel' n' Hin'; apply H; by right).
  by destruct n.
Qed.

Lemma unrelated_paths (s d rel rel' : list string) :
  ¬ s `prefix_of` d → ¬ d `prefix_of` s → s ++ rel ≠ d ++ rel'.
Proof.
  intros Hsd Hds Heq.
  apply app_eq_inv in Heq as [(k & -> & _)|(k & -> & _)].
  - apply Hds. by exists k.
  - apply Hsd. by exists k.
Qed.

(** A run of [copyCliPackageTemplate] that found the template and
    returned: the target was made a directory in [f4], every entry of
    the template is in the target, and what is no entry of the target
    is as in [f4]. *)
Lemma copied_template
    (templateType packageName monorepoRoot : string) (repo : Utils.Repo)
    (cliRoot : string) (w w1 : World) :
  let s := resolve (cwd w) (path_join (cliRoot, "templates", templateType)) in
  let d := resolve (cwd w)
             (path_join (monorepoRoot, Utils.repo_dir repo, packageName)) in
  is_Some (stat (fs w) s) →
  Utils.copyCliPackageTemplate templateType packageName monorepoRoot repo
    cliRoot w = (Ok tt, w1) →
  cwd w1 = cwd w
  ∧ ¬ s `prefix_of` d
  ∧ ∃ f4,
      mkdirp (fs w) d = Some f4
      ∧ stat f4 s = Some Dir
      ∧ (∀ rel n, (rel, n) ∈ ([], Dir) :: below s f4 →
                  fs w1 !! (d ++ rel) = Some n)
      ∧ (∀ t, (∀ rel, t ≠ d ++ rel) → fs w1 !! t = f4 !! t).
Proof.
  intros s d Hsrc Hrun.
  unfold Utils.copyCliPackageTemplate in Hrun.
  apply bind_Ok in Hrun as ([] & wa & [= <-] & Hrun).
  apply bind_Ok in Hrun as ([] & wb & [= <-] & Hrun).
  apply bind_Ok in Hrun as (found & wc & [= <- <-] & Hrun).
  cbn [fs cwd emit] in Hrun. fold s in Hrun.
  rewrite bool_decide_eq_true_2 in Hrun by done. cbn [negb] in Hrun.
  apply bind_Ok in Hrun as ([] & w4 & Hmk & Hrun).
  apply bind_Ok in Hrun as ([] & w5 & Hcp & Hlog).
  injection Hlog as <-.
  apply mkdirSync_recursive_inv in Hmk as [Hcwd4 Hmk].
  cbn [fs cwd emit] in Hcwd4, Hmk. fold d in Hmk.
  apply copySync_dir_inv in Hcp as (Hsdir & Hsd & Hcwd5 & f1 & Hf1 & Hcopy);
    rewrite Hcwd4 in *; cbn [cwd emit] in *;
    [| fold d; by apply (mkdirp_dir _ _ _ Hmk)].
  fold s in Hsdir, Hsd, Hcopy. fold d in Hsd, Hf1, Hcopy.
  rewrite (mkdirp_parent_noop _ _ _ Hmk) in Hf1. injection Hf1 as <-.
  split; [done |]. split; [done |]. exists (fs w4).
  split; [done |]. split; [done |]. split.
  - intros rel n Hin. apply (copy_entries_lookup _ _ _ _ _ _ Hcopy Hin).
    intros n' Hn'. revert Hin Hn'.
    intros H1%elem_of_cons H2%elem_of_cons.
    destruct H1 as [E1|[Hne H1]%elem_of_below],
             H2 as [E2|[Hne' H2]%elem_of_below].
    + congruence.
    + by injection E1 as -> ->.
    + by injection E2 as -> ->.
    + congruence.
  - intros t Ht. apply (copy_entries_frame _ _ _ _ _ Hcopy). auto.
Qed.

(** *** Running commands *)

Lemma runCommand_run sh (command : string) (dir : option string) (w : World) :
  dir ≠ Some EmptyString →
  let d := match dir with
           | Some s => resolve (cwd w) (path_of s)
           | None => cwd w
           end in
  let place := match dir with
               | Some s => s
               | None => show_path {| absolute := true; comps := cwd w |}
               end in
  let announced :=
    emit (Exec command d)
      (emit (Log ("Executing: " +:+ command +:+ " in " +:+ place)) w) in
  Utils.runCommand sh command dir w
  = match dir, stat (fs w) d with
    | None, Some Dir | Some _, Some Dir =>
        match sh command d (fs w) with
        | Some (out, f) => (Ok tt, set_fs announced f)
        | None => (Throw "Command failed", announced)
        end
    | None, _ => (Throw "ENOENT", w)
    | Some _, _ => (Throw "ENOENT", announced)
    end.
Proof.
  intros Hdir d place announced.
  unfold Utils.runCommand, bind, process_cwd, console_log, execSync, ret.
  destruct dir as [s|].
  - rewrite decide_False by congruence. cbn [fmap option_fmap option_map].
    cbn [fs cwd emit]. fold d.
    destruct (stat (fs w) d) as [[|]|]; try done.
    by destruct (sh command d (fs w)) as [[out f]|].
  - cbn [fmap option_fmap option_map]. subst d.
    destruct (stat (fs w) (cwd w)) as [[|]|] eqn:E; try done.
    cbn [fs cwd emit]. rewrite E.
    by destruct (sh command (cwd w) (fs w)) as [[out f]|].
Qed.

(** *** Every outcome of [writeFile] *)

Lemma writeFile_run (p : path) (content : string) (w : World) :
  let q := resolve (cwd w) p in
  let parent := resolve (cwd w) (path_dirname p) in
  Utils.writeFile p content w
  = match mkdirp (fs w) parent with
    | None => (Throw "EEXIST", emit (Mkdir parent) w)
    | Some f1 =>
        let w1 := emit (WriteFile q (trim content))
                    (set_fs (emit (Mkdir parent) w) f1) in
        match stat f1 q with
        | Some Dir => (Throw "EISDIR", w1)
        | _ =>
            match stat f1 (removelast q) with
            | Some Dir => (Ok tt, set_fs w1 (<[q := File (trim content)]> f1))
            | Some (File _) => (Throw "ENOTDIR", w1)
            | None => (Throw "ENOENT", w1)
            end
        end
    end.
Proof.
  intros q parent.
  unfold Utils.writeFile, bind, mkdirSync, writeFileSync.
  cbn [fs cwd emit set_fs]. fold q parent.
  by destruct (mkdirp (fs w) parent) as [f1|].
Qed.

Lemma tree_writeFile (p : path) (content : string) (w : World) :
  tree (fs w) → tree (fs (Utils.writeFile p content w).2).
Proof.
  intros Ht. rewrite writeFile_run. cbv zeta.
  destruct (mkdirp (fs w) _) as [f1|] eqn:Hmk; [| done].
  pose proof (tree_mkdirp _ _ _ Ht Hmk) as Ht1.
  destruct (stat f1 (resolve (cwd w) p)) as [[c|]|] eqn:Hq;
    destruct (stat f1 (removelast (resolve (cwd w) p))) as [[c'|]|] eqn:Hp;
    cbn [snd fs set_fs emit]; try done.
  - apply tree_insert_file; try done.
    + intros Hnil. by rewrite Hnil in Hq.
    + destruct (resolve (cwd w) p); [done |]. cbn in Hq. by rewrite Hq.
  - apply tree_insert_file; try done.
    + intros Hnil. by rewrite Hnil in Hq.
    + destruct (resolve (cwd w) p); [done |]. cbn in Hq. by rewrite Hq.
Qed.

Lemma obj_set_new k v (o : list (string * json)) :
  k ∉ o.*1 → obj_set k v o = o ++ [(k, v)].
Proof.
  induction o as [|[k0 v0] o IH]; [done |]. cbn.
  intros [Hne Hk]%not_elem_of_cons. rewrite decide_False by done.
  by rewrite IH.
Qed.

(** Properties with new names are appended in their order. *)
Lemma assign_new (o l : list (string * json)) :
  NoDup (o.*1 ++ l.*1) →
  foldl (fun acc (kv : string * json) => obj_set kv.1 kv.2 acc) o l = o ++ l.
Proof.
  revert o. induction l as [|[k v] l IH]; intros o Hnd;
    [by rewrite app_nil_r |].
  cbn [foldl]. cbn [fst snd]. rewrite fmap_cons in Hnd. cbn [fst] in Hnd.
  assert (Hk : k ∉ o.*1).
  { apply NoDup_app in Hnd as (_ & Hdisj & _). intros Hin.
    apply (Hdisj k Hin). left. }
  rewrite obj_set_new by done. rewrite IH.
  - by rewrite <- app_assoc.
  - rewrite fmap_app. cbn. rewrite <- app_assoc. exact Hnd.
Qed.

End UtilsFacts.

Module CliFacts.
Import Text Json Node Spec TextFacts JsonFacts NodeFacts RunFacts FsFacts
  MergeFacts.
Local Open Scope js_scope.

(** *** Paths of a package and of an application *)

Lemma package_file_path (root : list string) (packageName : string)
    (rel : path) :
  resolve root (path_join (path_join ("packages", packageName), rel))
  = resolve root (path_join ("packages", packageName)) ++ comps rel.
Proof.
  unfold resolve, join_paths. cbn. by rewrite !app_nil_r, !app_assoc.
Qed.

Lemma app_file_path (root : list string) (name : string) (rel : path) :
  resolve root (path_join (path_join ("apps", name), rel))
  = resolve root (path_join ("apps", name)) ++ comps rel.
Proof.
  unfold resolve, join_paths. cbn. by rewrite !app_nil_r, !app_assoc.
Qed.

Lemma app_dir_nonempty (root : list string) (name : string) :
  resolve root (path_join ("apps", name)) ≠ [].
Proof.
  unfold resolve, join_paths. cbn. by intros [_ ?]%app_eq_nil.
Qed.

(** *** Calls that go through *)

Lemma writeFileSync_run (p : path) (content : string) (w : World) :
  let q := resolve (cwd w) p in
  stat (fs w) q ≠ Some Dir → stat (fs w) (removelast q) = Some Dir →
  writeFileSync p content w
  = (Ok tt, set_fs (emit (WriteFile q content) w)
              (<[q := File content]> (fs w))).
Proof.
  intros q Hq Hparent. unfold writeFileSync. fold q. rewrite Hparent.
  by destruct (stat (fs w) q) as [[|]|].
Qed.

(** *** Loops *)

Lemma forEach_app {A} (l1 l2 : list A) (f : A → M unit) (w : World) :
  forEach (l1 ++ l2) f w = (forEach l1 f;; forEach l2 f) w.
Proof.
  revert w. induction l1 as [|x l1 IH]; intros w; [done |].
  cbn [app forEach]. unfold bind.
  destruct (f x w) as [[[]|e] w1]; [| done]. by rewrite IH.
Qed.

Lemma keeps_forEach {A} root q (l : list A) (f : A → M unit) :
  (∀ x, x ∈ l → keeps root q (f x)) → keeps root q (forEach l f).
Proof.
  induction l as [|x l IH]; intros H; cbn [forEach]; [apply keeps_ret |].
  apply keeps_bind; [apply H; left |].
  intros _. apply IH. intros y Hy. apply H. by right.
Qed.

Lemma returns_forEach {A} root (l : list A) (f : A → M unit) :
  (∀ x, returns root root (f x) (fun _ => True)) →
  returns root root (forEach l f) (fun _ => True).
Proof.
  intros H. induction l as [|x l IH]; intros w a w' Hcwd; cbn [forEach].
  - by intros [= <- <-].
  - intros (y & w1 & H1 & H2)%bind_Ok.
    destruct (H x _ _ _ Hcwd H1) as [Hcwd1 _]. by apply (IH w1 a w').
Qed.

Lemma establishes_ext {A} before after q P (c c' : M A) :
  (∀ w, c w = c' w) →
  establishes before after q P c' → establishes before after q P c.
Proof. intros Heq H w a w' Hcwd Hrun. rewrite Heq in Hrun. eauto. Qed.

(** The entry of a loop that establishes a file, when the entries after
    it keep the file. *)
Lemma est_forEach {A} root q P (l1 l2 : list A) (x : A) (f : A → M unit) :
  robust q P →
  (∀ y, returns root root (f y) (fun _ => True)) →
  establishes root root q P (f x) →
  (∀ y, y ∈ l2 → keeps root q (f y)) →
  establishes root root q P (forEach (l1 ++ x :: l2) f).
Proof.
  intros Hrob Hret Hx Hl2.
  eapply establishes_ext; [apply forEach_app |].
  eapply est_bind_r; [by apply returns_forEach | intros _ _].
  cbn [forEach]. eapply est_bind_l; [done | done |].
  intros _. by apply keeps_forEach.
Qed.

(** *** Objects that can be written *)

Lemma serializable_obj_set k v (o : list (string * json)) :
  forallb (fun kv : string * json => serializable kv.2) o = true →
  serializable v = true →
  forallb (fun kv : string * json => serializable kv.2) (obj_set k v o) = true.
Proof.
  intros Ho Hv. induction o as [|[k0 v0] o IH]; cbn.
  - by rewrite Hv.
  - cbn in Ho. apply andb_prop in Ho as [H0 Ho].
    destruct (decide (k = k0)); cbn.
    + by rewrite Hv, Ho.
    + by rewrite H0, IH.
Qed.

Lemma serializable_spread (a b : list (string * json)) :
  serializable (JObj a) = true → serializable (JObj b) = true →
  serializable (spread (JObj a) (JObj b)) = true.
Proof.
  intros [Hna Ha]%andb_prop [Hnb Hb]%andb_prop.
  apply bool_decide_eq_true in Hna.
  unfold spread. cbn [own_props serializable].
  apply andb_true_intro. split.
  - apply bool_decide_eq_true. by apply NoDup_assign.
  - clear Hna Hnb. revert a Ha. induction b as [|[k v] b IH]; intros a Ha;
      [done |].
    cbn in Hb. apply andb_prop in Hb as [Hv Hb]. cbn [foldl].
    apply IH; [done |]. by apply serializable_obj_set.
Qed.

(** *** Steps inside a directory *)

Lemma not_manifest_at (l : list string) (a b x : string) :
  x ≠ "package.json" → ¬ is_manifest (l ++ [a; b; x]).
Proof.
  intros Hx. unfold is_manifest.
  replace (l ++ [a; b; x]) with ((l ++ [a; b]) ++ [x])
    by by rewrite <- app_assoc.
  rewrite last_snoc. congruence.
Qed.

Ltac inside_step :=
  eexists; split; [reflexivity |]; first [ reflexivity | by eexists ].

(** *** Scripts *)

Lemma workspace_steps_inside root :
  Forall (inside root)
    (workspace_steps root ++ db_steps root ++ queue_steps root).
Proof.
  unfold workspace_steps, db_steps, queue_steps, package_steps. cbn.
  repeat (apply List.Forall_cons; [inside_step |]).
  apply List.Forall_nil.
Qed.

Lemma initializeApp_node_script sh pick (name : string) base :
  runs_script base base (Cli.initializeApp sh pick name (Some "node"))
    (node_steps base name).
Proof.
  eapply script_eq.
  { unfold Cli.initializeApp. cbn [Cli.missing default].
    rewrite bool_decide_eq_false_2 by done.
    eapply script_bind_ret. rewrite decide_False, decide_True by done.
    script_run. }
  reflexivity.
Qed.

Lemma node_steps_inside base (name : string) :
  Forall (inside (resolve base (path_join ("apps", name))))
    (node_steps base name).
Proof.
  unfold node_steps. cbv zeta. norm_paths.
  repeat (apply List.Forall_cons;
          [eexists; split; [reflexivity |];
           first [ reflexivity
                 | rewrite ?(app_comm_cons _ _ "apps"), ?app_assoc;
                   by eexists ] |]).
  apply List.Forall_nil.
Qed.

End CliFacts.

Module Properties.
Import Text Json Node Spec Examples.
Import TextFacts JsonFacts NodeFacts RunFacts TrimFacts MergeFacts FsFacts
  UtilsFacts CliFacts.
Local Open Scope js_scope.

(** *** Removing and clearing *)

(** X1. [removeGitDirectory] never throws. In a file system that is a
    tree, nothing is at or below [<appDir>/.git] afterwards, everything
    else is as it was, and the removal is announced exactly when there
    was something to remove. *)
Theorem removeGitDirectory_removes (appDir name : string) (w : World) :
  let g := resolve (cwd w) (path_join (appDir, ".git")) in
  tree (fs w) →
  ∃ w',
    Utils.removeGitDirectory appDir name w = (Ok tt, w')
    ∧ cwd w' = cwd w
    ∧ (∀ q, g `prefix_of` q → fs w' !! q = None)
    ∧ (∀ q, ¬ g `prefix_of` q → fs w' !! q = fs w !! q)
    ∧ new_events w w'
      = if bool_decide (is_Some (fs w !! g))
        then [Log ("Removing .git directory from " +:+ name +:+ " app...")]
        else [].
Proof.
  intros g Htree. rewrite removeGitDirectory_run. fold g.
  destruct (git_dir (cwd w) appDir) as [l Hl]. fold g in Hl.
  assert (Hg : g ≠ []) by (rewrite Hl; by intros [_ ?]%app_eq_nil).
  case_bool_decide as Hfound; eexists; (split; [reflexivity |]);
    cbn [fs cwd trace set_fs emit]; (split; [done |]).
  - split; [intros q; apply removed_below |].
    split; [intros q; apply removed_frame |].
    by apply new_events_app.
  - split; [| split; [done |]].
    + intros q Hq. apply (tree_nothing_below _ g); try done.
      destruct (fs w !! g) eqn:E; [| done]. exfalso. apply Hfound. eauto.
    + unfold new_events. by rewrite drop_all.
Qed.

Lemma removeGitDirectory_removes_witness :
  ∃ w',
    Utils.removeGitDirectory "web" "web" cloned = (Ok tt, w')
    ∧ fs w' !! ["home"; "web"; ".git"; "HEAD"] = None
    ∧ fs w' !! ["home"; "web"; "README.md"] = Some (File "# web").
Proof.
  destruct (removeGitDirectory_removes "web" "web" cloned)
    as (w' & Hrun & _ & Hgone & Hkept & _).
  - apply (bool_decide_unpack _). by vm_compute.
  - exists w'. split; [done |]. split.
    + apply Hgone. by exists ["HEAD"].
    + rewrite Hkept; [by vm_compute |].
      intros [k Hk]. vm_compute in Hk. discriminate Hk.
Defined.

(** X2. [removeGitDirectory] is idempotent: a second call finds nothing
    to remove, announces nothing and leaves the world as the first call
    left it. *)
Theorem removeGitDirectory_idempotent (appDir name : string) (w : World) :
  let w1 := (Utils.removeGitDirectory appDir name w).2 in
  Utils.removeGitDirectory appDir name w1 = (Ok tt, w1).
Proof.
  intros w1. pose proof (removeGitDirectory_run appDir name w) as H1.
  cbv zeta in H1.
  assert (Hcwd : cwd w1 = cwd w).
  { unfold w1. rewrite H1. by case_bool_decide. }
  assert (Hgone : fs w1 !! resolve (cwd w) (path_join (appDir, ".git")) = None).
  { unfold w1. rewrite H1. case_bool_decide as Hfound; cbn [snd fs set_fs].
    - by apply removed_below.
    - destruct (fs w !! _) eqn:E; [| done]. exfalso. apply Hfound. eauto. }
  rewrite removeGitDirectory_run. rewrite Hcwd, Hgone.
  by rewrite bool_decide_eq_false_2 by (intros [? ?]; done).
Qed.

(** X3. When [createDirIfNotExists] returns, the path exists, so that
    [fileExists] answers [true]: as what it was when something was
    there (a file stays a file and the world is untouched), as a
    directory otherwise. Nothing that was there is lost or changed, and
    what is new are directories on the way to the path. *)
Theorem createDirIfNotExists_ensures (dirPath : path) (w w' : World) :
  let q := resolve (cwd w) dirPath in
  Utils.createDirIfNotExists dirPath w = (Ok tt, w') →
  cwd w' = cwd w
  ∧ stat (fs w') q = Some (default Dir (stat (fs w) q))
  ∧ (∀ t n, fs w !! t = Some n → fs w' !! t = Some n)
  ∧ (∀ t n, fs w' !! t = Some n → fs w !! t = None →
            n = Dir ∧ t `prefix_of` q)
  ∧ (is_Some (stat (fs w) q) → w' = w)
  ∧ Utils.fileExists dirPath w' = (Ok true, w').
Proof.
  intros q. rewrite createDirIfNotExists_run. fold q.
  unfold Utils.fileExists, existsSync.
  destruct (stat (fs w) q) as [n|] eqn:E.
  - intros [= <-]. fold q. rewrite E.
    split; [done |]. split; [done |]. split; [done |].
    split; [intros; congruence |]. split; [done |].
    by rewrite bool_decide_eq_true_2 by eauto.
  - destruct (mkdirp (fs w) q) as [f|] eqn:Hmk; [| done].
    intros [= <-]. cbn [fs cwd set_fs emit]. fold q.
    rewrite (mkdirp_dir _ _ _ Hmk).
    split; [done |]. split; [done |].
    split; [intros t n; by apply (mkdirp_keeps _ _ _ _ _ Hmk) |].
    split; [intros t n; by apply (mkdirp_new _ _ _ _ _ Hmk) |].
    split; [by intros [? ?] |].
    by rewrite bool_decide_eq_true_2 by eauto.
Qed.

Lemma createDirIfNotExists_ensures_witness :
  let w' := (Utils.createDirIfNotExists "web/dist/assets" cloned).2 in
  stat (fs w') ["home"; "web"; "dist"; "assets"] = Some Dir
  ∧ fs w' !! ["home"; "web"; "README.md"] = Some (File "# web").
Proof.
  intros w'.
  destruct (createDirIfNotExists_ensures "web/dist/assets" cloned w')
    as (_ & Hdir & Hkept & _).
  - apply run_Ok. by vm_compute.
  - split; [exact Hdir |]. apply Hkept. by vm_compute.
Defined.

(** X4. [createDirIfNotExists] throws exactly when nothing is at the
    path and a file is on the way to it; the file system is then as it
    was. *)
Theorem createDirIfNotExists_fails (dirPath : path) (w : World) :
  let q := resolve (cwd w) dirPath in
  ((∃ e w', Utils.createDirIfNotExists dirPath w = (Throw e, w'))
   ↔ stat (fs w) q = None
     ∧ ∃ a c, a `prefix_of` q ∧ a ≠ [] ∧ fs w !! a = Some (File c))
  ∧ (∀ e w', Utils.createDirIfNotExists dirPath w = (Throw e, w') →
             fs w' = fs w ∧ cwd w' = cwd w).
Proof.
  intros q. rewrite createDirIfNotExists_run. fold q.
  destruct (stat (fs w) q) as [n|] eqn:E.
  - split; [| by intros e w' [=]].
    split; [by intros (e & w' & [=]) | by intros [[=] _]].
  - destruct (mkdirp (fs w) q) as [f|] eqn:Hmk.
    + split; [| by intros e w' [=]].
      split; [by intros (e & w' & [=]) |].
      intros (_ & a & c & Ha & Hne & Hfile).
      by rewrite (mkdirp_file _ _ _ _ Ha Hne Hfile) in Hmk.
    + split; [| by intros e w' [= _ <-]].
      split; [| eauto]. intros _. split; [done |].
      by apply (mkdirp_go_None [] q).
Qed.

(** X5. [clearDirectory] on a directory removes everything below it
    and nothing else: the directory itself stays, what is not below it
    is as it was, and nothing is reported. *)
Theorem clearDirectory_empties (dirPath : path) (w : World) :
  let q := resolve (cwd w) dirPath in
  stat (fs w) q = Some Dir →
  ∃ w',
    Utils.clearDirectory dirPath w = (Ok tt, w')
    ∧ cwd w' = cwd w ∧ trace w' = trace w
    ∧ stat (fs w') q = Some Dir
    ∧ (∀ t, q `prefix_of` t → t ≠ q → fs w' !! t = None)
    ∧ (∀ t, ¬ (q `prefix_of` t ∧ t ≠ q) → fs w' !! t = fs w !! t).
Proof.
  intros q Hdir. rewrite clearDirectory_run. fold q. rewrite Hdir.
  eexists. split; [reflexivity |]. cbn [fs cwd trace set_fs].
  split; [done |]. split; [done |].
  split; [| split].
  - destruct (decide (q = [])) as [Hq|Hq]; [by rewrite Hq |].
    rewrite stat_lookup in Hdir |- * by done.
    by rewrite emptied_frame by (intros [_ ?]; done).
  - intros t. apply emptied_below.
  - intros t. apply emptied_frame.
Qed.

Lemma clearDirectory_empties_witness :
  ∃ w',
    Utils.clearDirectory "web/.git" cloned = (Ok tt, w')
    ∧ stat (fs w') ["home"; "web"; ".git"] = Some Dir
    ∧ fs w' !! ["home"; "web"; ".git"; "HEAD"] = None.
Proof.
  destruct (clearDirectory_empties "web/.git" cloned)
    as (w' & Hrun & _ & _ & Hdir & Hgone & _).
  - by vm_compute.
  - exists w'. split; [done |]. split; [exact Hdir |].
    apply Hgone; [by exists ["HEAD"] | done].
Defined.

(** X6. [clearDirectory] creates nothing: where nothing is, it returns
    and leaves the world as it is, although [emptyDirSync] alone would
    create the directory; on a file it throws and leaves the world as
    it is. *)
Theorem clearDirectory_elsewhere (dirPath : path) (w : World) :
  let q := resolve (cwd w) dirPath in
  (stat (fs w) q = None → Utils.clearDirectory dirPath w = (Ok tt, w))
  ∧ (∀ c, stat (fs w) q = Some (File c) →
          ∃ e, Utils.clearDirectory dirPath w = (Throw e, w))
  ∧ (stat (fs w) q = None → is_Some (mkdirp (fs w) q) →
     ∃ w', emptyDirSync dirPath w = (Ok tt, w')
           ∧ stat (fs w') q = Some Dir).
Proof.
  intros q. rewrite clearDirectory_run. fold q.
  split; [by intros -> |]. split.
  - intros c ->. eauto.
  - intros Hnone [f Hf]. unfold emptyDirSync. fold q. rewrite Hnone, Hf.
    eexists. split; [reflexivity |]. by apply (mkdirp_dir _ _ _ Hf).
Qed.

Lemma clearDirectory_elsewhere_witness :
  Utils.clearDirectory "web/dist" cloned = (Ok tt, cloned)
  ∧ ∃ e, Utils.clearDirectory "web/README.md" cloned = (Throw e, cloned).
Proof.
  split.
  - apply (clearDirectory_elsewhere "web/dist" cloned). by vm_compute.
  - apply (proj1 (proj2 (clearDirectory_elsewhere "web/README.md" cloned))
             "# web").
    by vm_compute.
Defined.

(** *** Writing files *)

(** X7. When [writeFile] returns, the file holds the trimmed content,
    every directory on the way to it exists, whatever else was there is
    still there, and what is new besides the file are directories on
    the way to it. *)
Theorem writeFile_creates_ancestors
    (filePath : path) (content : string) (w w' : World) :
  let q := resolve (cwd w) filePath in
  Utils.writeFile filePath content w = (Ok tt, w') →
  fs w' !! q = Some (File (trim content))
  ∧ (∀ a, a `prefix_of` q → a ≠ q → stat (fs w') a = Some Dir)
  ∧ (∀ t n, t ≠ q → fs w !! t = Some n → fs w' !! t = Some n)
  ∧ (∀ t n, fs w' !! t = Some n → fs w !! t = None →
            t = q ∨ (n = Dir ∧ t `prefix_of` q)).
Proof.
  intros q Hrun.
  apply writeFile_inv in Hrun as (Hp & _ & f1 & Hf1 & ->). fold q in Hf1 |- *.
  split; [apply lookup_insert_eq |]. split; [| split].
  - intros a Ha Hne. destruct (decide (a = [])) as [->|Hnil]; [done |].
    rewrite stat_lookup, lookup_insert_ne, <- stat_lookup by done.
    apply (mkdirp_prefix_dir _ _ _ _ Hf1). by apply prefix_of_parent.
  - intros t n Hne Ht. rewrite lookup_insert_ne by done.
    by apply (mkdirp_keeps _ _ _ _ _ Hf1).
  - intros t n Ht Hnone. destruct (decide (t = q)) as [|Hne]; [by left |].
    right. rewrite lookup_insert_ne in Ht by done.
    destruct (mkdirp_new _ _ _ _ _ Hf1 Ht Hnone) as [-> Hpre].
    split; [done |]. etrans; [exact Hpre | apply removelast_prefix].
Qed.

Lemma writeFile_creates_ancestors_witness :
  let w' := (Utils.writeFile "web/src/lib/util.ts" (" export {};" +:+ nl)
               cloned).2 in
  fs w' !! ["home"; "web"; "src"; "lib"; "util.ts"]
  = Some (File "export {};")
  ∧ stat (fs w') ["home"; "web"; "src"; "lib"] = Some Dir
  ∧ fs w' !! ["home"; "web"; "README.md"] = Some (File "# web").
Proof.
  intros w'.
  destruct (writeFile_creates_ancestors "web/src/lib/util.ts"
              (" export {};" +:+ nl) cloned w')
    as (Hfile & Hdirs & Hkept & _).
  - apply run_Ok. by vm_compute.
  - split; [exact Hfile |]. split.
    + apply Hdirs; [by exists ["util.ts"] | done].
    + by apply Hkept.
Defined.

(** X8. White space around the content never reaches the disk:
    [writeFile] with the content and with the trimmed content are the
    same call, and the file reads back as the trimmed content. *)
Theorem writeFile_trims (filePath : path) (content : string) (w : World) :
  Utils.writeFile filePath (trim content) w
  = Utils.writeFile filePath content w
  ∧ (∀ w', Utils.writeFile filePath content w = (Ok tt, w') →
           readFileSync filePath w' = (Ok (trim content), w')).
Proof.
  split.
  - unfold Utils.writeFile. by rewrite trim_idem.
  - intros w' Hrun.
    apply writeFile_inv in Hrun as (Hp & Hcwd & f1 & Hf1 & Hfs).
    unfold readFileSync. rewrite Hcwd, Hfs.
    rewrite stat_lookup by by apply resolve_nonempty.
    by rewrite lookup_insert_eq.
Qed.

Lemma writeFile_trims_witness :
  ∃ w', Utils.writeFile "notes.txt" (nl +:+ "  kept  " +:+ nl) home
        = (Ok tt, w')
        ∧ readFileSync "notes.txt" w' = (Ok "kept", w').
Proof.
  eexists. split; [by vm_compute |].
  apply (writeFile_trims "notes.txt" (nl +:+ "  kept  " +:+ nl) home).
  by vm_compute.
Defined.

(** *** Updating JSON files *)

(** X9. [updateJsonFile] does not replace what it cannot read: when a
    directory or a file that is empty or holds only white space is at
    the path, it throws and leaves the world as it is; the empty object
    stands in only where nothing is. *)
Theorem updateJsonFile_keeps_unreadable
    (filePath : path) (newData : json) (w : World) :
  let q := resolve (cwd w) filePath in
  (stat (fs w) q = Some Dir
   ∨ ∃ c, stat (fs w) q = Some (File c) ∧ skip_ws c = EmptyString) →
  ∃ e, Utils.updateJsonFile filePath newData w = (Throw e, w).
Proof.
  intros q H.
  assert (Hread : ∃ e, Utils.readJsonFile filePath w = (Throw e, w)).
  { unfold Utils.readJsonFile, bind, existsSync, readFileSync, throw.
    fold q. destruct H as [Hdir | (c & Hc & Hblank)].
    - rewrite Hdir, bool_decide_eq_true_2 by eauto. cbn [negb].
      fold q. rewrite Hdir. eauto.
    - rewrite Hc, bool_decide_eq_true_2 by eauto. cbn [negb].
      fold q. rewrite Hc.
      assert (JSON_parse c = None) as ->; [| eauto].
      unfold JSON_parse. cbn [parse_value]. by rewrite Hblank. }
  destruct Hread as [e Hread]. exists e.
  unfold Utils.updateJsonFile, Utils.fileExists, bind at 1, existsSync.
  fold q. rewrite bool_decide_eq_true_2 by (destruct H as [->|(c & -> & _)]; eauto).
  unfold bind. by rewrite Hread.
Qed.

Lemma updateJsonFile_keeps_unreadable_witness :
  let w := set_fs home (<[["home"; "empty.json"] := File nl]> (fs home)) in
  ∃ e, Utils.updateJsonFile "empty.json" (JObj [("a", JNum 1)]) w
       = (Throw e, w).
Proof.
  intros w. apply (updateJsonFile_keeps_unreadable "empty.json" _ w).
  right. exists nl. by vm_compute.
Defined.

(** X10. [updateJsonFile] is idempotent: after an update has gone
    through, the same update again goes through and leaves the file
    system as it is. *)
Theorem updateJsonFile_idempotent
    (filePath : path) (newData cur : json) (w w1 : World) :
  current_data w filePath cur →
  serializable (spread cur newData) = true →
  Utils.updateJsonFile filePath newData w = (Ok tt, w1) →
  ∃ w2, Utils.updateJsonFile filePath newData w1 = (Ok tt, w2)
        ∧ fs w2 = fs w1 ∧ cwd w2 = cwd w1.
Proof.
  intros Hcur Hser Hrun.
  apply updateJsonFile_inv in Hrun as (cur' & f1 & Hcur' & Hw & Hcwd & Hf1 & Hfs).
  rewrite <- (current_data_fun _ _ _ _ Hcur Hcur') in Hfs. clear cur' Hcur'.
  assert (Hp : comps filePath ≠ []) by apply Hw.
  destruct (updated_world _ _ _ _ _ Hp Hser Hcwd Hf1 Hfs) as (Hw1 & Hcur1 & Hmk1).
  destruct (updateJsonFile_next filePath _ newData w1 Hw1 Hcur1)
    as (w2 & f2 & Hrun2 & Hcwd2 & Hf2 & Hfs2).
  exists w2. split; [done |]. split; [| done].
  rewrite Hmk1 in Hf2. injection Hf2 as <-.
  rewrite Hfs2, spread_idem by by apply (serializable_NoDup _ Hser).
  apply insert_id. rewrite Hcwd, Hfs. apply lookup_insert_eq.
Qed.

Lemma updateJsonFile_idempotent_witness :
  let up := Utils.updateJsonFile "conf/settings.json"
              (JObj [("port", JNum 8080); ("tags", JArr [JStr "a"])]) in
  ∃ w2, up (up home).2 = (Ok tt, w2) ∧ fs w2 = fs (up home).2.
Proof.
  intros up.
  destruct (updateJsonFile_idempotent "conf/settings.json"
              (JObj [("port", JNum 8080); ("tags", JArr [JStr "a"])])
              (JObj []) home (up home).2)
    as (w2 & Hrun & Hfs & _).
  - left. by vm_compute.
  - by vm_compute.
  - apply run_Ok. by vm_compute.
  - by exists w2.
Defined.

(** X11. Updates compose: an update with [d1] followed by an update
    with [d2] leaves the file system that the single update with
    [{...d1, ...d2}] leaves. *)
Theorem updateJsonFile_composes
    (filePath : path) (d1 d2 cur : json) (w w1 w2 : World) :
  current_data w filePath cur →
  serializable (spread cur d1) = true →
  NoDup (own_props d1).*1 →
  Utils.updateJsonFile filePath d1 w = (Ok tt, w1) →
  Utils.updateJsonFile filePath d2 w1 = (Ok tt, w2) →
  ∃ w3, Utils.updateJsonFile filePath (spread d1 d2) w = (Ok tt, w3)
        ∧ fs w3 = fs w2 ∧ cwd w3 = cwd w2.
Proof.
  intros Hcur Hser Hnd Hrun1 Hrun2.
  apply updateJsonFile_inv in Hrun1
    as (cur' & f1 & Hcur' & Hw & Hcwd & Hf1 & Hfs).
  rewrite <- (current_data_fun _ _ _ _ Hcur Hcur') in Hfs. clear cur' Hcur'.
  assert (Hp : comps filePath ≠ []) by apply Hw.
  destruct (updated_world _ _ _ _ _ Hp Hser Hcwd Hf1 Hfs) as (Hw1 & Hcur1 & Hmk1).
  apply updateJsonFile_inv in Hrun2
    as (cur2 & f2 & Hcur2 & _ & Hcwd2 & Hf2 & Hfs2).
  rewrite <- (current_data_fun _ _ _ _ Hcur1 Hcur2) in Hfs2. clear cur2 Hcur2.
  rewrite Hmk1 in Hf2. injection Hf2 as <-.
  destruct (updateJsonFile_next filePath cur (spread d1 d2) w Hw Hcur)
    as (w3 & f3 & Hrun3 & Hcwd3 & Hf3 & Hfs3).
  rewrite Hf1 in Hf3. injection Hf3 as <-.
  exists w3. split; [done |]. split; [| congruence].
  rewrite Hfs3, Hfs2, Hcwd, Hfs, insert_insert_eq.
  by rewrite spread_assoc.
Qed.

Lemma updateJsonFile_composes_witness :
  let d1 := JObj [("a", JNum 1); ("b", JNum 2)] in
  let d2 := JObj [("b", JNum 3); ("c", JNull)] in
  let w2 := (Utils.updateJsonFile "conf/settings.json" d2
               (Utils.updateJsonFile "conf/settings.json" d1 home).2).2 in
  ∃ w3, Utils.updateJsonFile "conf/settings.json" (spread d1 d2) home
        = (Ok tt, w3)
        ∧ fs w3 = fs w2.
Proof.
  intros d1 d2 w2.
  destruct (updateJsonFile_composes "conf/settings.json" d1 d2 (JObj []) home
              (Utils.updateJsonFile "conf/settings.json" d1 home).2 w2)
    as (w3 & Hrun & Hfs & _).
  - left. by vm_compute.
  - by vm_compute.
  - apply (bool_decide_unpack _). by vm_compute.
  - apply run_Ok. by vm_compute.
  - apply run_Ok. by vm_compute.
  - by exists w3.
Defined.

(** *** Copying a template *)

(** X12. When the template path is a file, [copyCliPackageTemplate]
    still makes the target directory and only then throws: the failure
    leaves directories behind, and no file. *)
Theorem copyCliPackageTemplate_template_file
    (templateType packageName monorepoRoot : string) (repo : Utils.Repo)
    (cliRoot : string) (w : World) (c : string) :
  let s := resolve (cwd w) (path_join (cliRoot, "templates", templateType)) in
  let d := resolve (cwd w)
             (path_join (monorepoRoot, Utils.repo_dir repo, packageName)) in
  stat (fs w) s = Some (File c) →
  is_Some (mkdirp (fs w) d) →
  ∃ e w',
    Utils.copyCliPackageTemplate templateType packageName monorepoRoot repo
      cliRoot w = (Throw e, w')
    ∧ stat (fs w') d = Some Dir
    ∧ (∀ t n, fs w !! t = Some n → fs w' !! t = Some n)
    ∧ (∀ t n, fs w' !! t = Some n → fs w !! t = None →
              n = Dir ∧ t `prefix_of` d).
Proof.
  intros s d Hs [f Hf].
  assert (Hsne : s ≠ []) by (intros Heq; by rewrite Heq in Hs).
  assert (Hfs : stat f s = Some (File c)).
  { rewrite stat_lookup in Hs |- * by done. by apply (mkdirp_keeps _ _ _ _ _ Hf). }
  pose proof (mkdirp_dir _ _ _ Hf) as Hd.
  exists "Cannot overwrite directory with non-directory". eexists. split.
  - unfold Utils.copyCliPackageTemplate.
    unfold bind at 1, console_log at 1.
    unfold bind at 1, console_log at 1.
    unfold bind at 1, existsSync. cbn [fs cwd emit]. fold s.
    rewrite bool_decide_eq_true_2 by eauto. cbn [negb].
    unfold bind at 1, ensureDirSync, mkdirSync. cbn [fs cwd emit]. fold d.
    rewrite Hf.
    unfold bind at 1, copySync. cbn [fs cwd emit set_fs]. fold s d.
    rewrite Hfs, Hd. rewrite decide_False by congruence. reflexivity.
  - cbn [fs set_fs emit]. split; [done |].
    split; [intros t n; by apply (mkdirp_keeps _ _ _ _ _ Hf) |].
    intros t n. by apply (mkdirp_new _ _ _ _ _ Hf).
Qed.

Lemma copyCliPackageTemplate_template_file_witness :
  let w := set_fs home
             (<[["home"; "templates"] := Dir]>
                (<[["home"; "templates"; "db"] := File "not a directory"]>
                   (fs home))) in
  ∃ e w',
    Utils.copyCliPackageTemplate "db" "db" "demo" Utils.packages "." w
    = (Throw e, w')
    ∧ stat (fs w') ["home"; "demo"; "packages"; "db"] = Some Dir.
Proof.
  intros w.
  destruct (copyCliPackageTemplate_template_file "db" "db" "demo"
              Utils.packages "." w "not a directory")
    as (e & w' & Hrun & Hdir & _).
  - by vm_compute.
  - apply is_Some_true. by vm_compute.
  - by exists e, w'.
Defined.

(** X13. Copying a template again changes nothing: when the target is
    not a directory above the template, a second run of
    [copyCliPackageTemplate] returns and leaves the file system as the
    first run left it. *)
Theorem copyCliPackageTemplate_idempotent
    (templateType packageName monorepoRoot : string) (repo : Utils.Repo)
    (cliRoot : string) (w w1 : World) :
  let s := resolve (cwd w) (path_join (cliRoot, "templates", templateType)) in
  let d := resolve (cwd w)
             (path_join (monorepoRoot, Utils.repo_dir repo, packageName)) in
  is_Some (stat (fs w) s) →
  ¬ d `prefix_of` s →
  Utils.copyCliPackageTemplate templateType packageName monorepoRoot repo
    cliRoot w = (Ok tt, w1) →
  ∃ w2,
    Utils.copyCliPackageTemplate templateType packageName monorepoRoot repo
      cliRoot w1 = (Ok tt, w2)
    ∧ fs w2 = fs w1 ∧ cwd w2 = cwd w1.
Proof.
  intros s d Hsrc Hds Hrun.
  destruct (copied_template _ _ _ _ _ _ _ Hsrc Hrun)
    as (Hcwd5 & Hsd & f4 & Hmk & Hsdir & Hput & Hframe).
  fold s d in Hsd, Hmk, Hsdir, Hput, Hframe.
  set (F := fs w1) in *.
  assert (Htemplate : ∀ rel, F !! (s ++ rel) = f4 !! (s ++ rel)).
  { intros rel. apply Hframe. intros rel'. by apply unrelated_paths. }
  assert (HFd : F !! d = Some Dir).
  { rewrite <- (app_nil_r d). apply Hput. left. }
  assert (Hway : ∀ a, a `prefix_of` d → a ≠ [] → F !! a = Some Dir).
  { intros a Ha Hne. destruct (decide (a = d)) as [->|Had]; [done |].
    rewrite Hframe.
    - apply stat_Dir_lookup; [done |]. by apply (mkdirp_prefix_dir _ _ _ _ Hmk).
    - intros rel ->. apply prefix_length in Ha. rewrite length_app in Ha.
      destruct rel; [by rewrite app_nil_r in Had | cbn in Ha; lia]. }
  assert (HFs : stat F s = Some Dir).
  { destruct (decide (s = [])) as [Hnil|Hne]; [by rewrite Hnil |].
    rewrite stat_lookup in Hsdir |- * by done.
    rewrite <- (app_nil_r s). rewrite Htemplate. by rewrite app_nil_r. }
  assert (Hbelow : ∀ rel n, (rel, n) ∈ ([], Dir) :: below s F →
                            F !! (d ++ rel) = Some n
                            ∧ (d ++ rel = [] → n = Dir)).
  { intros rel n [[= -> ->]|[Hne Hin]%elem_of_below]%elem_of_cons.
    - split; [| done]. apply Hput. left.
    - split; [| by intros [_ ?]%app_eq_nil]. apply Hput. right.
      apply elem_of_below. by rewrite <- Htemplate. }
  (* the second run *)
  eexists. split.
  - unfold Utils.copyCliPackageTemplate.
    unfold bind at 1, console_log at 1.
    unfold bind at 1, console_log at 1.
    unfold bind at 1, existsSync. cbn [fs cwd emit]. rewrite Hcwd5. fold s F.
    rewrite bool_decide_eq_true_2 by (rewrite HFs; eauto). cbn [negb].
    unfold bind at 1, ensureDirSync, mkdirSync. cbn [fs cwd emit].
    rewrite Hcwd5. fold d F. rewrite (mkdirp_noop F d Hway).
    unfold bind at 1, copySync. cbn [fs cwd emit set_fs].
    rewrite Hcwd5. fold s d. rewrite HFs.
    rewrite decide_False by done.
    assert (stat F d = Some Dir) as ->.
    { destruct (decide (d = [])) as [Hnil|Hne]; [by rewrite Hnil |].
      by rewrite stat_lookup. }
    rewrite mkdirp_noop
      by (intros a Ha Hne; apply Hway; [| done];
          etrans; [exact Ha | apply removelast_prefix]).
    rewrite (copy_entries_same d _ F Hbelow).
    unfold console_log. reflexivity.
  - cbn [fs cwd emit set_fs]. done.
Qed.

(** X14. [copyCliPackageTemplate] does not change the template: when
    the target is not a directory above the template and the call
    returns, everything at and below the template directory is as it
    was. *)
Theorem copyCliPackageTemplate_keeps_template
    (templateType packageName monorepoRoot : string) (repo : Utils.Repo)
    (cliRoot : string) (w w' : World) :
  let s := resolve (cwd w) (path_join (cliRoot, "templates", templateType)) in
  let d := resolve (cwd w)
             (path_join (monorepoRoot, Utils.repo_dir repo, packageName)) in
  ¬ d `prefix_of` s →
  Utils.copyCliPackageTemplate templateType packageName monorepoRoot repo
    cliRoot w = (Ok tt, w') →
  ∀ rel, fs w' !! (s ++ rel) = fs w !! (s ++ rel).
Proof.
  intros s d Hds Hrun rel.
  destruct (stat (fs w) s) as [n|] eqn:Hs.
  - destruct (copied_template _ _ _ _ _ _ _ (mk_is_Some _ _ Hs) Hrun)
      as (_ & Hsd & f4 & Hmk & _ & _ & Hframe).
    fold s d in Hsd, Hmk, Hframe.
    rewrite Hframe by (intros rel'; by apply unrelated_paths).
    apply (mkdirp_frame _ _ _ _ Hmk). by apply not_prefix_app.
  - revert Hrun.
    unfold Utils.copyCliPackageTemplate, bind, console_log, existsSync,
      console_error.
    cbn [fs cwd emit]. fold s. rewrite Hs.
    rewrite bool_decide_eq_false_2 by (intros [? ?]; done).
    by intros [= <-].
Qed.

Lemma with_template_copied :
  (Utils.copyCliPackageTemplate "db" "db" "/home/demo" Utils.packages
     "/opt/cli" with_template).1 = Ok tt.
Proof. by vm_compute. Qed.

Lemma copyCliPackageTemplate_keeps_template_witness :
  fs (Utils.copyCliPackageTemplate "db" "db" "/home/demo" Utils.packages
        "/opt/cli" with_template).2
    !! ["opt"; "cli"; "templates"; "db"; "index.ts"]
  = Some (File "export {};").
Proof.
  etrans.
  - apply (copyCliPackageTemplate_keeps_template "db" "db" "/home/demo"
             Utils.packages "/opt/cli" with_template _
             ltac:(intros [k Hk]; vm_compute in Hk; discriminate Hk)
             (run_Ok _ tt with_template_copied) ["index.ts"]).
  - by vm_compute.
Defined.

Lemma copyCliPackageTemplate_idempotent_witness :
  ∃ w2,
    Utils.copyCliPackageTemplate "db" "db" "/home/demo" Utils.packages
      "/opt/cli"
      (Utils.copyCliPackageTemplate "db" "db" "/home/demo" Utils.packages
         "/opt/cli" with_template).2
    = (Ok tt, w2)
    ∧ fs w2
      = fs (Utils.copyCliPackageTemplate "db" "db" "/home/demo"
              Utils.packages "/opt/cli" with_template).2.
Proof.
  destruct (copyCliPackageTemplate_idempotent "db" "db" "/home/demo"
              Utils.packages "/opt/cli" with_template
              (Utils.copyCliPackageTemplate "db" "db" "/home/demo"
                 Utils.packages "/opt/cli" with_template).2)
    as (w2 & Hrun & Hfs & _).
  - apply is_Some_true. by vm_compute.
  - intros [k Hk]. vm_compute in Hk. discriminate Hk.
  - exact (run_Ok _ tt with_template_copied).
  - exact (ex_intro _ w2 (conj Hrun Hfs)).
Defined.

(** *** Commands *)

(** X15. The version that [getPnpmVersion] returns has no white space
    at either end, whether it was detected or is the default: trimming
    it again changes nothing. This holds for both copies. *)
Theorem getPnpmVersion_trimmed sh (w : World) :
  (∃ v, (Utils.getPnpmVersion sh w).1 = Ok v ∧ trim v = v)
  ∧ (∃ v, (Cli.getPnpmVersion sh w).1 = Ok v ∧ trim v = v).
Proof.
  rewrite utils_getPnpmVersion_run, cli_getPnpmVersion_run.
  destruct (version_command sh w) as [[out f]|]; cbn [fst].
  - split; exists (trim out); (split; [done | apply trim_idem]).
  - split; eexists; (split; [done | by vm_compute]).
Qed.

(** X16. [runCommand], given no [cwd] or one that is not the empty
    text, announces the command and its directory, then runs it, and
    does not catch a failure: it returns when the command succeeds, with
    the file system the command left, and throws when the command
    fails, after the announcement. When the directory does not exist it
    throws and the file system is as it was. *)
Theorem runCommand_propagates sh (command : string) (dir : option string)
    (w : World) :
  dir ≠ Some EmptyString →
  let d := match dir with
           | Some s => resolve (cwd w) (path_of s)
           | None => cwd w
           end in
  let place := match dir with
               | Some s => s
               | None => show_path {| absolute := true; comps := cwd w |}
               end in
  let announced :=
    [Log ("Executing: " +:+ command +:+ " in " +:+ place); Exec command d] in
  match stat (fs w) d with
  | Some Dir =>
      match sh command d (fs w) with
      | Some (out, f) =>
          ∃ w', Utils.runCommand sh command dir w = (Ok tt, w')
                ∧ fs w' = f ∧ cwd w' = cwd w
                ∧ new_events w w' = announced
      | None =>
          ∃ e w', Utils.runCommand sh command dir w = (Throw e, w')
                  ∧ new_events w w' = announced
      end
  | _ =>
      ∃ e w', Utils.runCommand sh command dir w = (Throw e, w')
              ∧ fs w' = fs w ∧ cwd w' = cwd w
  end.
Proof.
  intros Hdir d place announced. rewrite runCommand_run by done.
  fold d place.
  assert (Hev : ∀ f : FS,
    new_events w
      (set_fs (emit (Exec command d)
                 (emit (Log ("Executing: " +:+ command +:+ " in " +:+ place))
                    w)) f) = announced).
  { intros f. apply new_events_app. cbn [trace emit set_fs].
    by rewrite <- app_assoc. }
  destruct (stat (fs w) d) as [[c|]|], dir as [s|];
    try (eexists _, _; split; [reflexivity | done]).
  - destruct (sh command d (fs w)) as [[out f]|].
    + eexists. split; [reflexivity |]. by rewrite Hev.
    + eexists _, _. split; [reflexivity |]. apply (Hev (fs w)).
  - destruct (sh command d (fs w)) as [[out f]|].
    + eexists. split; [reflexivity |]. by rewrite Hev.
    + eexists _, _. split; [reflexivity |]. apply (Hev (fs w)).
Qed.

Lemma runCommand_propagates_witness :
  (∃ w', Utils.runCommand quiet_shell "pnpm install" (Some "web") cloned
         = (Ok tt, w')
         ∧ new_events cloned w'
           = [Log "Executing: pnpm install in web";
              Exec "pnpm install" ["home"; "web"]])
  ∧ ∃ e w', Utils.runCommand quiet_shell "pnpm install"
              (Some "web/missing") cloned
            = (Throw e, w')
            ∧ fs w' = fs cloned.
Proof.
  split.
  - destruct (runCommand_propagates quiet_shell "pnpm install" (Some "web")
                cloned) as (w' & Hrun & _ & _ & Hev); [done |].
    by exists w'.
  - destruct (runCommand_propagates quiet_shell "pnpm install"
                (Some "web/missing") cloned) as (e & w' & Hrun & Hfs & _);
      [done |].
    by exists e, w'.
Defined.

(** X17. When [runCommandWithResult], given no [cwd] or one that is
    not the empty text, returns, its result is the output of the
    command without white space at either end, the file system is what
    the command left, and nothing has been printed. *)
Theorem runCommandWithResult_trimmed sh (command : string)
    (dir : option string) (w : World) (v : string) (w' : World) :
  dir ≠ Some EmptyString →
  let d := match dir with
           | Some s => resolve (cwd w) (path_of s)
           | None => cwd w
           end in
  Utils.runCommandWithResult sh command dir w = (Ok v, w') →
  trim v = v
  ∧ (∃ out, sh command d (fs w) = Some (out, fs w') ∧ v = trim out)
  ∧ new_events w w' = [Exec command d].
Proof.
  intros Hdir d.
  assert (Hrun : Utils.runCommandWithResult sh command dir w
                 = match stat (fs w) d with
                   | Some Dir =>
                       match sh command d (fs w) with
                       | Some (out, f) =>
                           (Ok (trim out), set_fs (emit (Exec command d) w) f)
                       | None => (Throw "Command failed",
                                  emit (Exec command d) w)
                       end
                   | _ => (Throw "ENOENT", emit (Exec command d) w)
                   end).
  { unfold Utils.runCommandWithResult, bind, execSync, ret.
    destruct dir as [s|]; cbn [fmap option_fmap option_map]; fold d;
      (destruct (stat (fs w) d) as [[|]|]; try done;
       by destruct (sh command d (fs w)) as [[out f]|]). }
  rewrite Hrun.
  destruct (stat (fs w) d) as [[c|]|]; try done.
  destruct (sh command d (fs w)) as [[out f]|]; [| done].
  intros [= <- <-]. cbn [fs set_fs emit].
  split; [apply trim_idem |]. split; [by exists out |].
  by apply new_events_app.
Qed.

Lemma runCommandWithResult_trimmed_witness :
  ∃ w', Utils.runCommandWithResult quiet_shell "pnpm --version" None home
        = (Ok "10.1.0", w')
        ∧ trim "10.1.0" = "10.1.0".
Proof.
  eexists. split; [by vm_compute |].
  eapply (runCommandWithResult_trimmed quiet_shell "pnpm --version" None home).
  - done.
  - by vm_compute.
Defined.

(** *** The [init] command *)

(** X18. [init] needs a fresh directory: it returns only when nothing
    was at [<name>] and the place for it is a directory; when something
    is at [<name>] it throws at its first step, with the file system
    and the working directory as they were. *)
Theorem initializeMonorepo_needs_fresh_directory sh prettier_json
    (appName : string) (w : World) :
  let root := resolve (cwd w) appName in
  (∀ w', Cli.initializeMonorepo sh prettier_json appName w = (Ok tt, w') →
         stat (fs w) root = None
         ∧ stat (fs w) (removelast root) = Some Dir)
  ∧ (is_Some (stat (fs w) root) →
     ∃ e, Cli.initializeMonorepo sh prettier_json appName w
          = (Throw e, emit (Mkdir root) w)).
Proof.
  intros root. split.
  - intros w' Hrun. unfold Cli.initializeMonorepo in Hrun.
    apply bind_Ok in Hrun as ([] & w1 & Hmk & _).
    unfold mkdirSync in Hmk. fold root in Hmk.
    destruct (stat (fs w) root); [done |].
    by destruct (stat (fs w) (removelast root)) as [[|]|].
  - intros [n Hn]. exists "EEXIST".
    unfold Cli.initializeMonorepo, bind at 1, mkdirSync. fold root.
    by rewrite Hn.
Qed.

Lemma initializeMonorepo_needs_fresh_directory_witness :
  ∃ e, Cli.initializeMonorepo quiet_shell id "web" cloned
       = (Throw e, emit (Mkdir ["home"; "web"]) cloned).
Proof.
  apply (initializeMonorepo_needs_fresh_directory quiet_shell id "web" cloned).
  apply is_Some_true. by vm_compute.
Defined.

(** X19. [init] works inside the new workspace only: in every run,
    finished or stopped by a failure, each directory made, file written
    and command started is at or below [<name>], and a run that returns
    leaves the process in [<name>]. *)
Theorem initializeMonorepo_stays_inside sh prettier_json (appName : string)
    (w : World) :
  let run := Cli.initializeMonorepo sh prettier_json appName w in
  let root := resolve (cwd w) appName in
  Forall (inside root) (steps (new_events w run.2))
  ∧ (run.1 = Ok tt → cwd run.2 = root).
Proof.
  intros run root.
  destruct run as [r w'] eqn:Hrun. unfold run in Hrun. cbn [fst snd].
  destruct (initializeMonorepo_script sh prettier_json appName (cwd w)
              w r w' eq_refl Hrun) as (evs & Htrace & Hr).
  rewrite (new_events_app _ _ _ Htrace). fold root in Hr.
  split.
  - apply (Forall_prefix _ (steps evs)
             (workspace_steps root ++ db_steps root ++ queue_steps root));
      [| apply workspace_steps_inside].
    destruct r as [[]|e]; [| done]. by destruct Hr as [_ ->].
  - intros ->. by destruct Hr.
Qed.

Lemma demo_workspace_run :
  (Cli.initializeMonorepo quiet_shell id "demo" home).1 = Ok tt.
Proof. by vm_compute. Qed.

Lemma initializeMonorepo_stays_inside_witness :
  cwd (Cli.initializeMonorepo quiet_shell id "demo" home).2
  = ["home"; "demo"].
Proof.
  exact (proj2 (initializeMonorepo_stays_inside quiet_shell id "demo" home)
           demo_workspace_run).
Defined.

(** *** Packages *)

(** X20. [createPackage] does not go over an existing package: when
    [packages/<name>/src] is there, it throws after at most its two
    directory steps; no file is written or changed and no command is
    run. *)
Theorem createPackage_refuses_existing sh (packageName : string)
    (files : list (string * string)) (options : option Cli.PackageOptions)
    (w : World) :
  let pkg := resolve (cwd w) (path_join ("packages", packageName)) in
  is_Some (fs w !! (pkg ++ ["src"])) →
  ∃ e w',
    Cli.createPackage sh packageName files options w = (Throw e, w')
    ∧ steps (new_events w w') `prefix_of` [SMkdir pkg; SMkdir (pkg ++ ["src"])]
    ∧ (∀ t n, fs w !! t = Some n → fs w' !! t = Some n)
    ∧ (∀ t c, fs w' !! t = Some (File c) → fs w !! t = Some (File c)).
Proof.
  intros pkg [n Hn].
  assert (Hsrc : resolve (cwd w)
                   (path_join (path_join ("packages", packageName), "src"))
                 = pkg ++ ["src"]) by apply package_file_path.
  unfold Cli.createPackage, bind at 1, mkdirSync at 1. fold pkg.
  destruct (mkdirp (fs w) pkg) as [f|] eqn:Hmk.
  - exists "EEXIST". eexists. split.
    + unfold bind at 1, mkdirSync. cbn [fs cwd emit set_fs].
      rewrite Hsrc.
      rewrite stat_lookup by by intros [_ ?]%app_eq_nil.
      rewrite (mkdirp_keeps _ _ _ _ _ Hmk Hn). reflexivity.
    + cbn [fs cwd trace emit set_fs]. split; [| split].
      * rewrite (new_events_app _ _ [Mkdir pkg; Mkdir (pkg ++ ["src"])])
          by (cbn; by rewrite <- app_assoc).
        done.
      * intros t n'. by apply (mkdirp_keeps _ _ _ _ _ Hmk).
      * intros t c. by apply (mkdirp_go_File_inv _ _ _ _ _ _ Hmk).
  - exists "EEXIST". eexists. split; [reflexivity |].
    cbn [fs cwd trace emit]. split; [| done].
    rewrite (new_events_app _ _ [Mkdir pkg]) by done.
    by exists [SMkdir (pkg ++ ["src"])].
Qed.

Lemma createPackage_refuses_existing_witness :
  let w := (Cli.initializeMonorepo quiet_shell id "demo" home).2 in
  ∃ e w', Cli.createPackage quiet_shell "db" Cli.dbFiles None w
          = (Throw e, w')
          ∧ ∀ t c, fs w' !! t = Some (File c) → fs w !! t = Some (File c).
Proof.
  intros w.
  destruct (createPackage_refuses_existing quiet_shell "db" Cli.dbFiles None w)
    as (e & w' & Hrun & _ & _ & Hfiles).
  - apply is_Some_true. by vm_compute.
  - exact (ex_intro _ e (ex_intro _ w' (conj Hrun Hfiles))).
Defined.

(** X21. The manifest that [createPackage] writes: when no file entry
    is the manifest itself, and with an install command that keeps the
    manifest, editing at most its dependency sections,
    [packages/<name>/package.json] is named ["@repo/<name>"] and its
    scripts are the three default scripts overridden by the scripts of
    the options: a script of the options replaces the default of its
    name, the other defaults stay. Nothing is assumed about what the
    install does to other files. *)
Theorem createPackage_manifest sh (packageName : string)
    (files : list (string * string)) (options : option Cli.PackageOptions)
    (w w' : World) :
  let given := default [] (options ≫= Cli.scripts) in
  commands_keep sh
    [SExec "pnpm add -D tsup typescript @repo/typescript-config@workspace:*"
       (resolve (cwd w) (path_join ("packages", packageName)))]
    (resolve (cwd w) (path_join ("packages", packageName, "package.json"))) →
  Forall (fun entry : string * string =>
            comps (path_of entry.1) ≠ ["package.json"]) files →
  serializable (JObj given) = true →
  Cli.createPackage sh packageName files options w = (Ok tt, w') →
  ∃ m s,
    read_json (fs w')
      (resolve (cwd w) (path_join ("packages", packageName, "package.json")))
    = Some m
    ∧ field "name" m = Some (JStr ("@repo/" +:+ packageName))
    ∧ field "scripts" m = Some s
    ∧ ∀ k, field k s
           = match obj_get k given with
             | Some v => Some v
             | None =>
                 obj_get k [("build", JStr "tsup --clean");
                            ("check-types", JStr "tsc --noEmit");
                            ("dev", JStr "tsup --watch")]
             end.
Proof.
  intros given Hkeep Hfiles Hgiven Hrun.
  set (q := resolve (cwd w)
              (path_join ("packages", packageName, "package.json"))).
  set (defaults := [("build", JStr "tsup --clean");
                    ("check-types", JStr "tsc --noEmit");
                    ("dev", JStr "tsup --watch")]).
  set (s := spread (JObj defaults) (JObj given)).
  assert (Hs : Cli.spread_optional (JObj defaults)
                 (JObj <$> (options ≫= Cli.scripts)) = s).
  { unfold s, given. by destruct (options ≫= Cli.scripts). }
  set (P := fun c : string =>
              ∃ o, JSON_parse c = Some (JObj o)
                   ∧ obj_get "name" o = Some (JStr ("@repo/" +:+ packageName))
                   ∧ obj_get "scripts" o = Some s).
  assert (Hrob : robust q P).
  { intros c c' (o & Ho & Hname & Hscripts) _ Hup.
    destruct (Hup o Ho) as (o' & Ho' & Hsame).
    exists o'. split; [done |].
    rewrite !Hsame by not_dependency. done. }
  assert (Hest : establishes (cwd w) (cwd w) q P
                   (Cli.createPackage sh packageName files options)).
  { unfold Cli.createPackage. fold defaults. rewrite Hs.
    do 2 est_skip.
    eapply est_bind_l; [exact Hrob | apply est_write | intros _].
    - unfold q. norm_paths. reflexivity.
    - eexists. split; [apply parse_stringify | done].
      cbn [serializable forallb fmap list_fmap fst snd].
      unfold s. rewrite (serializable_spread defaults given) by done.
      by vm_compute.
    - eapply keeps_bind; [keeps_call | intros _].
      eapply keeps_bind; [keeps_call | intros _].
      eapply keeps_bind; [| intros _; keeps_run].
      apply keeps_forEach. intros e He.
      eapply keeps_bind; [keeps_call | intros _].
      apply keeps_writeFileSync. unfold q. path_neq.
      by apply (proj1 (Forall_forall _ _) Hfiles e He). }
  destruct (Hest w tt w' eq_refl Hrun) as [_ (c & Hc & o & Ho & Hname & Hscr)].
  exists (JObj o), s. unfold read_json. rewrite Hc.
  split; [done |]. split; [done |]. split; [done |].
  intros k. unfold s. apply field_spread.
  by apply serializable_NoDup.
Qed.

Lemma db_package_run :
  (Cli.createPackage pnpm_like "db" Cli.dbFiles (Some Cli.dbOptions)
     home).1 = Ok tt.
Proof. by vm_compute. Qed.

Lemma manifest_not_lock :
  last (resolve (cwd home) (path_join ("packages", "db", "package.json")))
  ≠ Some "pnpm-lock.yaml".
Proof. by vm_compute. Qed.

Lemma db_files_apart :
  Forall (fun entry : string * string =>
            comps (path_of entry.1) ≠ ["package.json"]) Cli.dbFiles.
Proof.
  repeat (apply List.Forall_cons; [by vm_compute |]). apply List.Forall_nil.
Qed.

Lemma createPackage_manifest_witness :
  let w' := (Cli.createPackage pnpm_like "db" Cli.dbFiles
               (Some Cli.dbOptions) home).2 in
  ∃ m s,
    read_json (fs w') ["home"; "packages"; "db"; "package.json"] = Some m
    ∧ field "scripts" m = Some s
    ∧ field "build" s = Some (JStr "pnpm build:prisma && tsup --clean")
    ∧ field "dev" s = Some (JStr "tsup --watch")
    ∧ field "push" s = Some (JStr "prisma db push").
Proof.
  intros w'.
  destruct (createPackage_manifest pnpm_like "db" Cli.dbFiles
              (Some Cli.dbOptions) home w'
              (pnpm_like_keeps _ _ manifest_not_lock) db_files_apart
              eq_refl (run_Ok _ tt db_package_run))
    as (m & s & Hm & _ & Hs & Hk).
  exists m, s. split; [exact Hm |]. split; [exact Hs |].
  split; [| split]; (etrans; [apply Hk | by vm_compute]).
Defined.

(** X22. The files that [createPackage] is given are written as they
    are, not trimmed: when it returns, with an install command that
    keeps the file, an entry is at its path below [packages/<name>] with
    exactly its content, unless a later entry has the same path or the
    file is a manifest, which the package manager may edit. Nothing is
    assumed about what the install does to other files. *)
Theorem createPackage_writes_files sh (packageName : string)
    (files : list (string * string)) (options : option Cli.PackageOptions)
    (w w' : World) :
  let place := fun rel : string =>
    resolve (cwd w)
      (path_join (path_join ("packages", packageName), path_of rel)) in
  Cli.createPackage sh packageName files options w = (Ok tt, w') →
  ∀ before rel content after,
    files = before ++ (rel, content) :: after →
    Forall (fun e : string * string => place e.1 ≠ place rel) after →
    ¬ is_manifest (place rel) →
    commands_keep sh
      [SExec "pnpm add -D tsup typescript @repo/typescript-config@workspace:*"
         (resolve (cwd w) (path_join ("packages", packageName)))]
      (place rel) →
    fs w' !! place rel = Some (File content).
Proof.
  intros place Hrun before rel content after -> Hafter Hplain Hkeep.
  assert (Hest : establishes (cwd w) (cwd w) (place rel)
                   (fun c => c = content)
                   (Cli.createPackage sh packageName
                      (before ++ (rel, content) :: after) options)).
  { unfold Cli.createPackage.
    do 5 (eapply est_bind_r;
          [eapply returns_script; script_run | intros ? _]).
    eapply est_bind_l; [by apply robust_plain | | intros _; keeps_run].
    apply est_forEach.
    - by apply robust_plain.
    - intros y. eapply returns_script. script_run.
    - eapply est_bind_r; [eapply returns_script; script_run | intros ? _].
      by apply est_write.
    - intros e He. eapply keeps_bind; [keeps_call | intros _].
      apply keeps_writeFileSync.
      by apply (proj1 (Forall_forall _ _) Hafter e He). }
  by destruct (Hest w tt w' eq_refl Hrun) as [_ (c & Hc & ->)].
Qed.

Lemma createPackage_writes_files_witness :
  let w' := (Cli.createPackage pnpm_like "db" Cli.dbFiles
               (Some Cli.dbOptions) home).2 in
  fs w' !! ["home"; "packages"; "db"; "src"; "util.ts"]
  = Some (File Cli.dbUtilTs)
  ∧ first_char Cli.dbUtilTs = Some "010"%char.
Proof.
  intros w'. split; [| done].
  apply (createPackage_writes_files pnpm_like "db" Cli.dbFiles
           (Some Cli.dbOptions) home w'
           (run_Ok _ tt db_package_run)
           [("prisma/schema.prisma", Cli.schemaPrisma)]
           "src/util.ts" Cli.dbUtilTs
           [("src/index.ts", Cli.dbIndexTs); ("src/db.ts", Cli.dbDbTs)]).
  - reflexivity.
  - repeat (apply List.Forall_cons; [by vm_compute |]). apply List.Forall_nil.
  - by vm_compute.
  - apply pnpm_like_keeps. by vm_compute.
Defined.

(** *** The [app] command *)

(** X23. [app <name> --node] asks nothing and works inside
    [apps/<name>] only. Its steps are, in this order: the directory, the
    manifest, the two configuration files, [src] and its source file,
    then the two installs; a run that fails has done the first of
    them. *)
Theorem app_node_steps sh pick (name : string) (w : World) :
  let run := Cli.app_action sh pick name Cli.node_flag w in
  let appDir := resolve (cwd w) (path_join ("apps", name)) in
  steps (new_events w run.2) `prefix_of` node_steps (cwd w) name
  ∧ (run.1 = Ok tt → steps (new_events w run.2) = node_steps (cwd w) name)
  ∧ Forall (inside appDir) (steps (new_events w run.2)).
Proof.
  intros run appDir.
  destruct run as [r w'] eqn:Hrun. unfold run in Hrun. cbn [fst snd].
  change (Cli.initializeApp sh pick name (Some "node") w = (r, w')) in Hrun.
  destruct (initializeApp_node_script sh pick name (cwd w) w r w' eq_refl
              Hrun) as (evs & Htrace & Hr).
  rewrite (new_events_app _ _ _ Htrace).
  assert (Hpre : steps evs `prefix_of` node_steps (cwd w) name).
  { destruct r as [[]|e]; [| done]. by destruct Hr as [_ ->]. }
  split; [done |]. split.
  - intros ->. by destruct Hr.
  - exact (Forall_prefix _ _ _ Hpre (node_steps_inside (cwd w) name)).
Qed.

Lemma api_app_run :
  (Cli.app_action quiet_shell (fun _ => O) "api" Cli.node_flag home).1
  = Ok tt.
Proof. by vm_compute. Qed.

Lemma app_node_steps_witness :
  steps (new_events home
           (Cli.app_action quiet_shell (fun _ => O) "api" Cli.node_flag
              home).2)
  = [SMkdir ["home"; "apps"; "api"];
     SWrite ["home"; "apps"; "api"; "package.json"];
     SWrite ["home"; "apps"; "api"; "tsup.config.ts"];
     SWrite ["home"; "apps"; "api"; "tsconfig.json"];
     SMkdir ["home"; "apps"; "api"; "src"];
     SWrite ["home"; "apps"; "api"; "src"; "index.ts"];
     SExec "pnpm add @repo/typescript-config@workspace:*"
       ["home"; "apps"; "api"];
     SExec "pnpm add -D tsup typescript" ["home"; "apps"; "api"]].
Proof.
  destruct (app_node_steps quiet_shell (fun _ => O) "api" home)
    as (_ & Hok & _).
  rewrite (Hok api_app_run). by vm_compute.
Defined.

(** X24. Without [--next] and [--node] the [app] command asks for the
    type before it does anything else, and then runs as if the answer
    had been given: the run is the run of [initializeApp] with the
    chosen type, in the world where the question has been asked. When
    the prompt is aborted the command throws and nothing is created. *)
Theorem app_without_flags_prompts sh pick (name : string) (w : World) :
  let ask := "What type of app do you want to create?" in
  let asked := emit (Prompt ask) w in
  Cli.app_action sh pick name {| Cli.next := false; Cli.node := false |} w
  = match [("Next.js", "next"); ("Node.js", "node")] !! pick ask with
    | Some (_, type) => Cli.initializeApp sh pick name (Some type) asked
    | None => (Throw "ExitPromptError", asked)
    end.
Proof.
  intros ask asked.
  unfold Cli.app_action. cbn [Cli.next Cli.node].
  unfold Cli.initializeApp at 1. cbn [Cli.missing].
  unfold bind at 1, select. fold ask asked.
  by destruct (pick ask) as [|[|n]].
Qed.

Lemma app_without_flags_prompts_witness :
  let run := Cli.app_action quiet_shell (fun _ => 1%nat) "api"
               {| Cli.next := false; Cli.node := false |} home in
  run.1 = Ok tt
  ∧ steps (new_events home run.2) = SPrompt :: node_steps ["home"] "api".
Proof.
  intros run. subst run.
  rewrite (app_without_flags_prompts quiet_shell (fun _ => 1%nat) "api" home).
  by vm_compute.
Defined.

(** *** More on templates and updates *)

(** X25. When a file is where the target directory or a directory on
    the way to it should be, [copyCliPackageTemplate] throws, and the
    file system and the working directory are as they were: nothing
    of the template is copied. *)
Theorem copyCliPackageTemplate_target_blocked
    (templateType packageName monorepoRoot : string) (repo : Utils.Repo)
    (cliRoot : string) (w : World) (a : list string) (c : string) :
  let s := resolve (cwd w) (path_join (cliRoot, "templates", templateType)) in
  let d := resolve (cwd w)
             (path_join (monorepoRoot, Utils.repo_dir repo, packageName)) in
  is_Some (stat (fs w) s) →
  a `prefix_of` d → a ≠ [] → fs w !! a = Some (File c) →
  ∃ e w',
    Utils.copyCliPackageTemplate templateType packageName monorepoRoot repo
      cliRoot w = (Throw e, w')
    ∧ fs w' = fs w ∧ cwd w' = cwd w.
Proof.
  intros s d Hs Ha Hne Hfile.
  exists "EEXIST". eexists. split.
  - unfold Utils.copyCliPackageTemplate.
    unfold bind at 1, console_log at 1.
    unfold bind at 1, console_log at 1.
    unfold bind at 1, existsSync. cbn [fs cwd emit]. fold s.
    rewrite bool_decide_eq_true_2 by done. cbn [negb].
    unfold bind at 1, ensureDirSync, mkdirSync. cbn [fs cwd emit]. fold d.
    rewrite (mkdirp_file _ _ _ _ Ha Hne Hfile). reflexivity.
  - done.
Qed.

Lemma copyCliPackageTemplate_target_blocked_witness :
  let w := set_fs with_template
             (<[["home"; "demo"; "apps"] := File "not a directory"]>
                (fs with_template)) in
  ∃ e w',
    Utils.copyCliPackageTemplate "db" "web" "/home/demo" Utils.apps
      "/opt/cli" w = (Throw e, w')
    ∧ fs w' = fs w.
Proof.
  intros w.
  destruct (copyCliPackageTemplate_target_blocked "db" "web" "/home/demo"
              Utils.apps "/opt/cli" w ["home"; "demo"; "apps"]
              "not a directory")
    as (e & w' & Hrun & Hfs & _).
  - apply is_Some_true. by vm_compute.
  - by exists ["web"].
  - done.
  - by vm_compute.
  - exact (ex_intro _ e (ex_intro _ w' (conj Hrun Hfs))).
Defined.

(** X26. [updateJsonFile] discards a value that has no properties: when
    the file holds [null], a boolean or a number, the update goes
    through and the file then holds the new data alone. *)
Theorem updateJsonFile_replaces_scalar
    (filePath : path) (cur : json) (o : list (string * json)) (w : World) :
  writable w filePath →
  read_json (fs w) (resolve (cwd w) filePath) = Some cur →
  match cur with JNull | JBool _ | JNum _ => True | _ => False end →
  serializable (JObj o) = true →
  ∃ w', Utils.updateJsonFile filePath (JObj o) w = (Ok tt, w')
        ∧ Utils.readJsonFile filePath w' = (Ok (JObj o), w').
Proof.
  intros Hw Hcur Hscalar Ho.
  assert (Hmerge : spread cur (JObj o) = JObj o).
  { unfold spread. cbn [own_props].
    assert (own_props cur = []) as -> by by destruct cur.
    f_equal. apply (assign_new [] o). by apply serializable_NoDup. }
  destruct (updateJsonFile_next filePath cur (JObj o) w Hw (or_intror Hcur))
    as (w' & f1 & Hrun & Hcwd & Hf1 & Hfs).
  exists w'. split; [done |].
  rewrite Hmerge in Hfs. assert (Hp : comps filePath ≠ []) by apply Hw.
  apply readJsonFile_stored; [done |].
  unfold read_json. rewrite Hcwd, Hfs, lookup_insert_eq.
  by apply parse_stringify.
Qed.

Lemma updateJsonFile_replaces_scalar_witness :
  let w := set_fs home (<[["home"; "count.json"] := File "42"]> (fs home)) in
  ∃ w', Utils.updateJsonFile "count.json" (JObj [("a", JNum 1)]) w
        = (Ok tt, w')
        ∧ Utils.readJsonFile "count.json" w' = (Ok (JObj [("a", JNum 1)]), w').
Proof.
  intros w.
  apply (updateJsonFile_replaces_scalar "count.json" (JNum 42)
           [("a", JNum 1)] w).
  - split; [by vm_compute |].
    split; [apply is_Some_true; by vm_compute | by vm_compute].
  - by vm_compute.
  - done.
  - reflexivity.
Defined.

(** *** The file system stays a tree *)

(** X27. The utilities that change the file system keep it a tree: when
    every entry lies in a directory before [writeFile],
    [updateJsonFile], [createDirIfNotExists], [clearDirectory] or
    [removeGitDirectory], this is so afterwards, whether the call
    returns or throws. *)
Theorem utilities_keep_tree (p : path) (content appDir name : string)
    (data : json) (w : World) :
  tree (fs w) →
  tree (fs (Utils.writeFile p content w).2)
  ∧ tree (fs (Utils.updateJsonFile p data w).2)
  ∧ tree (fs (Utils.createDirIfNotExists p w).2)
  ∧ tree (fs (Utils.clearDirectory p w).2)
  ∧ tree (fs (Utils.removeGitDirectory appDir name w).2).
Proof.
  intros Ht. split; [by apply tree_writeFile |]. split; [| split; [| split]].
  - unfold Utils.updateJsonFile, Utils.fileExists, bind at 1, existsSync.
    unfold bind at 1.
    destruct ((if bool_decide _ then Utils.readJsonFile p else ret (JObj [])) w)
      as [r w1] eqn:Hread.
    assert (w1 = w) as ->.
    { case_bool_decide.
      - rewrite <- (readJsonFile_pure p w). by rewrite Hread.
      - by injection Hread as _ <-. }
    destruct r as [cur|e]; [by apply tree_writeFile | done].
  - rewrite createDirIfNotExists_run. cbv zeta.
    destruct (stat (fs w) _); [done |].
    destruct (mkdirp (fs w) _) as [f|] eqn:Hmk; [| done].
    by apply (tree_mkdirp _ _ _ Ht Hmk).
  - rewrite clearDirectory_run. cbv zeta.
    destruct (stat (fs w) _) as [[c|]|]; try done.
    by apply tree_emptied.
  - rewrite removeGitDirectory_run. cbv zeta.
    case_bool_decide; [| done]. by apply tree_removed.
Qed.

Lemma utilities_keep_tree_witness :
  tree (fs (Utils.writeFile "web/src/main.ts" "export {};" cloned).2)
  ∧ tree (fs (Utils.removeGitDirectory "web" "web" cloned).2).
Proof.
  destruct (utilities_keep_tree "web/src/main.ts" "export {};" "web" "web"
              JNull cloned) as (Hwrite & _ & _ & _ & Hgit).
  - apply (bool_decide_unpack _). by vm_compute.
  - by split.
Defined.

(** *** The database of the workspace *)

(** X28. The Compose file of a new workspace names the development
    database after the workspace: when [init <name>] returns, with
    commands that keep the Compose file,
    [packages/docker-dev/compose.yml] sets [POSTGRES_DB] to the name
    with every hyphen replaced by an underscore, followed by [_dev]; the
    database name has no hyphen and keeps every other character of the
    name in its place. Nothing is assumed about what the commands do to
    other files. *)
Theorem init_names_database sh prettier_json (appName : string)
    (w w' : World) :
  commands_keep sh (init_steps (resolve (cwd w) appName))
    (resolve (cwd w) appName ++ ["packages"; "docker-dev"; "compose.yml"]) →
  Cli.initializeMonorepo sh prettier_json appName w = (Ok tt, w') →
  let db := replace_all "-" "_" appName in
  (∃ pre post,
     fs w' !! (resolve (cwd w) appName
               ++ ["packages"; "docker-dev"; "compose.yml"])
     = Some (File (pre +:+ "POSTGRES_DB: " +:+ db +:+ "_dev" +:+ nl +:+ post)))
  ∧ ("-"%char ∉ list_ascii_of_string db)
  ∧ String.length db = String.length appName
  ∧ (∀ i c, c ≠ "-"%char → String.get i appName = Some c →
            String.get i db = Some c).
Proof.
  intros Hkeep Hrun db.
  split; [| split; [by apply replace_all_absent |
                    split; [apply length_replace_all |
                            intros i c; apply replace_all_other]]].
  set (q := resolve (cwd w) appName
            ++ ["packages"; "docker-dev"; "compose.yml"]).
  assert (Hest : establishes (cwd w) (resolve (cwd w) appName) q
                   (fun c => c = Cli.dockerComposeConfig appName)
                   (Cli.initializeMonorepo sh prettier_json appName)).
  { unfold Cli.initializeMonorepo. unfold_calls.
    do 16 est_skip.
    est_here; [| done].
    apply robust_plain. unfold q. by apply not_manifest_at. }
  destruct (Hest w tt w' eq_refl Hrun) as [_ (c & Hc & ->)].
  exists ("
services:
  postgres:
    image: postgres:16
    environment:
      POSTGRES_USER: postgres
      POSTGRES_PASSWORD: postgres
      "),
    ("    ports:
      - " +:+ dq +:+ "5432:5432" +:+ dq +:+ "
    volumes:
      - /var/lib/postgresql/data

  redis:
    image: redis:6.2-alpine
    ports:
      - " +:+ dq +:+ "6379:6379" +:+ dq +:+ "
").
  rewrite Hc. reflexivity.
Qed.

Lemma compose_not_lock :
  last (resolve (cwd home) "my-shop"
        ++ ["packages"; "docker-dev"; "compose.yml"])
  ≠ Some "pnpm-lock.yaml".
Proof. by vm_compute. Qed.

Lemma my_shop_run :
  (Cli.initializeMonorepo pnpm_like id "my-shop" home).1 = Ok tt.
Proof. by vm_compute. Qed.

Lemma init_names_database_witness :
  ∃ pre post,
    fs (Cli.initializeMonorepo pnpm_like id "my-shop" home).2
      !! ["home"; "my-shop"; "packages"; "docker-dev"; "compose.yml"]
    = Some (File (pre +:+ "POSTGRES_DB: my_shop_dev" +:+ nl +:+ post)).
Proof.
  destruct (init_names_database pnpm_like id "my-shop" home _
              (pnpm_like_keeps _ _ compose_not_lock)
              (run_Ok _ tt my_shop_run))
    as ((pre & post & Hfile) & _).
  exists pre, post. exact Hfile.
Defined.

(** *** Running [app] again *)

(** X29. [app <name> --node] on an application that is there does not
    return: it throws when it makes [src], after it has written the
    manifest and the two configuration files anew. The manifest is then
    the generated one, without any dependency section; the source file
    is not written, and no command is run. *)
Theorem app_node_again sh pick (name : string) (w : World) :
  let appDir := resolve (cwd w) (path_join ("apps", name)) in
  tree (fs w) →
  fs w !! appDir = Some Dir →
  is_Some (fs w !! (appDir ++ ["src"])) →
  Forall (fun x => fs w !! (appDir ++ [x]) ≠ Some Dir)
    ["package.json"; "tsup.config.ts"; "tsconfig.json"] →
  ∃ e w',
    Cli.app_action sh pick name Cli.node_flag w = (Throw e, w')
    ∧ steps (new_events w w')
      = [SMkdir appDir;
         SWrite (appDir ++ ["package.json"]);
         SWrite (appDir ++ ["tsup.config.ts"]);
         SWrite (appDir ++ ["tsconfig.json"]);
         SMkdir (appDir ++ ["src"])]
    ∧ ∃ c o,
        fs w' !! (appDir ++ ["package.json"]) = Some (File c)
        ∧ JSON_parse c = Some (JObj o)
        ∧ obj_get "name" o = Some (JStr ("@repo/" +:+ name))
        ∧ ∀ k, k ∈ dependency_fields → obj_get k o = None.
Proof.
  intros appDir Htree Hdir [n Hsrc] Hfiles.
  pose proof (app_dir_nonempty (cwd w) name) as Hne. fold appDir in Hne.
  assert (Hstat : stat (fs w) appDir = Some Dir) by by rewrite stat_lookup.
  apply Forall_cons in Hfiles as [Hf1 Hfiles].
  apply Forall_cons in Hfiles as [Hf2 Hfiles].
  apply Forall_cons in Hfiles as [Hf3 _].
  assert (Hp : ∀ x : string,
    resolve (cwd w) (path_join (path_join ("apps", name), path_of x))
    = appDir ++ comps (path_of x)) by (intros x; apply app_file_path).
  set (manifest := JObj [
    ("name", JStr ("@repo/" +:+ name));
    ("private", JBool true);
    ("type", JStr "module");
    ("scripts", JObj (Cli.str_props [
      ("build", "tsup --clean");
      ("check-types", "tsc --noEmit");
      ("dev", "tsup --watch --onSuccess 'pnpm start'");
      ("start", "node dist/index.js")]))]).
  exists "EEXIST". eexists. split; [| split].
  - change (Cli.app_action sh pick name Cli.node_flag w)
      with (Cli.initializeApp sh pick name (Some "node") w).
    unfold Cli.initializeApp. cbn [Cli.missing default].
    rewrite bool_decide_eq_false_2 by done.
    unfold bind at 1, ret at 1.
    rewrite decide_False, decide_True by done.
    (* the directory is there *)
    unfold bind at 1, mkdirSync at 1. fold appDir.
    rewrite (tree_mkdirp_noop _ _ Htree Hstat).
    (* the manifest and the configuration files *)
    unfold bind at 1. unfold bind at 1.
    rewrite writeFileSync_run; cbn [fs cwd emit set_fs];
      rewrite (Hp "package.json");
      change (comps (path_of "package.json")) with ["package.json"];
      [| by rewrite stat_lookup by (by intros [_ ?]%app_eq_nil)
       | by rewrite removelast_last ].
    unfold bind at 1.
    rewrite writeFileSync_run; cbn [fs cwd emit set_fs];
      rewrite (Hp "tsup.config.ts");
      change (comps (path_of "tsup.config.ts")) with ["tsup.config.ts"];
      [| rewrite stat_lookup, lookup_insert_ne;
           [done | by intros [=]%app_inv_head | by intros [_ ?]%app_eq_nil]
       | rewrite removelast_last, stat_lookup, lookup_insert_ne;
           [done | | done];
         intros Heq; apply (f_equal length) in Heq;
         rewrite length_app in Heq; cbn in Heq; lia ].
    unfold bind at 1.
    rewrite writeFileSync_run; cbn [fs cwd emit set_fs];
      rewrite (Hp "tsconfig.json");
      change (comps (path_of "tsconfig.json")) with ["tsconfig.json"];
      [| rewrite stat_lookup, !lookup_insert_ne;
           [done | by intros [=]%app_inv_head | by intros [=]%app_inv_head
            | by intros [_ ?]%app_eq_nil]
       | rewrite removelast_last, stat_lookup, !lookup_insert_ne;
           [done | | | done];
         intros Heq; apply (f_equal length) in Heq;
         rewrite length_app in Heq; cbn in Heq; lia ].
    (* [src] is there *)
    unfold bind at 1. unfold bind at 1, mkdirSync at 1.
    cbn [fs cwd emit set_fs]. rewrite (Hp "src").
    change (comps (path_of "src")) with ["src"].
    rewrite stat_lookup by by intros [_ ?]%app_eq_nil.
    rewrite !lookup_insert_ne by by intros [=]%app_inv_head.
    rewrite Hsrc. reflexivity.
  - unfold new_events. cbn [trace emit set_fs].
    rewrite <- !app_assoc, drop_app_length. reflexivity.
  - cbn [fs emit set_fs].
    exists (JSON_stringify manifest 2),
      [("name", JStr ("@repo/" +:+ name));
       ("private", JBool true);
       ("type", JStr "module");
       ("scripts", JObj (Cli.str_props [
         ("build", "tsup --clean");
         ("check-types", "tsc --noEmit");
         ("dev", "tsup --watch --onSuccess 'pnpm start'");
         ("start", "node dist/index.js")]))].
    split; [| split; [by apply parse_stringify | split; [done |]]].
    + rewrite !lookup_insert_ne by by intros [=]%app_inv_head.
      apply lookup_insert_eq.
    + intros k Hk. unfold dependency_fields in Hk.
      repeat (apply elem_of_cons in Hk as [->|Hk]; [done |]).
      by apply elem_of_nil in Hk.
Qed.

Lemma api_app_tree :
  tree (fs (Cli.app_action quiet_shell (fun _ => O) "api" Cli.node_flag
              home).2).
Proof. apply (bool_decide_unpack _). by vm_compute. Qed.

Lemma app_node_again_witness :
  ∃ e w',
    Cli.app_action quiet_shell (fun _ => O) "api" Cli.node_flag
      (Cli.app_action quiet_shell (fun _ => O) "api" Cli.node_flag home).2
    = (Throw e, w').
Proof.
  destruct (app_node_again quiet_shell (fun _ => O) "api"
              (Cli.app_action quiet_shell (fun _ => O) "api" Cli.node_flag
                 home).2 api_app_tree)
    as (e & w' & Hrun & _).
  - by vm_compute.
  - apply is_Some_true. by vm_compute.
  - repeat (apply List.Forall_cons; [by vm_compute |]). apply List.Forall_nil.
  - exact (ex_intro _ e (ex_intro _ w' Hrun)).
Defined.

(** *** The text of a JSON file *)

(** X30. The file that [writeJsonFile] writes is the text of
    [JSON.stringify(data, null, 2)] as it is, for every value: trimming
    takes nothing from it, since it starts and ends with a visible
    character. No line end follows the closing bracket. *)
Theorem writeJsonFile_exact (filePath : path) (data : json) (w w' : World) :
  let text := JSON_stringify data 2 in
  Utils.writeJsonFile filePath data w = (Ok tt, w') →
  fs w' !! resolve (cwd w) filePath = Some (File text)
  ∧ ∃ c d, first_char text = Some c ∧ visible c = true
           ∧ last_char text = Some d ∧ visible d = true.
Proof.
  intros text Hrun. unfold Utils.writeJsonFile in Hrun.
  apply writeFile_inv in Hrun as (_ & _ & f1 & _ & ->).
  rewrite trim_stringify. split; [apply lookup_insert_eq |].
  unfold text, JSON_stringify.
  destruct (serialize_first (spaces (Nat.min 2 10)) EmptyString data)
    as (c & Hc & Hvc).
  destruct (serialize_last (spaces (Nat.min 2 10)) EmptyString data)
    as (d & Hd & Hvd).
  by exists c, d.
Qed.

Lemma writeJsonFile_exact_witness :
  fs (Utils.writeJsonFile "conf/a.json" (JObj [("a", JArr [JNum 1])]) home).2
    !! ["home"; "conf"; "a.json"]
  = Some (File ("{" +:+ nl +:+ "  " +:+ dq +:+ "a" +:+ dq +:+ ": [" +:+ nl
                +:+ "    1" +:+ nl +:+ "  ]" +:+ nl +:+ "}")).
Proof.
  etrans.
  - apply (writeJsonFile_exact "conf/a.json" (JObj [("a", JArr [JNum 1])])
             home). apply run_Ok. by vm_compute.
  - by vm_compute.
Defined.

End Properties.
